(** * Mortgage payoff calculator: the amortization and acceleration engine

    A shallow embedding of [MortgageCalculator] (calculateMonthlyPayment,
    generateOriginalSchedule, generateAcceleratedSchedule, calculateSavings,
    formatDate, parseDate) together with the properties stated about it.

    Conventions of the embedding.

    - JavaScript numbers are read as exact rationals ([Q]); [==] is the
      equality of values.  Rounding of binary floating point is not modelled,
      and neither are the non-finite values: a division by zero, which
      JavaScript answers with an infinity or NaN, can only occur in
      [calculateMonthlyPayment] (termYears = 0, or annualRate = -2400, where
      [(1 + r)^n = 1]).  [Q] answers 0 there, so on these inputs the payment
      of the model is not the program's; the statements about the value of
      the payment assume a positive term and a non-negative rate.
    - [termYears] and [annualExtraMonth] come out of [parseInt]: they are
      integers ([Z]).
    - A "YYYY-MM" string is kept as its two numbers ([YearMonth]).
    - A [Date] is the number of days since 1970-01-01; every [Date] of the
      engine is a midnight, and the host time zone is taken to be UTC, so that
      [getMonth], [getFullYear], [setMonth] and [setDate] read and write the
      proleptic Gregorian calendar of that day number.
    - A [while] loop is iterated with a fuel equal to its own iteration
      ceiling; [WhileRun] is the big-step meaning of the loop and the section
      on termination shows that the fuel is never what stops a loop. *)

From Stdlib Require Import String DecimalString.
From Stdlib Require Import ZArith QArith Qpower Qround Qabs Lqa Lia List Bool.
Import ListNotations.

Open Scope Q_scope.

(** ** Numbers *)

(** [a > b] *)
Definition Qgt_bool (a b : Q) : bool := negb (Qle_bool a b).

(** [Math.max(0, x)] *)
Definition Math_max0 (x : Q) : Q := if Qle_bool x 0 then 0 else x.

(** [Math.pow(x, n)] for an integer [n] *)
Definition Math_pow (x : Q) (n : Z) : Q := x ^ n.

(** [Math.floor] and [Math.round] (halves go up) *)
Definition Math_floor (x : Q) : Z := Qfloor x.
Definition Math_round (x : Q) : Z := Qfloor (x + (1 # 2)).

(** The balance below which a loan counts as paid off. *)
Definition epsilon : Q := 1 # 100.

(** ** Dates *)

Record YearMonth : Type := mkYearMonth { ym_year : Z; ym_month : Z }.

Definition JSDate : Type := Z.

(** Day number of the civil date [y]-[m]-[d], months counted from 1. *)
Definition days_from_civil (y m d : Z) : Z :=
  let y' := if (m <=? 2)%Z then (y - 1)%Z else y in
  let era := (y' / 400)%Z in
  let yoe := (y' - era * 400)%Z in
  let mp := if (2 <? m)%Z then (m - 3)%Z else (m + 9)%Z in
  let doy := ((153 * mp + 2) / 5 + d - 1)%Z in
  let doe := (yoe * 365 + yoe / 4 - yoe / 100 + doy)%Z in
  (era * 146097 + doe - 719468)%Z.

(** The civil date (year, month from 1, day) of a day number. *)
Definition civil_from_days (z : Z) : Z * Z * Z :=
  let z' := (z + 719468)%Z in
  let era := (z' / 146097)%Z in
  let doe := (z' - era * 146097)%Z in
  let yoe := ((doe - doe / 1460 + doe / 36524 - doe / 146096) / 365)%Z in
  let doy := (doe - (365 * yoe + yoe / 4 - yoe / 100))%Z in
  let mp := ((5 * doy + 2) / 153)%Z in
  let d := (doy - (153 * mp + 2) / 5 + 1)%Z in
  let m := if (mp <? 10)%Z then (mp + 3)%Z else (mp - 9)%Z in
  let y := (yoe + era * 400)%Z in
  (if (m <=? 2)%Z then (y + 1)%Z else y, m, d).

Definition getFullYear (d : JSDate) : Z := fst (fst (civil_from_days d)).
(** months counted from 0, as [Date.prototype.getMonth] does *)
Definition getMonth (d : JSDate) : Z := (snd (fst (civil_from_days d)) - 1)%Z.
Definition getDate (d : JSDate) : Z := snd (civil_from_days d).

(** ECMAScript's MakeDay: the month (from 0) may lie outside 0..11 and the
    day of the month outside the month. *)
Definition MakeDay (year month dt : Z) : JSDate :=
  (days_from_civil (year + month / 12) (month mod 12 + 1) 1 + dt - 1)%Z.

Definition setMonth (d : JSDate) (month : Z) : JSDate :=
  MakeDay (getFullYear d) month (getDate d).

Definition setDate (d : JSDate) (dt : Z) : JSDate :=
  MakeDay (getFullYear d) (getMonth d) dt.

(** [new Date(s + '-01')] and [parseDate] *)
Definition parseDate (s : YearMonth) : JSDate :=
  days_from_civil (ym_year s) (ym_month s) 1.

Definition formatDate (d : JSDate) : YearMonth :=
  {| ym_year := getFullYear d; ym_month := (getMonth d + 1)%Z |}.

(** ** The data of the engine *)

Record LoanData : Type := mkLoanData {
  principal : Q;
  annualRate : Q;
  termYears : Z;
  startDate : YearMonth
}.

Record AccelerationOptions : Type := mkAccelerationOptions {
  extraMonthly : Q;
  biweekly : bool;
  lumpSum : Q;
  lumpSumDate : option YearMonth;
  annualExtra : Q;
  annualExtraMonth : Z
}.

(** One row of a schedule. *)
Record PaymentRecord : Type := mkPaymentRecord {
  row_paymentNumber : Z;
  row_date : YearMonth;
  row_dateObj : JSDate;
  row_payment : Q;
  row_principal : Q;
  row_interest : Q;
  row_extraPayment : Q;
  row_balance : Q;
  row_cumulativeInterest : Q
}.

Record ScheduleResult : Type := mkScheduleResult {
  schedule : list PaymentRecord;
  monthlyPayment : Q;
  totalInterest : Q;
  totalPayments : Z;
  payoffDate : YearMonth
}.

Record Savings : Type := mkSavings {
  monthsSaved : Z;
  yearsSaved : Z;
  remainingMonths : Z;
  interestSaved : Q;
  originalInterest : Q;
  acceleratedInterest : Q
}.

(** [schedule[schedule.length - 1]] *)
Definition lastRow (l : list PaymentRecord) : option PaymentRecord :=
  nth_error l (length l - 1).

(** [schedule[schedule.length - 1]?.date || this.formatDate(start)] *)
Definition payoffOf (l : list PaymentRecord) (start : JSDate) : YearMonth :=
  match lastRow l with
  | Some r => row_date r
  | None => formatDate start
  end.

(** ** Loops *)

Section While.
Context {S : Type}.
Variable cond : S -> bool.
(** the body gives the next state and whether it left through [break] *)
Variable body : S -> S * bool.

Fixpoint while_loop (fuel : nat) (s : S) : S :=
  match fuel with
  | O => s
  | Datatypes.S fuel' =>
      if cond s then
        let (s', brk) := body s in
        if brk then s' else while_loop fuel' s'
      else s
  end.

(** The meaning of [while (cond) { body }] with [break]. *)
Inductive WhileRun : S -> S -> Prop :=
| WhileRun_exit : forall s, cond s = false -> WhileRun s s
| WhileRun_break : forall s s',
    cond s = true -> body s = (s', true) -> WhileRun s s'
| WhileRun_next : forall s s' s'',
    cond s = true -> body s = (s', false) -> WhileRun s' s'' ->
    WhileRun s s''.
End While.

(** ** calculateMonthlyPayment *)

Definition calculateMonthlyPayment (principal annualRate : Q) (termYears : Z) : Q :=
  if Qeq_bool annualRate 0 then
    principal / inject_Z (termYears * 12)
  else
    let monthlyRate := annualRate / 100 / 12 in
    let numPayments := (termYears * 12)%Z in
    let payment :=
      principal *
        (monthlyRate * Math_pow (1 + monthlyRate) numPayments) /
        (Math_pow (1 + monthlyRate) numPayments - 1) in
    payment.

(** ** generateOriginalSchedule *)

Record OriginalVars : Type := mkOriginalVars {
  o_schedule : list PaymentRecord;
  o_balance : Q;
  o_cumulativeInterest : Q;
  o_paymentNumber : Z
}.

Definition originalCond (termYears : Z) (s : OriginalVars) : bool :=
  Qgt_bool (o_balance s) epsilon && (o_paymentNumber s <? termYears * 12)%Z.

Definition originalBody (monthlyPayment monthlyRate : Q) (start : JSDate)
    (s : OriginalVars) : OriginalVars :=
  let paymentNumber := (o_paymentNumber s + 1)%Z in
  let paymentDate := setMonth start (getMonth start + paymentNumber - 1) in
  let interestPayment := o_balance s * monthlyRate in
  let principalPayment := monthlyPayment - interestPayment in
  let principalPayment :=
    if Qgt_bool principalPayment (o_balance s) then o_balance s
    else principalPayment in
  let actualPayment := principalPayment + interestPayment in
  let balance := o_balance s - principalPayment in
  let cumulativeInterest := o_cumulativeInterest s + interestPayment in
  {| o_schedule := o_schedule s ++ [
       {| row_paymentNumber := paymentNumber;
          row_date := formatDate paymentDate;
          row_dateObj := paymentDate;
          row_payment := actualPayment;
          row_principal := principalPayment;
          row_interest := interestPayment;
          row_extraPayment := 0;
          row_balance := Math_max0 balance;
          row_cumulativeInterest := cumulativeInterest |} ];
     o_balance := balance;
     o_cumulativeInterest := cumulativeInterest;
     o_paymentNumber := paymentNumber |}.

Definition originalInit (loanData : LoanData) : OriginalVars :=
  {| o_schedule := [];
     o_balance := principal loanData;
     o_cumulativeInterest := 0;
     o_paymentNumber := 0 |}.

Definition originalLoop (loanData : LoanData) : OriginalVars :=
  let monthlyPayment :=
    calculateMonthlyPayment (principal loanData) (annualRate loanData)
      (termYears loanData) in
  let monthlyRate := annualRate loanData / 100 / 12 in
  let start := parseDate (startDate loanData) in
  while_loop (originalCond (termYears loanData))
    (fun s => (originalBody monthlyPayment monthlyRate start s, false))
    (Z.to_nat (termYears loanData * 12)) (originalInit loanData).

Definition generateOriginalSchedule (loanData : LoanData) : ScheduleResult :=
  let monthlyPayment :=
    calculateMonthlyPayment (principal loanData) (annualRate loanData)
      (termYears loanData) in
  let start := parseDate (startDate loanData) in
  let final := originalLoop loanData in
  {| schedule := o_schedule final;
     monthlyPayment := monthlyPayment;
     totalInterest := o_cumulativeInterest final;
     totalPayments := o_paymentNumber final;
     payoffDate := payoffOf (o_schedule final) start |}.

(** ** generateAcceleratedSchedule *)

(** The variables of the two loops; [a_dayCounter] belongs to the bi-weekly
    loop only and the monthly loop does not touch it. *)
Record AccelVars : Type := mkAccelVars {
  a_schedule : list PaymentRecord;
  a_balance : Q;
  a_cumulativeInterest : Q;
  a_paymentNumber : Z;
  a_lumpSumApplied : bool;
  a_dayCounter : Z
}.

(** [lumpSumDateObj]: set when [lumpSum > 0 && lumpSumDate] *)
Definition lumpSumDateObjOf (o : AccelerationOptions) : option JSDate :=
  if Qgt_bool (lumpSum o) 0 then
    match lumpSumDate o with
    | Some d => Some (parseDate d)
    | None => None
    end
  else None.

Definition maxPaymentsOf (loanData : LoanData) : Z :=
  (termYears loanData * 12 * 2)%Z.

Definition biweeklyCond (maxPayments : Z) (s : AccelVars) : bool :=
  Qgt_bool (a_balance s) epsilon && (a_paymentNumber s <? maxPayments * 2)%Z.

Definition monthlyCond (maxPayments : Z) (s : AccelVars) : bool :=
  Qgt_bool (a_balance s) epsilon && (a_paymentNumber s <? maxPayments)%Z.

Definition biweeklyBody (baseMonthlyPayment annualRate : Q) (start : JSDate)
    (o : AccelerationOptions) (lumpSumDateObj : option JSDate)
    (s : AccelVars) : AccelVars * bool :=
  let biweeklyPayment := baseMonthlyPayment / 2 in
  let paymentNumber := (a_paymentNumber s + 1)%Z in
  let paymentDate := setDate start (getDate start + a_dayCounter s) in
  let dayCounter := (a_dayCounter s + 14)%Z in
  let dailyRate := (annualRate / 100) / 365 in
  let periodInterest := a_balance s * dailyRate * 14 in
  let periodPayment := biweeklyPayment in
  let extraPayment := 0 in
  let extraPayment :=
    if Qgt_bool (extraMonthly o) 0
    then extraPayment + extraMonthly o / (217 # 100)
    else extraPayment in
  let lumpNow :=
    negb (a_lumpSumApplied s) &&
    match lumpSumDateObj with
    | Some l => (l <=? paymentDate)%Z
    | None => false
    end in
  let extraPayment := if lumpNow then extraPayment + lumpSum o else extraPayment in
  let lumpSumApplied := if lumpNow then true else a_lumpSumApplied s in
  let extraPayment :=
    if Qgt_bool (annualExtra o) 0 && (getMonth paymentDate =? annualExtraMonth o)%Z
    then
      match lastRow (a_schedule s) with
      | None => extraPayment + annualExtra o
      | Some lastPayment =>
          if negb (getMonth (row_dateObj lastPayment) =? annualExtraMonth o)%Z
             || negb (getFullYear (row_dateObj lastPayment) =? getFullYear paymentDate)%Z
          then extraPayment + annualExtra o
          else extraPayment
      end
    else extraPayment in
  let principalPayment := periodPayment - periodInterest in
  let principalPayment := principalPayment + extraPayment in
  let final := Qgt_bool principalPayment (a_balance s) in
  let principalPayment := if final then a_balance s else principalPayment in
  let periodPayment := if final then principalPayment + periodInterest else periodPayment in
  let balance := a_balance s - principalPayment in
  let cumulativeInterest := a_cumulativeInterest s + periodInterest in
  ({| a_schedule := a_schedule s ++ [
        {| row_paymentNumber := paymentNumber;
           row_date := formatDate paymentDate;
           row_dateObj := paymentDate;
           row_payment := periodPayment;
           row_principal := principalPayment - extraPayment;
           row_interest := periodInterest;
           row_extraPayment := extraPayment;
           row_balance := Math_max0 balance;
           row_cumulativeInterest := cumulativeInterest |} ];
      a_balance := balance;
      a_cumulativeInterest := cumulativeInterest;
      a_paymentNumber := paymentNumber;
      a_lumpSumApplied := lumpSumApplied;
      a_dayCounter := dayCounter |},
   Qle_bool balance epsilon).

Definition monthlyBody (baseMonthlyPayment monthlyRate : Q) (start : JSDate)
    (o : AccelerationOptions) (lumpSumDateObj : option JSDate)
    (s : AccelVars) : AccelVars * bool :=
  let paymentNumber := (a_paymentNumber s + 1)%Z in
  let paymentDate := setMonth start (getMonth start + paymentNumber - 1) in
  let interestPayment := a_balance s * monthlyRate in
  let principalPayment := baseMonthlyPayment - interestPayment in
  let extraPayment := 0 in
  let extraPayment :=
    if Qgt_bool (extraMonthly o) 0
    then extraPayment + extraMonthly o
    else extraPayment in
  let lumpNow :=
    negb (a_lumpSumApplied s) &&
    match lumpSumDateObj with
    | Some l =>
        let paymentMonth := (getFullYear paymentDate * 12 + getMonth paymentDate)%Z in
        let lumpSumMonth := (getFullYear l * 12 + getMonth l)%Z in
        (lumpSumMonth <=? paymentMonth)%Z
    | None => false
    end in
  let extraPayment := if lumpNow then extraPayment + lumpSum o else extraPayment in
  let lumpSumApplied := if lumpNow then true else a_lumpSumApplied s in
  let extraPayment :=
    if Qgt_bool (annualExtra o) 0 && (getMonth paymentDate =? annualExtraMonth o)%Z
    then extraPayment + annualExtra o
    else extraPayment in
  let principalPayment := principalPayment + extraPayment in
  let principalPayment :=
    if Qgt_bool principalPayment (a_balance s) then a_balance s
    else principalPayment in
  let actualPayment :=
    if Qgt_bool (baseMonthlyPayment - extraPayment) (a_balance s + interestPayment)
    then a_balance s + interestPayment
    else baseMonthlyPayment in
  let balance := a_balance s - principalPayment in
  let cumulativeInterest := a_cumulativeInterest s + interestPayment in
  ({| a_schedule := a_schedule s ++ [
        {| row_paymentNumber := paymentNumber;
           row_date := formatDate paymentDate;
           row_dateObj := paymentDate;
           row_payment := actualPayment;
           row_principal := principalPayment - extraPayment;
           row_interest := interestPayment;
           row_extraPayment := extraPayment;
           row_balance := Math_max0 balance;
           row_cumulativeInterest := cumulativeInterest |} ];
      a_balance := balance;
      a_cumulativeInterest := cumulativeInterest;
      a_paymentNumber := paymentNumber;
      a_lumpSumApplied := lumpSumApplied;
      a_dayCounter := a_dayCounter s |},
   Qle_bool balance epsilon).

Definition accelInit (loanData : LoanData) : AccelVars :=
  {| a_schedule := [];
     a_balance := principal loanData;
     a_cumulativeInterest := 0;
     a_paymentNumber := 0;
     a_lumpSumApplied := false;
     a_dayCounter := 0 |}.

Definition acceleratedLoop (loanData : LoanData)
    (accelerationOptions : AccelerationOptions) : AccelVars :=
  let baseMonthlyPayment :=
    calculateMonthlyPayment (principal loanData) (annualRate loanData)
      (termYears loanData) in
  let monthlyRate := annualRate loanData / 100 / 12 in
  let start := parseDate (startDate loanData) in
  let maxPayments := maxPaymentsOf loanData in
  let lumpSumDateObj := lumpSumDateObjOf accelerationOptions in
  if biweekly accelerationOptions then
    while_loop (biweeklyCond maxPayments)
      (biweeklyBody baseMonthlyPayment (annualRate loanData) start
         accelerationOptions lumpSumDateObj)
      (Z.to_nat (maxPayments * 2)) (accelInit loanData)
  else
    while_loop (monthlyCond maxPayments)
      (monthlyBody baseMonthlyPayment monthlyRate start
         accelerationOptions lumpSumDateObj)
      (Z.to_nat maxPayments) (accelInit loanData).

Definition generateAcceleratedSchedule (loanData : LoanData)
    (accelerationOptions : AccelerationOptions) : ScheduleResult :=
  let baseMonthlyPayment :=
    calculateMonthlyPayment (principal loanData) (annualRate loanData)
      (termYears loanData) in
  let start := parseDate (startDate loanData) in
  let final := acceleratedLoop loanData accelerationOptions in
  {| schedule := a_schedule final;
     monthlyPayment := baseMonthlyPayment;
     totalInterest := a_cumulativeInterest final;
     totalPayments := a_paymentNumber final;
     payoffDate := payoffOf (a_schedule final) start |}.

(** ** calculateSavings *)

(** milliseconds since the epoch of a [Date] *)
Definition getTime (d : JSDate) : Z := (d * 86400000)%Z.

(** The text [timeSavedText] is presentation and is left out. *)
Definition calculateSavings (originalResult acceleratedResult : ScheduleResult)
    : Savings :=
  let originalDate := parseDate (payoffDate originalResult) in
  let acceleratedDate := parseDate (payoffDate acceleratedResult) in
  let timeDiff := (getTime originalDate - getTime acceleratedDate)%Z in
  let monthsSaved :=
    Math_round (inject_Z timeDiff / (1000 * 60 * 60 * 24 * (3044 # 100))) in
  let yearsSaved := Math_floor (inject_Z monthsSaved / 12) in
  let remainingMonths := Z.rem monthsSaved 12 in
  let interestSaved := totalInterest originalResult - totalInterest acceleratedResult in
  {| monthsSaved := monthsSaved;
     yearsSaved := yearsSaved;
     remainingMonths := remainingMonths;
     interestSaved := interestSaved;
     originalInterest := totalInterest originalResult;
     acceleratedInterest := totalInterest acceleratedResult |}.

(** ** Notions used by the statements *)

(** The periodic payment as the specification words it: straight-line for a
    zero rate, the annuity formula [P * r * (1+r)^n / ((1+r)^n - 1)]
    otherwise. *)
Definition computePeriodicPayment_spec (P annualRatePercent : Q) (T : Z) : Q :=
  if Qeq_bool annualRatePercent 0 then P / inject_Z (T * 12)
  else
    let r := annualRatePercent / 100 / 12 in
    let n := (T * 12)%Z in
    P * r * (1 + r) ^ n / ((1 + r) ^ n - 1).

(** A loan definition of the data model: positive principal, non-negative
    rate, a positive whole number of years. *)
Definition validLoan (l : LoanData) : Prop :=
  0 < principal l /\ 0 <= annualRate l /\ (0 < termYears l)%Z.

(** Sum of the [principal] fields of a schedule. *)
Definition sumPrincipal (l : list PaymentRecord) : Q :=
  fold_right (fun r acc => row_principal r + acc) 0 l.

(** The balance after [k] full payments when nothing is ever truncated:
    [b (k+1) = b k * (1 + r) - payment]. *)
Fixpoint unrolledBalance (P pay r : Q) (k : nat) : Q :=
  match k with
  | O => P
  | Datatypes.S k' => unrolledBalance P pay r k' * (1 + r) - pay
  end.

(** How a call of the engine completes: with a value, or abruptly (an
    exception).  Neither function has a [throw], and the one read of a
    possibly missing row goes through [?.]: every call completes normally. *)
Inductive Completion (A : Type) : Type :=
| Normal (a : A)
| Thrown.
Arguments Normal {A} a.
Arguments Thrown {A}.

Definition call_generateOriginalSchedule (l : LoanData)
    : Completion ScheduleResult :=
  Normal (generateOriginalSchedule l).

Definition call_generateAcceleratedSchedule (l : LoanData)
    (o : AccelerationOptions) : Completion ScheduleResult :=
  Normal (generateAcceleratedSchedule l o).

(** The iteration ceiling of the loop that [generateAcceleratedSchedule]
    runs. *)
Definition accelCeiling (l : LoanData) (o : AccelerationOptions) : Z :=
  if biweekly o then (maxPaymentsOf l * 2)%Z else maxPaymentsOf l.

(** The loop stopped at its ceiling with the balance still above epsilon. *)
Definition originalExhausted (l : LoanData) : bool :=
  Qgt_bool (o_balance (originalLoop l)) epsilon &&
  negb (o_paymentNumber (originalLoop l) <? termYears l * 12)%Z.

Definition acceleratedExhausted (l : LoanData) (o : AccelerationOptions) : bool :=
  Qgt_bool (a_balance (acceleratedLoop l o)) epsilon &&
  negb (a_paymentNumber (acceleratedLoop l o) <? accelCeiling l o)%Z.

(** Two rows with the same fields (numbers compared by value). *)
Definition rowEquiv (a b : PaymentRecord) : Prop :=
  row_paymentNumber a = row_paymentNumber b /\
  row_date a = row_date b /\
  row_dateObj a = row_dateObj b /\
  row_payment a == row_payment b /\
  row_principal a == row_principal b /\
  row_interest a == row_interest b /\
  row_extraPayment a == row_extraPayment b /\
  row_balance a == row_balance b /\
  row_cumulativeInterest a == row_cumulativeInterest b.

(** Two results with the same ledger and the same summary. *)
Definition resultEquiv (a b : ScheduleResult) : Prop :=
  Forall2 rowEquiv (schedule a) (schedule b) /\
  monthlyPayment a == monthlyPayment b /\
  totalInterest a == totalInterest b /\
  totalPayments a = totalPayments b /\
  payoffDate a = payoffDate b.

(** No strategy is active. *)
Definition inactiveOptions (o : AccelerationOptions) : Prop :=
  extraMonthly o == 0 /\ biweekly o = false /\
  lumpSum o == 0 /\ annualExtra o == 0.

(** *** The parts of a period's extra payment *)

(** The date of monthly payment number [k]. *)
Definition monthlyPaymentDate (start : JSDate) (k : Z) : JSDate :=
  setMonth start (getMonth start + k - 1).

(** The date of bi-weekly payment number [k], as the loop computes it. *)
Definition biweeklyPaymentDate (start : JSDate) (dayCounter : Z) : JSDate :=
  setDate start (getDate start + dayCounter).

(** Year and month of a date as one number. *)
Definition monthIndex (d : JSDate) : Z := (getFullYear d * 12 + getMonth d)%Z.

(** The lump sum's date is reached: by month in monthly mode, by day in
    bi-weekly mode. *)
Definition lumpDueMonthly (lsd : option JSDate) (d : JSDate) : bool :=
  match lsd with
  | Some l => (monthIndex l <=? monthIndex d)%Z
  | None => false
  end.

Definition lumpDueBiweekly (lsd : option JSDate) (d : JSDate) : bool :=
  match lsd with
  | Some l => (l <=? d)%Z
  | None => false
  end.

(** The share of [extraMonthly] in one period. *)
Definition extraShareMonthly (o : AccelerationOptions) : Q :=
  if Qgt_bool (extraMonthly o) 0 then extraMonthly o else 0.

Definition extraShareBiweekly (o : AccelerationOptions) : Q :=
  if Qgt_bool (extraMonthly o) 0 then extraMonthly o / (217 # 100) else 0.

(** The annual extra is due at date [d]; in bi-weekly mode, not when the row
    before is already in that month of that year. *)
Definition annualDueMonthly (o : AccelerationOptions) (d : JSDate) : bool :=
  Qgt_bool (annualExtra o) 0 && (getMonth d =? annualExtraMonth o)%Z.

Definition annualDueBiweekly (o : AccelerationOptions)
    (prev : option PaymentRecord) (d : JSDate) : bool :=
  Qgt_bool (annualExtra o) 0 && (getMonth d =? annualExtraMonth o)%Z &&
  match prev with
  | None => true
  | Some p =>
      negb (getMonth (row_dateObj p) =? annualExtraMonth o)%Z
      || negb (getFullYear (row_dateObj p) =? getFullYear d)%Z
  end.

(** The principal a period pays: what is due, or the whole balance when
    that is less. *)
Definition cappedPrincipal (due balance : Q) : Q :=
  if Qgt_bool due balance then balance else due.

(** The options with another extra monthly amount. *)
Definition withExtraMonthly (o : AccelerationOptions) (e : Q)
    : AccelerationOptions :=
  {| extraMonthly := e;
     biweekly := biweekly o;
     lumpSum := lumpSum o;
     lumpSumDate := lumpSumDate o;
     annualExtra := annualExtra o;
     annualExtraMonth := annualExtraMonth o |}.

(** *** Reading a schedule row by row *)

(** The balance a row starts from, given the rows before it: the loan
    principal for the first row, the [balance] of the row before
    otherwise. *)
Definition openingBalance (l : LoanData) (before : list PaymentRecord) : Q :=
  match lastRow before with
  | None => principal l
  | Some p => row_balance p
  end.

(** The lump sum's date is reached at [d] and was not at any row before. *)
Definition firstDue (due : JSDate -> bool) (before : list PaymentRecord)
    (d : JSDate) : bool :=
  negb (existsb (fun r => due (row_dateObj r)) before) && due d.

(** A row of the monthly loop, given the rows before it. *)
Definition MonthlyRow (l : LoanData) (o : AccelerationOptions)
    (before : list PaymentRecord) (row : PaymentRecord) : Prop :=
  let base := calculateMonthlyPayment (principal l) (annualRate l) (termYears l) in
  let rate := annualRate l / 100 / 12 in
  let k := (Z.of_nat (length before) + 1)%Z in
  let d := monthlyPaymentDate (parseDate (startDate l)) k in
  let b := openingBalance l before in
  let x := row_extraPayment row in
  row_paymentNumber row = k /\
  row_dateObj row = d /\
  row_date row = formatDate d /\
  row_interest row = b * rate /\
  x == extraShareMonthly o
       + (if firstDue (lumpDueMonthly (lumpSumDateObjOf o)) before d
          then lumpSum o else 0)
       + (if annualDueMonthly o d then annualExtra o else 0) /\
  row_principal row = cappedPrincipal (base - b * rate + x) b - x /\
  row_payment row =
    (if Qgt_bool (base - x) (b + b * rate) then b + b * rate else base) /\
  row_balance row = Math_max0 (b - cappedPrincipal (base - b * rate + x) b).

(** A row of the bi-weekly loop, given the rows before it. *)
Definition BiweeklyRow (l : LoanData) (o : AccelerationOptions)
    (before : list PaymentRecord) (row : PaymentRecord) : Prop :=
  let base := calculateMonthlyPayment (principal l) (annualRate l) (termYears l) in
  let k := Z.of_nat (length before) in
  let d := biweeklyPaymentDate (parseDate (startDate l)) (14 * k) in
  let b := openingBalance l before in
  let interest := b * (annualRate l / 100 / 365) * 14 in
  let x := row_extraPayment row in
  row_paymentNumber row = (k + 1)%Z /\
  row_dateObj row = d /\
  row_date row = formatDate d /\
  row_interest row = interest /\
  x == extraShareBiweekly o
       + (if firstDue (lumpDueBiweekly (lumpSumDateObjOf o)) before d
          then lumpSum o else 0)
       + (if annualDueBiweekly o (lastRow before) d then annualExtra o else 0) /\
  row_principal row = cappedPrincipal (base / 2 - interest + x) b - x /\
  row_payment row =
    (if Qgt_bool (base / 2 - interest + x) b then b + interest else base / 2) /\
  row_balance row = Math_max0 (b - cappedPrincipal (base / 2 - interest + x) b).

(** Every row of a schedule is as [P] says, given the rows before it. *)
Definition EveryRow (P : list PaymentRecord -> PaymentRecord -> Prop)
    (sched : list PaymentRecord) : Prop :=
  forall i row, nth_error sched i = Some row -> P (firstn i sched) row.

(** Year and month of a "YYYY-MM" period as one number. *)
Definition ymIndex (p : YearMonth) : Z := (ym_year p * 12 + (ym_month p - 1))%Z.

(** A period with a month of the calendar. *)
Definition validPeriod (p : YearMonth) : Prop := (1 <= ym_month p <= 12)%Z.

(** *** The lump sum in a row's extra payment *)

(** When the lump sum is due, in the mode the options select. *)
Definition lumpDueOf (o : AccelerationOptions) : JSDate -> bool :=
  if biweekly o then lumpDueBiweekly (lumpSumDateObjOf o)
  else lumpDueMonthly (lumpSumDateObjOf o).

(** What the recurring strategies put in a row's extra payment: the share
    of [extraMonthly] and, when due, the annual extra. *)
Definition regularExtra (o : AccelerationOptions)
    (before : list PaymentRecord) (row : PaymentRecord) : Q :=
  if biweekly o then
    extraShareBiweekly o
    + (if annualDueBiweekly o (lastRow before) (row_dateObj row)
       then annualExtra o else 0)
  else
    extraShareMonthly o
    + (if annualDueMonthly o (row_dateObj row) then annualExtra o else 0).

(** The rest of the row's extra payment: the lump sum, if it is in. *)
Definition lumpShare (o : AccelerationOptions)
    (before : list PaymentRecord) (row : PaymentRecord) : Q :=
  row_extraPayment row - regularExtra o before row.

(** *** What the states of the loops satisfy *)

(** Every state of the loop of [generateOriginalSchedule] on a loan of the
    data model: the count of payments and of rows, a balance that is never
    negative and never above the unrolled one, the principal paid so far, the
    [balance] of the last row. *)
Definition OriginalInv (l : LoanData) (s : OriginalVars) : Prop :=
  (0 <= o_paymentNumber s <= termYears l * 12)%Z /\
  Z.of_nat (length (o_schedule s)) = o_paymentNumber s /\
  0 <= o_balance s /\
  (epsilon < o_balance s ->
     o_balance s <=
       unrolledBalance (principal l)
         (calculateMonthlyPayment (principal l) (annualRate l) (termYears l))
         (annualRate l / 100 / 12) (Z.to_nat (o_paymentNumber s))) /\
  sumPrincipal (o_schedule s) + o_balance s == principal l /\
  (forall row, lastRow (o_schedule s) = Some row ->
     row_balance row = Math_max0 (o_balance s)) /\
  (o_paymentNumber s = 0%Z -> o_balance s = principal l).

(** Every state of either loop of [generateAcceleratedSchedule], whatever
    the loan. *)
Definition AccelInv (l : LoanData) (o : AccelerationOptions) (s : AccelVars)
    : Prop :=
  (0 <= a_paymentNumber s <= Z.max 0 (accelCeiling l o))%Z /\
  Z.of_nat (length (a_schedule s)) = a_paymentNumber s /\
  (forall row, lastRow (a_schedule s) = Some row ->
     row_balance row = Math_max0 (a_balance s)).

(** A state of the standard loop and a state of the monthly accelerated
    loop that carry the same ledger. *)
Definition Matching (s1 : OriginalVars) (s2 : AccelVars) : Prop :=
  o_balance s1 == a_balance s2 /\
  o_cumulativeInterest s1 == a_cumulativeInterest s2 /\
  o_paymentNumber s1 = a_paymentNumber s2 /\
  Forall2 rowEquiv (o_schedule s1) (a_schedule s2).

(** How the variables of an accelerated loop relate to the rows pushed so
    far. *)
Definition LedgerVars (l : LoanData) (due : JSDate -> bool) (s : AccelVars)
    : Prop :=
  a_paymentNumber s = Z.of_nat (length (a_schedule s)) /\
  a_lumpSumApplied s = existsb (fun r => due (row_dateObj r)) (a_schedule s) /\
  (epsilon < a_balance s -> openingBalance l (a_schedule s) = a_balance s).

Definition MonthlyLedger (l : LoanData) (o : AccelerationOptions)
    (s : AccelVars) : Prop :=
  EveryRow (MonthlyRow l o) (a_schedule s) /\
  LedgerVars l (lumpDueMonthly (lumpSumDateObjOf o)) s.

Definition BiweeklyLedger (l : LoanData) (o : AccelerationOptions)
    (s : AccelVars) : Prop :=
  EveryRow (BiweeklyRow l o) (a_schedule s) /\
  LedgerVars l (lumpDueBiweekly (lumpSumDateObjOf o)) s /\
  a_dayCounter s = (14 * a_paymentNumber s)%Z.

(** * Further notions *)

(** Sum of the [interest] fields of a schedule. *)
Definition sumInterest (l : list PaymentRecord) : Q :=
  fold_right (fun r acc => row_interest r + acc) 0 l.

(** Every state of the standard loop when no payment is ever truncated
    before the term: the balance is the unrolled one, each record pays the
    full monthly payment, and what was paid is interest plus principal. *)
Definition FullTermInv (l : LoanData) (s : OriginalVars) : Prop :=
  let pay := calculateMonthlyPayment (principal l) (annualRate l) (termYears l) in
  (0 <= o_paymentNumber s <= termYears l * 12)%Z /\
  o_balance s ==
    unrolledBalance (principal l) pay (annualRate l / 100 / 12)
      (Z.to_nat (o_paymentNumber s)) /\
  o_cumulativeInterest s + (principal l - o_balance s)
    == inject_Z (o_paymentNumber s) * pay /\
  Forall (fun row => row_payment row == pay) (o_schedule s).

(** The interest rate of one bi-weekly period. *)
Definition biweeklyRate (l : LoanData) : Q := annualRate l / 100 / 365 * 14.

(** Every state of an accelerated loop on a loan of the data model: the
    balance is never negative and never above the balance [bound k] that [k]
    payments without any extra would leave, and the payments stay within
    [limit]. *)
Definition PaidDownInv (limit : Z) (bound : nat -> Q) (s : AccelVars) : Prop :=
  (0 <= a_paymentNumber s <= limit)%Z /\
  0 <= a_balance s /\
  (epsilon < a_balance s -> a_balance s <= bound (Z.to_nat (a_paymentNumber s))).

(** The balance of a monthly loop without extras, and of a bi-weekly one. *)
Definition monthlyBound (l : LoanData) (k : nat) : Q :=
  unrolledBalance (principal l)
    (calculateMonthlyPayment (principal l) (annualRate l) (termYears l))
    (annualRate l / 100 / 12) k.

Definition biweeklyBound (l : LoanData) (k : nat) : Q :=
  unrolledBalance (principal l)
    (calculateMonthlyPayment (principal l) (annualRate l) (termYears l) / 2)
    (biweeklyRate l) k.

(** A record whose [cumulativeInterest] is the interest of the records
    before it plus its own. *)
Definition InterestRow (before : list PaymentRecord) (row : PaymentRecord) : Prop :=
  row_cumulativeInterest row == sumInterest before + row_interest row.

(** ** validateLoanData

    The object handed to [validateLoanData] comes from form fields:
    [principal] out of [parseCurrency], [annualRate] out of [parseFloat],
    [termYears] out of [parseInt], [startDate] a string.  A number that is
    [NaN] (or a property that is missing) is [None]; so is the empty or
    missing [startDate].  A non-empty [startDate] is taken to be a
    "YYYY-MM" string. *)

Record LoanForm : Type := mkLoanForm {
  data_principal : option Q;
  data_annualRate : option Q;
  data_termYears : option Z;
  data_startDate : option YearMonth
}.

(** [!x] for a number: true on 0 and on NaN. *)
Definition js_not (x : option Q) : bool :=
  match x with
  | Some v => Qeq_bool v 0
  | None => true
  end.

(** [x < c] and [x > c]: false when [x] is NaN. *)
Definition js_lt (x : option Q) (c : Q) : bool :=
  match x with
  | Some v => Qgt_bool c v
  | None => false
  end.

Definition js_gt (x : option Q) (c : Q) : bool :=
  match x with
  | Some v => Qgt_bool v c
  | None => false
  end.

(** The [errors] object: its properties in the order of their creation. *)
Definition JSObject : Type := list (string * string).

(** [obj[key] = value]: an existing property keeps its place. *)
Fixpoint setProp (key value : string) (obj : JSObject) : JSObject :=
  match obj with
  | [] => [(key, value)]
  | (k, v) :: rest =>
      if String.eqb key k then (key, value) :: rest
      else (k, v) :: setProp key value rest
  end.

(** [obj[key]] *)
Fixpoint getProp (key : string) (obj : JSObject) : option string :=
  match obj with
  | [] => None
  | (k, v) :: rest => if String.eqb key k then Some v else getProp key rest
  end.

Definition Object_keys (obj : JSObject) : list string := map fst obj.

Record ValidationResult : Type := mkValidationResult {
  isValid : bool;
  errors : JSObject
}.

Definition validateLoanData (data : LoanForm) : ValidationResult :=
  let termYears := option_map inject_Z (data_termYears data) in
  let errors : JSObject := [] in
  let errors :=
    if js_not (data_principal data) || js_lt (data_principal data) 1000
    then setProp "loanAmount" "Loan amount must be at least $1,000" errors
    else errors in
  let errors :=
    if js_gt (data_principal data) 10000000
    then setProp "loanAmount" "Loan amount cannot exceed $10,000,000" errors
    else errors in
  let errors :=
    if js_not (data_annualRate data) || js_lt (data_annualRate data) (1 # 10)
    then setProp "interestRate" "Interest rate must be at least 0.1%" errors
    else errors in
  let errors :=
    if js_gt (data_annualRate data) 25
    then setProp "interestRate" "Interest rate cannot exceed 25%" errors
    else errors in
  let errors :=
    if js_not termYears || js_lt termYears 1
    then setProp "loanTerm" "Please select a loan term" errors
    else errors in
  let errors :=
    match data_startDate data with
    | None => setProp "startDate" "Please enter a start date" errors
    | Some _ => errors
    end in
  {| isValid := Nat.eqb (length (Object_keys errors)) 0;
     errors := errors |}.

(** The form object of a loan whose fields are all present. *)
Definition formOf (l : LoanData) : LoanForm :=
  {| data_principal := Some (principal l);
     data_annualRate := Some (annualRate l);
     data_termYears := Some (termYears l);
     data_startDate := Some (startDate l) |}.

(** The period [k] months after the period [p]. *)
Definition addMonths (p : YearMonth) (k : Z) : YearMonth :=
  {| ym_year := (ym_year p + (ym_month p - 1 + k) / 12)%Z;
     ym_month := ((ym_month p - 1 + k) mod 12 + 1)%Z |}.

(** A record of a monthly schedule that starts at the period [start]: it
    carries its rank as payment number and the first day of the month that
    many months after [start] as date. *)
Definition MonthStamped (start : YearMonth) (before : list PaymentRecord)
    (row : PaymentRecord) : Prop :=
  let i := Z.of_nat (length before) in
  row_paymentNumber row = (i + 1)%Z /\
  row_date row = addMonths start i /\
  row_dateObj row = parseDate (addMonths start i).

(** Sum of the [extraPayment] fields of a schedule. *)
Definition sumExtra (l : list PaymentRecord) : Q :=
  fold_right (fun r acc => row_extraPayment r + acc) 0 l.

(** A record that charges no negative interest and leaves a balance
    between 0 and the balance it started from. *)
Definition Shrinking (l : LoanData) (before : list PaymentRecord)
    (row : PaymentRecord) : Prop :=
  0 <= row_interest row /\
  0 <= row_balance row <= openingBalance l before.

(** A record of the monthly loop whose extra payment counts the annual
    extra exactly when its month, counted from the start period, is
    [annualExtraMonth]. *)
Definition AnnualRowMonthly (l : LoanData) (o : AccelerationOptions)
    (before : list PaymentRecord) (row : PaymentRecord) : Prop :=
  let i := Z.of_nat (length before) in
  let due :=
    Qgt_bool (annualExtra o) 0
    && ((ym_month (startDate l) - 1 + i) mod 12 =? annualExtraMonth o)%Z in
  row_extraPayment row ==
    extraShareMonthly o
    + (if firstDue (lumpDueMonthly (lumpSumDateObjOf o)) before (row_dateObj row)
       then lumpSum o else 0)
    + (if due then annualExtra o else 0).

(** A record of the bi-weekly loop whose extra payment counts the annual
    extra exactly when it is dated in month [annualExtraMonth], on one of
    the first 14 days of the month. *)
Definition AnnualRowBiweekly (l : LoanData) (o : AccelerationOptions)
    (before : list PaymentRecord) (row : PaymentRecord) : Prop :=
  let d := row_dateObj row in
  let due :=
    Qgt_bool (annualExtra o) 0 && (getMonth d =? annualExtraMonth o)%Z
    && (getDate d <=? 14)%Z in
  row_extraPayment row ==
    extraShareBiweekly o
    + (if firstDue (lumpDueBiweekly (lumpSumDateObjOf o)) before d
       then lumpSum o else 0)
    + (if due then annualExtra o else 0).

(** ** The text of the time saved

    [calculateSavings] also words the time saved.  A number inside a
    template literal is printed in decimal; both numbers are integers. *)

Definition numberText (z : Z) : string := NilZero.string_of_int (Z.to_int z).

(** [`${n} year${n !== 1 ? 's' : ''}`] and the same for months *)
Definition countText (z : Z) (unit : string) : string :=
  (numberText z ++ " " ++ unit ++ (if (z =? 1)%Z then EmptyString else "s"))%string.

Definition timeSavedTextOf (yearsSaved remainingMonths : Z) : string :=
  if (0 <? yearsSaved)%Z then
    let timeSavedText := countText yearsSaved "year" in
    if (0 <? remainingMonths)%Z
    then (timeSavedText ++ ", " ++ countText remainingMonths "month")%string
    else timeSavedText
  else if (0 <? remainingMonths)%Z then countText remainingMonths "month"
  else "No time saved"%string.

(** The [timeSavedText] of the object that [calculateSavings] returns. *)
Definition timeSavedText (originalResult acceleratedResult : ScheduleResult)
    : string :=
  let s := calculateSavings originalResult acceleratedResult in
  timeSavedTextOf (yearsSaved s) (remainingMonths s).

(** ** The live preview (app.js)

    [updateLivePreview] reads the same form fields as [validateStep1] and
    shows a payment, a total interest and a payoff month without building a
    schedule.  The three values are kept as they are computed, before
    [formatCurrency] and [formatDateDisplay] word them; [None] is the
    preview of dashes. *)

Record LivePreview : Type := mkLivePreview {
  previewPayment : Q;
  previewInterest : Q;
  previewPayoff : YearMonth
}.

Definition updateLivePreview (form : LoanForm) : option LivePreview :=
  match data_principal form, data_annualRate form, data_termYears form,
        data_startDate form with
  | Some principal, Some rate, Some term, Some startDate =>
      if Qgt_bool principal 0 && Qgt_bool rate 0 && (0 <? term)%Z then
        let monthlyPayment := calculateMonthlyPayment principal rate term in
        let totalPayments := (term * 12)%Z in
        let totalPaid := monthlyPayment * inject_Z totalPayments in
        let totalInterest := totalPaid - principal in
        let payoffDate := parseDate startDate in
        let payoffDate := setMonth payoffDate (getMonth payoffDate + totalPayments) in
        Some {| previewPayment := monthlyPayment;
                previewInterest := totalInterest;
                previewPayoff := formatDate payoffDate |}
      else None
  | _, _, _, _ => None
  end.

(** ** The table of the schedule (app.js)

    [renderAmortizationTable] shows one page of the schedule and
    [changePage] moves between pages; [state.rowsPerPage] is 12. *)

Definition Math_ceil (x : Q) : Z := Qceiling x.

(** [Array.prototype.slice(start, end)]: a negative index counts from the
    end and both are clamped to the array. *)
Definition slice {A : Type} (l : list A) (start end_ : Z) : list A :=
  let len := Z.of_nat (length l) in
  let k := if (start <? 0)%Z then Z.max (len + start) 0 else Z.min start len in
  let final := if (end_ <? 0)%Z then Z.max (len + end_) 0 else Z.min end_ len in
  firstn (Z.to_nat (final - k)) (skipn (Z.to_nat k) l).

(** [Math.ceil(schedule.length / state.rowsPerPage)] *)
Definition totalPagesOf {A : Type} (schedule : list A) (rowsPerPage : Z) : Z :=
  Math_ceil (inject_Z (Z.of_nat (length schedule)) / inject_Z rowsPerPage).

(** The rows [renderAmortizationTable] puts in the table. *)
Definition pageData {A : Type} (schedule : list A) (currentPage rowsPerPage : Z)
    : list A :=
  let start := ((currentPage - 1) * rowsPerPage)%Z in
  let end_ := (start + rowsPerPage)%Z in
  slice schedule start end_.

(** The [state.currentPage] that [changePage(direction)] sets. *)
Definition changePage {A : Type} (schedule : list A)
    (rowsPerPage currentPage direction : Z) : Z :=
  let totalPages := totalPagesOf schedule rowsPerPage in
  Z.max 1 (Z.min totalPages (currentPage + direction)).

(** ** Sampling a schedule for the charts (charts.js)

    The records of a schedule are distinct objects, and [!==] on two of
    them asks whether they are two objects: a record that [sampleData] keeps
    is known by its position in [schedule], and the array it returns is read
    off the positions at the end.  [maxPoints] is a count. *)

(** [for (let i = 0; i < schedule.length; i += step) sampled.push(schedule[i])] *)
Definition sampleLoop (len step : nat) : nat * list nat :=
  while_loop (fun s : nat * list nat => fst s <? len)
    (fun s => ((fst s + step, snd s ++ [fst s])%nat, false))
    len (0%nat, []).

Definition samplePositions (len maxPoints : nat) : list nat :=
  if len <=? maxPoints then seq 0 len
  else
    let step :=
      Z.to_nat (Math_ceil (inject_Z (Z.of_nat len) / inject_Z (Z.of_nat maxPoints))) in
    let sampled := snd (sampleLoop len step) in
    match nth_error sampled (length sampled - 1) with
    | Some p => if p =? len - 1 then sampled else sampled ++ [(len - 1)%nat]
    | None => sampled ++ [(len - 1)%nat]
    end.

(** The records at the positions [ps]. *)
Definition rowsAt {A : Type} (schedule : list A) (ps : list nat) : list A :=
  flat_map (fun p => match nth_error schedule p with
                     | Some row => [row]
                     | None => []
                     end) ps.

Definition sampleData {A : Type} (schedule : list A) (maxPoints : nat) : list A :=
  rowsAt schedule (samplePositions (length schedule) maxPoints).

(** Positions that grow strictly along the list. *)
Definition Increasing (ps : list nat) : Prop :=
  forall a b pa pb, (a < b)%nat ->
    nth_error ps a = Some pa -> nth_error ps b = Some pb -> (pa < pb)%nat.

(** ** The share link (storage.js)

    [generateShareUrl] writes the loan into the parameters of a URL and
    [parseShareUrl] reads them back.  The text of a parameter is kept as the
    value it spells: a whole number written by [String] is the number that
    [parseInt] reads, the two decimals that [toFixed(2)] writes are the
    number of hundredths that [parseFloat] reads, and a "YYYY-MM" text is
    its period.  A parameter that is not set is [None]; [bw] is only ever
    set to "1". *)

Record ShareParams : Type := mkShareParams {
  param_p : option Z;
  param_r : option Z;
  param_t : option Z;
  param_s : option YearMonth;
  param_em : option Z;
  param_bw : bool;
  param_ls : option Z;
  param_lsd : option YearMonth;
  param_ae : option Z;
  param_aem : option Z
}.

(** The hundredths that [x.toFixed(2)] writes: the nearest, the larger one
    of two that are as near; the sign is put in front of the digits of the
    absolute value. *)
Definition toFixed2 (x : Q) : Z :=
  if Qgt_bool 0 x then (- Math_round (- x * 100))%Z else Math_round (x * 100).

Definition generateShareUrl (loanData : LoanData)
    (accelerationOptions : AccelerationOptions) : ShareParams :=
  let lumpOn := Qgt_bool (lumpSum accelerationOptions) 0 in
  let annualOn := Qgt_bool (annualExtra accelerationOptions) 0 in
  {| param_p := Some (Math_round (principal loanData / 1000));
     param_r := Some (toFixed2 (annualRate loanData));
     param_t := Some (termYears loanData);
     param_s := Some (startDate loanData);
     param_em :=
       if Qgt_bool (extraMonthly accelerationOptions) 0
       then Some (Math_round (extraMonthly accelerationOptions)) else None;
     param_bw := biweekly accelerationOptions;
     param_ls :=
       if lumpOn then Some (Math_round (lumpSum accelerationOptions / 1000))
       else None;
     param_lsd := if lumpOn then lumpSumDate accelerationOptions else None;
     param_ae :=
       if annualOn then Some (Math_round (annualExtra accelerationOptions / 1000))
       else None;
     param_aem :=
       if annualOn then Some (annualExtraMonth accelerationOptions) else None |}.

(** [parseInt(text) || d]: [d] for a missing parameter and for 0. *)
Definition parseInt_or (x : option Z) (d : Z) : Z :=
  match x with
  | Some v => if (v =? 0)%Z then d else v
  | None => d
  end.

Record SharedData : Type := mkSharedData {
  shared_loanData : LoanForm;
  shared_accelerationOptions : AccelerationOptions
}.

Definition parseShareUrl (params : ShareParams) : option SharedData :=
  match param_p params with
  | None => None
  | Some p =>
      Some
        {| shared_loanData :=
             {| data_principal := Some (inject_Z p * 1000);
                data_annualRate :=
                  option_map (fun h => inject_Z h / 100) (param_r params);
                data_termYears := param_t params;
                data_startDate := param_s params |};
           shared_accelerationOptions :=
             {| extraMonthly := inject_Z (parseInt_or (param_em params) 0);
                biweekly := param_bw params;
                lumpSum := inject_Z (parseInt_or (param_ls params) 0) * 1000;
                lumpSumDate := param_lsd params;
                annualExtra := inject_Z (parseInt_or (param_ae params) 0) * 1000;
                annualExtraMonth := parseInt_or (param_aem params) 11 |} |}
  end.

(** A loan and options that a share link can spell: whole thousands for the
    principal, the lump sum and the annual extra, whole dollars for the
    extra monthly amount, two decimals for the rate, no negative amount, no
    lump-sum date without a lump sum. *)
Definition Shareable (l : LoanData) (o : AccelerationOptions) : Prop :=
  (exists p, principal l == inject_Z p * 1000) /\
  (exists h, (0 <= h)%Z /\ annualRate l == inject_Z h / 100) /\
  (exists e, (0 <= e)%Z /\ extraMonthly o == inject_Z e) /\
  (exists s, (0 <= s)%Z /\ lumpSum o == inject_Z s * 1000) /\
  (lumpSum o == 0 -> lumpSumDate o = None) /\
  (exists a, (0 <= a)%Z /\ annualExtra o == inject_Z a * 1000).

(** * Properties *)

(** Splits the conjunctions of the goal, and nothing else. *)
Ltac splits := repeat match goal with |- _ /\ _ => split end.

(** ** Comparisons *)

Lemma Qgt_bool_spec (a b : Q) : BoolSpec (b < a) (a <= b) (Qgt_bool a b).
Proof.
  unfold Qgt_bool. destruct (Qle_bool a b) eqn:E; simpl; constructor.
  - now apply Qle_bool_iff.
  - apply Qnot_le_lt. intro H. apply Qle_bool_iff in H. congruence.
Qed.

Lemma Qle_bool_spec (a b : Q) : BoolSpec (a <= b) (b < a) (Qle_bool a b).
Proof.
  destruct (Qle_bool a b) eqn:E; constructor.
  - now apply Qle_bool_iff.
  - apply Qnot_le_lt. intro H. apply Qle_bool_iff in H. congruence.
Qed.

Lemma Qeq_bool_spec (a b : Q) : BoolSpec (a == b) (~ a == b) (Qeq_bool a b).
Proof.
  destruct (Qeq_bool a b) eqn:E; constructor.
  - now apply Qeq_bool_iff.
  - intro H. apply Qeq_bool_iff in H. congruence.
Qed.

Lemma Math_max0_spec (x : Q) :
  (x <= 0 /\ Math_max0 x = 0) \/ (0 < x /\ Math_max0 x = x).
Proof.
  unfold Math_max0. destruct (Qle_bool_spec x 0); [left | right]; auto.
Qed.

Lemma Math_max0_nonneg (x : Q) : 0 <= Math_max0 x.
Proof. destruct (Math_max0_spec x) as [[_ ->] | [H ->]]; lra. Qed.

Lemma epsilon_pos : 0 < epsilon.
Proof. reflexivity. Qed.

(** ** Lists built by [push] *)

Lemma lastRow_push (l : list PaymentRecord) (r : PaymentRecord) :
  lastRow (l ++ [r]) = Some r.
Proof.
  unfold lastRow. rewrite length_app. simpl.
  replace (length l + 1 - 1)%nat with (length l) by lia.
  rewrite nth_error_app2 by lia. now rewrite Nat.sub_diag.
Qed.

Lemma lastRow_None (l : list PaymentRecord) : lastRow l = None -> l = [].
Proof.
  destruct l as [| a l] using rev_ind; auto.
  rewrite lastRow_push. discriminate.
Qed.

(** ** Loops: invariants and the fuel *)

Section WhileFacts.
Context {S : Type}.
Variable cond : S -> bool.
Variable body : S -> S * bool.

Lemma while_loop_invariant (P : S -> Prop) :
  (forall s, P s -> cond s = true -> P (fst (body s))) ->
  forall fuel s, P s -> P (while_loop cond body fuel s).
Proof.
  intros step. induction fuel as [| fuel IH]; intros s Hs; simpl; auto.
  destruct (cond s) eqn:Hc; auto.
  specialize (step s Hs Hc). destruct (body s) as [s' brk]. simpl in step.
  destruct brk; auto.
Qed.

(** With a measure that every iteration decreases, a fuel at least the
    measure is never exhausted: the result is the state on which the
    loop of the source stops. *)
Lemma while_loop_runs (m : S -> nat) :
  (forall s, cond s = true -> (m (fst (body s)) < m s)%nat) ->
  forall fuel s, (m s <= fuel)%nat ->
    WhileRun cond body s (while_loop cond body fuel s).
Proof.
  intros dec. induction fuel as [| fuel IH]; intros s Hm; simpl.
  - destruct (cond s) eqn:Hc.
    + specialize (dec s Hc). lia.
    + now constructor.
  - destruct (cond s) eqn:Hc.
    + specialize (dec s Hc). destruct (body s) as [s' brk] eqn:Hb. simpl in dec.
      destruct brk.
      * now apply WhileRun_break.
      * apply WhileRun_next with s'; auto. apply IH. lia.
    + now constructor.
Qed.

Lemma WhileRun_deterministic (s s1 s2 : S) :
  WhileRun cond body s s1 -> WhileRun cond body s s2 -> s1 = s2.
Proof.
  intros H1. revert s2. induction H1; intros s2 H2; inversion H2; subst;
    try congruence.
  apply IHWhileRun. congruence.
Qed.

(** Where the loop stops: on a false condition, or through [break]. *)
Lemma WhileRun_stop (s s' : S) :
  WhileRun cond body s s' ->
  cond s' = false \/ exists s0, cond s0 = true /\ body s0 = (s', true).
Proof.
  induction 1; auto. right. now exists s.
Qed.
End WhileFacts.

(** ** The periodic payment *)

Lemma calculateMonthlyPayment_zero_rate (P R : Q) (T : Z) :
  R == 0 -> calculateMonthlyPayment P R T = P / inject_Z (T * 12).
Proof.
  intros H. unfold calculateMonthlyPayment.
  destruct (Qeq_bool_spec R 0); [reflexivity | contradiction].
Qed.

Lemma calculateMonthlyPayment_annuity (P R : Q) (T : Z) :
  ~ R == 0 ->
  calculateMonthlyPayment P R T ==
    P * (R / 100 / 12) * (1 + R / 100 / 12) ^ (T * 12)
      / ((1 + R / 100 / 12) ^ (T * 12) - 1).
Proof.
  intros H. unfold calculateMonthlyPayment, Math_pow.
  destruct (Qeq_bool_spec R 0); [contradiction |].
  cbv zeta. unfold Qdiv. ring.
Qed.



(** ** The standard schedule amortizes *)

Lemma sumPrincipal_push (l : list PaymentRecord) (x : PaymentRecord) :
  sumPrincipal (l ++ [x]) == sumPrincipal l + row_principal x.
Proof.
  induction l as [| a l IH]; simpl.
  - ring.
  - fold (sumPrincipal (l ++ [x])). fold (sumPrincipal l). rewrite IH. ring.
Qed.

Lemma Qpower_succ (a : Q) (k : nat) :
  ~ a == 0 -> a ^ Z.of_nat (Datatypes.S k) == a ^ Z.of_nat k * a.
Proof.
  intros Ha. rewrite Nat2Z.inj_succ, <- Z.add_1_r.
  rewrite Qpower_plus by assumption. reflexivity.
Qed.

Lemma monthlyRate_scale (R : Q) : R / 100 / 12 == R * (1 # 1200).
Proof. field. Qed.

Section Amortization.
Variables (P R : Q) (T : Z).
Hypothesis HP : 0 < P.
Hypothesis HR : 0 <= R.
Hypothesis HT : (0 < T)%Z.

Let pay := calculateMonthlyPayment P R T.
Let r := R / 100 / 12.
Let n := (T * 12)%Z.

Lemma monthlyRate_nonneg : 0 <= r.
Proof. unfold r. rewrite monthlyRate_scale. lra. Qed.

Lemma unrolledBalance_closed (k : nat) :
  r * unrolledBalance P pay r k ==
    P * r * (1 + r) ^ Z.of_nat k - pay * ((1 + r) ^ Z.of_nat k - 1).
Proof.
  pose proof monthlyRate_nonneg as Hr.
  induction k as [| k IH].
  - simpl. ring.
  - rewrite Qpower_succ by lra.
    cbn [unrolledBalance].
    transitivity (r * unrolledBalance P pay r k * (1 + r) - r * pay); [ring |].
    rewrite IH. ring.
Qed.

Lemma unrolledBalance_zero_rate (k : nat) :
  R == 0 -> unrolledBalance P pay r k == P - inject_Z (Z.of_nat k) * pay.
Proof.
  intros H0. assert (Hr : r == 0) by (unfold r; rewrite H0; reflexivity).
  induction k as [| k IH].
  - simpl. ring.
  - cbn [unrolledBalance]. rewrite IH, Hr, Nat2Z.inj_succ.
    unfold Z.succ. rewrite inject_Z_plus. ring.
Qed.

(** The annuity payment clears the loan in exactly [termYears * 12]
    payments. *)
Lemma unrolledBalance_end : unrolledBalance P pay r (Z.to_nat n) == 0.
Proof.
  assert (Hn : (0 < n)%Z) by (unfold n; lia).
  destruct (Qeq_bool_spec R 0) as [H0 | H0].
  - rewrite unrolledBalance_zero_rate by assumption.
    rewrite Z2Nat.id by lia.
    unfold pay. rewrite calculateMonthlyPayment_zero_rate by assumption.
    fold n. field. intro H. 
    assert (inject_Z 0 < inject_Z n) by (rewrite <- Zlt_Qlt; lia).
    change (inject_Z 0) with 0 in *. lra.
  - assert (Hr : 0 < r) by (unfold r; rewrite monthlyRate_scale; lra).
    pose proof (unrolledBalance_closed (Z.to_nat n)) as Hc.
    rewrite Z2Nat.id in Hc by lia.
    assert (Hx : 1 < (1 + r) ^ n) by (apply Qpower_1_lt; [lra | lia]).
    assert (Hpay : pay * ((1 + r) ^ n - 1) == P * r * (1 + r) ^ n).
    { unfold pay. rewrite calculateMonthlyPayment_annuity by assumption.
      fold r. fold n. field. lra. }
    rewrite Hpay in Hc.
    assert (Hz : r * unrolledBalance P pay r (Z.to_nat n) == 0)
      by (rewrite Hc; ring).
    apply Qmult_integral in Hz. destruct Hz; [lra | assumption].
Qed.
End Amortization.

Section OriginalLoop.
Variable l : LoanData.
Hypothesis Hvalid : validLoan l.

Let pay := calculateMonthlyPayment (principal l) (annualRate l) (termYears l).
Let r := annualRate l / 100 / 12.
Let n := (termYears l * 12)%Z.
Let start := parseDate (startDate l).

Lemma OriginalInv_init : OriginalInv l (originalInit l).
Proof.
  destruct Hvalid as (HP & HR & HT).
  unfold OriginalInv, originalInit; simpl. splits; auto; try lia; try lra.
  discriminate.
Qed.

Lemma OriginalInv_step (s : OriginalVars) :
  OriginalInv l s -> originalCond (termYears l) s = true ->
  OriginalInv l (originalBody pay r start s).
Proof.
  destruct Hvalid as (HP & HR & HT).
  pose proof (monthlyRate_nonneg (annualRate l) HR) as Hr. fold r in Hr.
  intros (Hpn & Hlen & Hb0 & Hub & Hsum & Hlast & Hzero) Hc.
  fold pay r in Hub. fold n in Hpn.
  unfold originalCond in Hc. apply andb_true_iff in Hc. destruct Hc as [Hgt Hlt].
  destruct (Qgt_bool_spec (o_balance s) epsilon) as [Hgt' |]; [| discriminate].
  apply Z.ltb_lt in Hlt. fold n in Hlt.
  specialize (Hub Hgt').
  unfold OriginalInv, originalBody; cbn [o_paymentNumber o_schedule o_balance].
  fold pay r n.
  replace (Z.to_nat (o_paymentNumber s + 1))
    with (Datatypes.S (Z.to_nat (o_paymentNumber s))) by lia.
  cbn [unrolledBalance].
  set (u := unrolledBalance (principal l) pay r (Z.to_nat (o_paymentNumber s))) in *.
  set (b := o_balance s) in *.
  rewrite length_app; simpl length.
  rewrite sumPrincipal_push; cbn [row_principal].
  pose proof epsilon_pos as Heps.
  destruct (Qgt_bool_spec (pay - b * r) b) as [Hcap | Hcap].
  - splits; try lia; try lra.
    + intros row Hrow. rewrite lastRow_push in Hrow. now inversion Hrow.
  - splits; try lia; try lra.
    + intros _. nra.
    + intros row Hrow. rewrite lastRow_push in Hrow. now inversion Hrow.
Qed.

Lemma originalLoop_run :
  WhileRun (originalCond (termYears l))
    (fun s => (originalBody pay r start s, false))
    (originalInit l) (originalLoop l).
Proof.
  unfold originalLoop. fold pay r start.
  apply while_loop_runs
    with (m := fun s => Z.to_nat (termYears l * 12 - o_paymentNumber s)).
  - intros s Hc. unfold originalCond in Hc. apply andb_true_iff in Hc.
    destruct Hc as [_ Hlt]. apply Z.ltb_lt in Hlt. simpl. lia.
  - simpl. lia.
Qed.

Lemma originalLoop_inv : OriginalInv l (originalLoop l).
Proof.
  unfold originalLoop. fold pay r start.
  apply (while_loop_invariant _ _ (OriginalInv l)).
  - intros s Hs Hc. simpl. now apply OriginalInv_step.
  - apply OriginalInv_init.
Qed.

(** Once [termYears * 12] payments are made nothing is left to pay. *)
Lemma OriginalInv_at_term (s : OriginalVars) :
  OriginalInv l s -> (n <= o_paymentNumber s)%Z -> o_balance s <= epsilon.
Proof.
  destruct Hvalid as (HP & HR & HT).
  intros (Hpn & _ & _ & Hub & _) Hge.
  fold pay r in Hub. fold n in Hpn.
  destruct (Qlt_le_dec epsilon (o_balance s)) as [Hgt | ]; [| assumption].
  specialize (Hub Hgt).
  replace (o_paymentNumber s) with n in Hub by lia.
  pose proof (unrolledBalance_end (principal l) (annualRate l) (termYears l)
                HR HT) as Hend.
  fold pay r n in Hend. rewrite Hend in Hub.
  pose proof epsilon_pos. lra.
Qed.

(** The loop stops with the loan paid off. *)
Lemma originalLoop_paid : 0 <= o_balance (originalLoop l) <= epsilon.
Proof.
  pose proof originalLoop_inv as Hinv.
  split; [apply Hinv |].
  destruct (WhileRun_stop _ _ _ _ originalLoop_run) as [Hc | (s0 & _ & Hbrk)];
    [| discriminate].
  unfold originalCond in Hc. apply andb_false_iff in Hc.
  destruct (Qgt_bool_spec (o_balance (originalLoop l)) epsilon) as [Hgt | Hle];
    [| assumption].
  destruct Hc as [Hc | Hc]; [discriminate |].
  apply Z.ltb_ge in Hc. now apply OriginalInv_at_term.
Qed.
End OriginalLoop.



(** ** The loops of the accelerated schedule *)

Section AcceleratedLoop.
Variable l : LoanData.
Variable o : AccelerationOptions.

Let base := calculateMonthlyPayment (principal l) (annualRate l) (termYears l).
Let r := annualRate l / 100 / 12.
Let start := parseDate (startDate l).
Let lsd := lumpSumDateObjOf o.

Lemma monthlyBody_shape (s : AccelVars) :
  let s' := fst (monthlyBody base r start o lsd s) in
  a_paymentNumber s' = (a_paymentNumber s + 1)%Z /\
  (exists row, a_schedule s' = a_schedule s ++ [row] /\
               row_balance row = Math_max0 (a_balance s')) /\
  snd (monthlyBody base r start o lsd s) = Qle_bool (a_balance s') epsilon.
Proof.
  unfold monthlyBody; cbv zeta; cbn [fst snd a_paymentNumber a_schedule a_balance].
  splits; auto. eexists; split; reflexivity.
Qed.

Lemma biweeklyBody_shape (s : AccelVars) :
  let s' := fst (biweeklyBody base (annualRate l) start o lsd s) in
  a_paymentNumber s' = (a_paymentNumber s + 1)%Z /\
  (exists row, a_schedule s' = a_schedule s ++ [row] /\
               row_balance row = Math_max0 (a_balance s')) /\
  snd (biweeklyBody base (annualRate l) start o lsd s)
    = Qle_bool (a_balance s') epsilon.
Proof.
  unfold biweeklyBody; cbv zeta; cbn [fst snd a_paymentNumber a_schedule a_balance].
  splits; auto. eexists; split; reflexivity.
Qed.

Lemma AccelInv_init : AccelInv l o (accelInit l).
Proof.
  unfold AccelInv, accelInit; simpl. splits; try lia. discriminate.
Qed.

Lemma AccelInv_monthly (s : AccelVars) :
  biweekly o = false ->
  AccelInv l o s -> monthlyCond (maxPaymentsOf l) s = true ->
  AccelInv l o (fst (monthlyBody base r start o lsd s)).
Proof.
  intros Hbw (Hpn & Hlen & Hlast) Hc.
  unfold monthlyCond in Hc. apply andb_true_iff in Hc. destruct Hc as [_ Hlt].
  apply Z.ltb_lt in Hlt.
  destruct (monthlyBody_shape s) as (Hp & (row & Hs & Hrow) & _).
  unfold AccelInv, accelCeiling in *. rewrite Hbw in *. rewrite Hp, Hs.
  rewrite length_app; simpl length. splits; try lia.
  intros row' H. rewrite lastRow_push in H. inversion H; subst. exact Hrow.
Qed.

Lemma AccelInv_biweekly (s : AccelVars) :
  biweekly o = true ->
  AccelInv l o s -> biweeklyCond (maxPaymentsOf l) s = true ->
  AccelInv l o (fst (biweeklyBody base (annualRate l) start o lsd s)).
Proof.
  intros Hbw (Hpn & Hlen & Hlast) Hc.
  unfold biweeklyCond in Hc. apply andb_true_iff in Hc. destruct Hc as [_ Hlt].
  apply Z.ltb_lt in Hlt.
  destruct (biweeklyBody_shape s) as (Hp & (row & Hs & Hrow) & _).
  unfold AccelInv, accelCeiling in *. rewrite Hbw in *. rewrite Hp, Hs.
  rewrite length_app; simpl length. splits; try lia.
  intros row' H. rewrite lastRow_push in H. inversion H; subst. exact Hrow.
Qed.

Lemma acceleratedLoop_inv : AccelInv l o (acceleratedLoop l o).
Proof.
  unfold acceleratedLoop. fold base r start lsd.
  destruct (biweekly o) eqn:Hbw.
  - apply (while_loop_invariant _ _ (AccelInv l o)); [| apply AccelInv_init].
    intros s Hs Hc. now apply AccelInv_biweekly.
  - apply (while_loop_invariant _ _ (AccelInv l o)); [| apply AccelInv_init].
    intros s Hs Hc. now apply AccelInv_monthly.
Qed.

Lemma acceleratedLoop_monthly_run :
  biweekly o = false ->
  WhileRun (monthlyCond (maxPaymentsOf l)) (monthlyBody base r start o lsd)
    (accelInit l) (acceleratedLoop l o).
Proof.
  intros Hbw. unfold acceleratedLoop. rewrite Hbw. fold base r start lsd.
  apply while_loop_runs
    with (m := fun s => Z.to_nat (maxPaymentsOf l - a_paymentNumber s)).
  - intros s Hc. unfold monthlyCond in Hc. apply andb_true_iff in Hc.
    destruct Hc as [_ Hlt]. apply Z.ltb_lt in Hlt.
    destruct (monthlyBody_shape s) as (Hp & _). rewrite Hp. lia.
  - simpl. lia.
Qed.

Lemma acceleratedLoop_biweekly_run :
  biweekly o = true ->
  WhileRun (biweeklyCond (maxPaymentsOf l))
    (biweeklyBody base (annualRate l) start o lsd)
    (accelInit l) (acceleratedLoop l o).
Proof.
  intros Hbw. unfold acceleratedLoop. rewrite Hbw. fold base r start lsd.
  apply while_loop_runs
    with (m := fun s => Z.to_nat (maxPaymentsOf l * 2 - a_paymentNumber s)).
  - intros s Hc. unfold biweeklyCond in Hc. apply andb_true_iff in Hc.
    destruct Hc as [_ Hlt]. apply Z.ltb_lt in Hlt.
    destruct (biweeklyBody_shape s) as (Hp & _). rewrite Hp. lia.
  - simpl. lia.
Qed.
End AcceleratedLoop.

(** ** Termination and the iteration ceilings *)

Lemma generateOriginalSchedule_counts (l : LoanData) :
  let f := originalLoop l in
  (0 <= o_paymentNumber f <= Z.max 0 (termYears l * 12))%Z /\
  Z.of_nat (length (o_schedule f)) = o_paymentNumber f /\
  (forall row, lastRow (o_schedule f) = Some row ->
     row_balance row = Math_max0 (o_balance f)).
Proof.
  unfold originalLoop.
  apply while_loop_invariant with
    (P := fun s =>
       (0 <= o_paymentNumber s <= Z.max 0 (termYears l * 12))%Z /\
       Z.of_nat (length (o_schedule s)) = o_paymentNumber s /\
       (forall row, lastRow (o_schedule s) = Some row ->
          row_balance row = Math_max0 (o_balance s))).
  - intros s (Hpn & Hlen & _) Hc.
    unfold originalCond in Hc. apply andb_true_iff in Hc. destruct Hc as [_ Hlt].
    apply Z.ltb_lt in Hlt.
    unfold originalBody; cbv zeta; cbn [fst o_paymentNumber o_schedule o_balance].
    rewrite length_app; simpl length. splits; try lia.
    intros row H. rewrite lastRow_push in H. now inversion H.
  - unfold originalInit; simpl. splits; try lia. discriminate.
Qed.

(** C10. [generateAcceleratedSchedule] terminates on every loan and every
    options value: the loop of the chosen mode runs to a final state, from
    which the result is read, and the schedule holds at most
    [termYears * 12 * 2] records in monthly mode and at most
    [termYears * 12 * 4] records in bi-weekly mode, where the standard
    schedule holds at most [termYears * 12]. *)
Theorem generateAcceleratedSchedule_terminates
    (l : LoanData) (o : AccelerationOptions) :
  let base := calculateMonthlyPayment (principal l) (annualRate l) (termYears l) in
  let start := parseDate (startDate l) in
  let res := generateAcceleratedSchedule l o in
  (if biweekly o
   then WhileRun (biweeklyCond (maxPaymentsOf l))
          (biweeklyBody base (annualRate l) start o (lumpSumDateObjOf o))
          (accelInit l) (acceleratedLoop l o)
   else WhileRun (monthlyCond (maxPaymentsOf l))
          (monthlyBody base (annualRate l / 100 / 12) start o (lumpSumDateObjOf o))
          (accelInit l) (acceleratedLoop l o)) /\
  schedule res = a_schedule (acceleratedLoop l o) /\
  totalPayments res = Z.of_nat (length (schedule res)) /\
  (Z.of_nat (length (schedule res)) <=
     Z.max 0 (if biweekly o then termYears l * 12 * 4 else termYears l * 12 * 2))%Z /\
  (Z.of_nat (length (schedule (generateOriginalSchedule l))) <=
     Z.max 0 (termYears l * 12))%Z.
Proof.
  intros base start res.
  destruct (acceleratedLoop_inv l o) as (Hpn & Hlen & _).
  destruct (generateOriginalSchedule_counts l) as (Hpn0 & Hlen0 & _).
  subst res. cbn [generateAcceleratedSchedule generateOriginalSchedule schedule totalPayments].
  splits; [| | | | lia].
  - destruct (biweekly o) eqn:Hbw.
    + now apply acceleratedLoop_biweekly_run.
    + now apply acceleratedLoop_monthly_run.
  - reflexivity.
  - now rewrite Hlen.
  - rewrite Hlen. unfold accelCeiling, maxPaymentsOf in Hpn.
    destruct (biweekly o); lia.
Qed.

(** ** Reaching the ceiling *)

(** On a loan of the data model the standard loop never stops at its
    ceiling with a balance left. *)
Lemma validLoan_not_exhausted (l : LoanData) :
  validLoan l -> originalExhausted l = false.
Proof.
  intros Hv. unfold originalExhausted.
  destruct (originalLoop_paid l Hv) as [_ Hle].
  destruct (Qgt_bool_spec (o_balance (originalLoop l)) epsilon); [lra | reflexivity].
Qed.




(** ** No active strategy: the accelerated schedule is the standard one *)

Lemma Math_max0_compat (x y : Q) : x == y -> Math_max0 x == Math_max0 y.
Proof.
  intros H.
  destruct (Math_max0_spec x) as [[Hx ->] | [Hx ->]];
    destruct (Math_max0_spec y) as [[Hy ->] | [Hy ->]]; lra.
Qed.

Lemma while_loop_stopped {S : Type} (cond : S -> bool) (body : S -> S * bool)
    (fuel : nat) (s : S) :
  cond s = false -> while_loop cond body fuel s = s.
Proof. intros H. destruct fuel; simpl; [| rewrite H]; reflexivity. Qed.

Lemma Forall2_lastRow (R : PaymentRecord -> PaymentRecord -> Prop)
    (l1 l2 : list PaymentRecord) :
  Forall2 R l1 l2 ->
  match lastRow l1, lastRow l2 with
  | Some a, Some b => R a b
  | None, None => True
  | _, _ => False
  end.
Proof.
  intros H. unfold lastRow. rewrite <- (Forall2_length H).
  generalize (length l1 - 1)%nat as i.
  induction H as [| a b l1 l2 Hab H IH]; intros i.
  - destruct i; exact I.
  - destruct i; simpl; [exact Hab | apply IH].
Qed.

Lemma payoffOf_equiv (l1 l2 : list PaymentRecord) (start : JSDate) :
  Forall2 rowEquiv l1 l2 -> payoffOf l1 start = payoffOf l2 start.
Proof.
  intros H. apply Forall2_lastRow in H. unfold payoffOf.
  destruct (lastRow l1), (lastRow l2); try tauto.
  apply H.
Qed.

Section Inactive.
Variable l : LoanData.
Variable o : AccelerationOptions.
Hypothesis Hvalid : validLoan l.
Hypothesis Hoff : inactiveOptions o.

Let pay := calculateMonthlyPayment (principal l) (annualRate l) (termYears l).
Let r := annualRate l / 100 / 12.
Let n := (termYears l * 12)%Z.
Let start := parseDate (startDate l).

Lemma lumpSumDateObjOf_inactive : lumpSumDateObjOf o = None.
Proof.
  destruct Hoff as (_ & _ & Hl & _). unfold lumpSumDateObjOf.
  destruct (Qgt_bool_spec (lumpSum o) 0); [lra | reflexivity].
Qed.

Lemma Matching_step (s1 : OriginalVars) (s2 : AccelVars) :
  Matching s1 s2 ->
  let s2' := fst (monthlyBody pay r start o None s2) in
  Matching (originalBody pay r start s1) s2' /\
  snd (monthlyBody pay r start o None s2) = Qle_bool (a_balance s2') epsilon.
Proof.
  destruct Hoff as (He & _ & _ & Ha).
  intros (Hb & Hci & Hpn & Hrows).
  unfold monthlyBody, originalBody, Matching; cbv zeta.
  rewrite andb_false_r.
  destruct (Qgt_bool_spec (extraMonthly o) 0) as [? | _]; [lra |].
  destruct (Qgt_bool_spec (annualExtra o) 0) as [? | _]; [lra |].
  cbn [andb fst snd o_balance o_cumulativeInterest o_paymentNumber o_schedule
       a_balance a_cumulativeInterest a_paymentNumber a_schedule].
  rewrite <- Hpn.
  set (b1 := o_balance s1) in *. set (b2 := a_balance s2) in *.
  split; [| reflexivity].
  assert (Hrow : forall x y, x == y -> Math_max0 x == Math_max0 y)
    by apply Math_max0_compat.
  destruct (Qgt_bool_spec (pay - b1 * r) b1) as [H1 | H1];
    destruct (Qgt_bool_spec (pay - b2 * r + 0) b2) as [H2 | H2];
    try (exfalso; nra);
    destruct (Qgt_bool_spec (pay - 0) (b2 + b2 * r)) as [H3 | H3];
    try (exfalso; nra);
    (splits; [nra | nra | reflexivity |
      apply Forall2_app; [exact Hrows |];
      constructor; [| constructor];
      unfold rowEquiv; cbn [row_paymentNumber row_date row_dateObj row_payment
        row_principal row_interest row_extraPayment row_balance
        row_cumulativeInterest];
      splits; try reflexivity; try (apply Hrow); nra]).
Qed.

Lemma Matching_loops (f1 f2 : nat) (s1 : OriginalVars) (s2 : AccelVars) :
  OriginalInv l s1 -> Matching s1 s2 ->
  (Z.to_nat (n - o_paymentNumber s1) <= f1)%nat ->
  (Z.to_nat (n - o_paymentNumber s1) <= f2)%nat ->
  Matching
    (while_loop (originalCond (termYears l))
       (fun s => (originalBody pay r start s, false)) f1 s1)
    (while_loop (monthlyCond (maxPaymentsOf l))
       (monthlyBody pay r start o None) f2 s2).
Proof.
  destruct Hvalid as (HP & HR & HT).
  pose proof epsilon_pos as Heps.
  revert f2 s1 s2. induction f1 as [| f1 IH]; intros f2 s1 s2 Hinv Hm Hf1 Hf2.
  - (* the standard loop has no payment left to make *)
    assert (Hpn : (n <= o_paymentNumber s1)%Z) by lia.
    pose proof (OriginalInv_at_term l Hvalid s1 Hinv Hpn) as Hle.
    simpl. rewrite while_loop_stopped; [assumption |].
    unfold monthlyCond. destruct Hm as (Hb & _).
    destruct (Qgt_bool_spec (a_balance s2) epsilon); [lra | reflexivity].
  - destruct (originalCond (termYears l) s1) eqn:Hc.
    + pose proof Hc as Hc'. unfold originalCond in Hc'.
      apply andb_true_iff in Hc'. destruct Hc' as [Hgt Hlt].
      destruct (Qgt_bool_spec (o_balance s1) epsilon) as [Hgt' |]; [| discriminate].
      apply Z.ltb_lt in Hlt. fold n in Hlt.
      destruct f2 as [| f2]; [lia |].
      cbn [while_loop]. rewrite Hc.
      assert (Hc2 : monthlyCond (maxPaymentsOf l) s2 = true).
      { unfold monthlyCond, maxPaymentsOf. destruct Hm as (Hb & _ & Hpn & _).
        apply andb_true_iff. split.
        - destruct (Qgt_bool_spec (a_balance s2) epsilon); [reflexivity | lra].
        - apply Z.ltb_lt. fold n. lia. }
      rewrite Hc2.
      destruct (Matching_step s1 s2 Hm) as [Hm' Hbrk].
      pose proof (OriginalInv_step l Hvalid s1 Hinv Hc) as Hinv'.
      fold pay r start in Hinv'.
      destruct (monthlyBody pay r start o None s2) as [s2' brk].
      cbn [fst snd] in Hm', Hbrk. subst brk.
      destruct (Qle_bool_spec (a_balance s2') epsilon) as [Hdone | Hmore].
      * rewrite while_loop_stopped; [assumption |].
        unfold originalCond. destruct Hm' as (Hb & _).
        destruct (Qgt_bool_spec (o_balance (originalBody pay r start s1)) epsilon);
          [lra | reflexivity].
      * apply IH; auto; cbn [originalBody o_paymentNumber]; lia.
    + rewrite while_loop_stopped by assumption.
      rewrite while_loop_stopped; [assumption |].
      unfold originalCond in Hc. apply andb_false_iff in Hc.
      destruct Hm as (Hb & _ & Hpn & _).
      unfold monthlyCond.
      destruct (Qgt_bool_spec (a_balance s2) epsilon) as [Hgt | ];
        [| reflexivity].
      exfalso.
      destruct (Qgt_bool_spec (o_balance s1) epsilon) as [Hgt1 | ]; [| lra].
      destruct Hc as [Hc | Hc]; [discriminate |].
      apply Z.ltb_ge in Hc.
      pose proof (OriginalInv_at_term l Hvalid s1 Hinv Hc). lra.
Qed.
End Inactive.


(** ** One iteration of each accelerated loop *)

Ltac case_if :=
  repeat match goal with
         | |- context [if ?c then _ else _] => destruct c
         end.

Section Iteration.
Variables (base rate : Q) (start : JSDate).
Variable o : AccelerationOptions.
Variable lsd : option JSDate.

(** The monthly iteration, field by field. *)
Lemma monthlyBody_spec (s : AccelVars) :
  let s' := fst (monthlyBody base rate start o lsd s) in
  let d := monthlyPaymentDate start (a_paymentNumber s + 1) in
  let lumpNow := negb (a_lumpSumApplied s) && lumpDueMonthly lsd d in
  let b := a_balance s in
  exists row,
    a_schedule s' = a_schedule s ++ [row] /\
    row_paymentNumber row = (a_paymentNumber s + 1)%Z /\
    row_dateObj row = d /\
    row_date row = formatDate d /\
    row_interest row = b * rate /\
    row_extraPayment row ==
      extraShareMonthly o + (if lumpNow then lumpSum o else 0)
        + (if annualDueMonthly o d then annualExtra o else 0) /\
    row_principal row =
      cappedPrincipal (base - b * rate + row_extraPayment row) b
        - row_extraPayment row /\
    row_payment row =
      (if Qgt_bool (base - row_extraPayment row) (b + b * rate)
       then b + b * rate else base) /\
    row_balance row = Math_max0 (a_balance s') /\
    row_cumulativeInterest row = a_cumulativeInterest s' /\
    a_balance s' =
      b - cappedPrincipal (base - b * rate + row_extraPayment row) b /\
    a_cumulativeInterest s' = a_cumulativeInterest s + b * rate /\
    a_paymentNumber s' = (a_paymentNumber s + 1)%Z /\
    a_lumpSumApplied s' = a_lumpSumApplied s || lumpNow /\
    a_dayCounter s' = a_dayCounter s /\
    snd (monthlyBody base rate start o lsd s) = Qle_bool (a_balance s') epsilon.
Proof.
  unfold monthlyBody; cbv zeta.
  cbn [fst snd a_schedule a_balance a_cumulativeInterest a_paymentNumber
       a_lumpSumApplied a_dayCounter].
  eexists. split; [reflexivity |].
  cbn [row_paymentNumber row_date row_dateObj row_payment row_principal
       row_interest row_extraPayment row_balance row_cumulativeInterest].
  unfold monthlyPaymentDate.
  set (d := setMonth start (getMonth start + (a_paymentNumber s + 1) - 1)).
  assert (Hdue :
    match lsd with
    | Some l => (getFullYear l * 12 + getMonth l <=? getFullYear d * 12 + getMonth d)%Z
    | None => false
    end = lumpDueMonthly lsd d)
    by (unfold lumpDueMonthly, monthIndex; destruct lsd; reflexivity).
  rewrite Hdue.
  unfold annualDueMonthly, extraShareMonthly, cappedPrincipal.
  splits; try reflexivity;
    match goal with
    | |- _ == _ => case_if; ring
    | |- _ = (_ || _)%bool =>
        destruct (a_lumpSumApplied s), (lumpDueMonthly lsd d); reflexivity
    | _ => case_if; reflexivity
    end.
Qed.

(** The bi-weekly iteration, field by field. *)
Lemma biweeklyBody_spec (s : AccelVars) :
  let s' := fst (biweeklyBody base rate start o lsd s) in
  let d := biweeklyPaymentDate start (a_dayCounter s) in
  let lumpNow := negb (a_lumpSumApplied s) && lumpDueBiweekly lsd d in
  let b := a_balance s in
  let interest := b * (rate / 100 / 365) * 14 in
  exists row,
    a_schedule s' = a_schedule s ++ [row] /\
    row_paymentNumber row = (a_paymentNumber s + 1)%Z /\
    row_dateObj row = d /\
    row_date row = formatDate d /\
    row_interest row = interest /\
    row_extraPayment row ==
      extraShareBiweekly o + (if lumpNow then lumpSum o else 0)
        + (if annualDueBiweekly o (lastRow (a_schedule s)) d
           then annualExtra o else 0) /\
    row_principal row =
      cappedPrincipal (base / 2 - interest + row_extraPayment row) b
        - row_extraPayment row /\
    row_payment row =
      (if Qgt_bool (base / 2 - interest + row_extraPayment row) b
       then b + interest else base / 2) /\
    row_balance row = Math_max0 (a_balance s') /\
    row_cumulativeInterest row = a_cumulativeInterest s' /\
    a_balance s' =
      b - cappedPrincipal (base / 2 - interest + row_extraPayment row) b /\
    a_cumulativeInterest s' = a_cumulativeInterest s + interest /\
    a_paymentNumber s' = (a_paymentNumber s + 1)%Z /\
    a_lumpSumApplied s' = a_lumpSumApplied s || lumpNow /\
    a_dayCounter s' = (a_dayCounter s + 14)%Z /\
    snd (biweeklyBody base rate start o lsd s) = Qle_bool (a_balance s') epsilon.
Proof.
  unfold biweeklyBody; cbv zeta.
  cbn [fst snd a_schedule a_balance a_cumulativeInterest a_paymentNumber
       a_lumpSumApplied a_dayCounter].
  eexists. split; [reflexivity |].
  cbn [row_paymentNumber row_date row_dateObj row_payment row_principal
       row_interest row_extraPayment row_balance row_cumulativeInterest].
  unfold biweeklyPaymentDate.
  set (d := setDate start (getDate start + a_dayCounter s)).
  unfold lumpDueBiweekly, extraShareBiweekly, cappedPrincipal, annualDueBiweekly.
  splits; try reflexivity;
    match goal with
    | |- _ == _ =>
        destruct (Qgt_bool (extraMonthly o) 0),
          (negb (a_lumpSumApplied s) &&
           match lsd with Some l => (l <=? d)%Z | None => false end),
          (Qgt_bool (annualExtra o) 0), (getMonth d =? annualExtraMonth o)%Z;
        cbn [andb]; try ring;
        destruct (lastRow (a_schedule s)) as [p |]; try ring;
        destruct (negb (getMonth (row_dateObj p) =? annualExtraMonth o)%Z
                  || negb (getFullYear (row_dateObj p) =? getFullYear d)%Z);
        ring
    | |- _ = (_ || _)%bool =>
        destruct (a_lumpSumApplied s),
          (match lsd with Some l => (l <=? d)%Z | None => false end);
        reflexivity
    | _ => case_if; reflexivity
    end.
Qed.
End Iteration.

(** ** A larger extra monthly amount never costs more *)

Lemma cappedPrincipal_le (due b : Q) : cappedPrincipal due b <= b.
Proof. unfold cappedPrincipal. destruct (Qgt_bool_spec due b); lra. Qed.

Lemma capped_step_mono (base rate b1 b2 x1 x2 : Q) :
  0 <= rate -> b2 <= b1 -> x1 <= x2 ->
  b2 - cappedPrincipal (base - b2 * rate + x2) b2 <=
  b1 - cappedPrincipal (base - b1 * rate + x1) b1.
Proof.
  intros Hr Hb Hx. unfold cappedPrincipal.
  destruct (Qgt_bool_spec (base - b2 * rate + x2) b2);
    destruct (Qgt_bool_spec (base - b1 * rate + x1) b1); nra.
Qed.

Lemma extraShareMonthly_mono (o : AccelerationOptions) (e1 e2 : Q) :
  e1 <= e2 ->
  extraShareMonthly (withExtraMonthly o e1) <= extraShareMonthly (withExtraMonthly o e2).
Proof.
  intros H. unfold extraShareMonthly, withExtraMonthly; cbn [extraMonthly].
  destruct (Qgt_bool_spec e1 0); destruct (Qgt_bool_spec e2 0); lra.
Qed.

Section Monotone.
Variables (base rate : Q) (start : JSDate) (maxPayments : Z).
Variable o : AccelerationOptions.
Variable lsd : option JSDate.
Variables e1 e2 : Q.
Hypothesis Hrate : 0 <= rate.
Hypothesis He : e1 <= e2.

Let loop (e : Q) :=
  while_loop (monthlyCond maxPayments)
    (monthlyBody base rate start (withExtraMonthly o e) lsd).

(** Payments and interest only accumulate. *)
Lemma monthly_loop_grows (e : Q) (fuel : nat) (s : AccelVars) :
  (a_paymentNumber s <= a_paymentNumber (loop e fuel s))%Z /\
  a_cumulativeInterest s <= a_cumulativeInterest (loop e fuel s).
Proof.
  unfold loop.
  apply while_loop_invariant with
    (P := fun s' => (a_paymentNumber s <= a_paymentNumber s')%Z /\
                    a_cumulativeInterest s <= a_cumulativeInterest s').
  - intros s' [Hp Hc] Hcond.
    unfold monthlyCond in Hcond. apply andb_true_iff in Hcond.
    destruct Hcond as [Hgt _].
    destruct (Qgt_bool_spec (a_balance s') epsilon) as [Hgt' |]; [| discriminate].
    destruct (monthlyBody_spec base rate start (withExtraMonthly o e) lsd s')
      as (row & _ & _ & _ & _ & _ & _ & _ & _ & _ & _ & _ & Hci & Hpn & _).
    rewrite Hci, Hpn. pose proof epsilon_pos. split; [lia | nra].
  - split; [lia | lra].
Qed.

(** Run side by side, the loop with the larger amount is never behind. *)
Lemma monthly_race (fuel : nat) (s1 s2 : AccelVars) :
  a_paymentNumber s1 = a_paymentNumber s2 ->
  a_lumpSumApplied s1 = a_lumpSumApplied s2 ->
  a_balance s2 <= a_balance s1 ->
  a_cumulativeInterest s2 <= a_cumulativeInterest s1 ->
  (a_paymentNumber (loop e2 fuel s2) <= a_paymentNumber (loop e1 fuel s1))%Z /\
  a_cumulativeInterest (loop e2 fuel s2) <= a_cumulativeInterest (loop e1 fuel s1).
Proof.
  pose proof epsilon_pos as Heps.
  revert s1 s2. induction fuel as [| fuel IH]; intros s1 s2 Hpn Hflag Hb Hci.
  - simpl. split; [lia | assumption].
  - destruct (monthlyCond maxPayments s2) eqn:Hc2.
    + assert (Hc1 : monthlyCond maxPayments s1 = true).
      { unfold monthlyCond in *. apply andb_true_iff in Hc2.
        destruct Hc2 as [Hgt Hlt]. rewrite Hpn, Hlt, andb_true_r.
        destruct (Qgt_bool_spec (a_balance s2) epsilon); [| discriminate].
        destruct (Qgt_bool_spec (a_balance s1) epsilon); [reflexivity | lra]. }
      unfold loop. cbn [while_loop]. rewrite Hc1, Hc2.
      destruct (monthlyBody_spec base rate start (withExtraMonthly o e1) lsd s1)
        as (row1 & _ & _ & _ & _ & _ & Hx1 & _ & _ & _ & _ & Hb1 & Hci1 & Hpn1
            & Hf1 & _ & Hbrk1).
      destruct (monthlyBody_spec base rate start (withExtraMonthly o e2) lsd s2)
        as (row2 & _ & _ & _ & _ & _ & Hx2 & _ & _ & _ & _ & Hb2 & Hci2 & Hpn2
            & Hf2 & _ & Hbrk2).
      destruct (monthlyBody base rate start (withExtraMonthly o e1) lsd s1)
        as [s1' brk1].
      destruct (monthlyBody base rate start (withExtraMonthly o e2) lsd s2)
        as [s2' brk2].
      cbn [fst snd] in *.
      assert (Hx : row_extraPayment row1 <= row_extraPayment row2).
      { rewrite Hx1, Hx2. rewrite <- Hpn, <- Hflag.
        pose proof (extraShareMonthly_mono o e1 e2 He) as Hm.
        unfold annualDueMonthly, withExtraMonthly in *;
          cbn [annualExtra annualExtraMonth lumpSum].
        lra. }
      assert (Hb' : a_balance s2' <= a_balance s1').
      { rewrite Hb1, Hb2. now apply capped_step_mono. }
      assert (Hci' : a_cumulativeInterest s2' <= a_cumulativeInterest s1').
      { rewrite Hci1, Hci2. nra. }
      assert (Hpn' : a_paymentNumber s1' = a_paymentNumber s2') by lia.
      assert (Hflag' : a_lumpSumApplied s1' = a_lumpSumApplied s2').
      { rewrite Hf1, Hf2, Hpn, Hflag. reflexivity. }
      subst brk1 brk2.
      destruct (Qle_bool_spec (a_balance s2') epsilon) as [Hdone2 | Hmore2].
      * destruct (Qle_bool_spec (a_balance s1') epsilon) as [Hdone1 | Hmore1].
        -- split; [lia | assumption].
        -- destruct (monthly_loop_grows e1 fuel s1') as [Hg1 Hg2].
           unfold loop in *. split; [lia | lra].
      * destruct (Qle_bool_spec (a_balance s1') epsilon) as [Hdone1 | Hmore1];
          [lra |].
        now apply IH.
    + destruct (monthly_loop_grows e1 (Datatypes.S fuel) s1) as [Hg1 Hg2].
      unfold loop in *. rewrite (while_loop_stopped _ _ _ s2) by assumption.
      split; [lia | lra].
Qed.
End Monotone.

(** C6. For a loan with a non-negative rate and options in monthly mode,
    raising the extra monthly amount from [e1] to [e2], everything else
    unchanged, never raises totalPayments nor totalInterest. *)
Theorem extra_monthly_monotone
    (l : LoanData) (o : AccelerationOptions) (e1 e2 : Q) :
  0 <= annualRate l -> biweekly o = false -> e1 <= e2 ->
  let r1 := generateAcceleratedSchedule l (withExtraMonthly o e1) in
  let r2 := generateAcceleratedSchedule l (withExtraMonthly o e2) in
  (totalPayments r2 <= totalPayments r1)%Z /\
  totalInterest r2 <= totalInterest r1.
Proof.
  intros HR Hbw He r1 r2. subst r1 r2.
  unfold generateAcceleratedSchedule; cbn [totalPayments totalInterest].
  unfold acceleratedLoop. cbn [withExtraMonthly biweekly]. rewrite Hbw.
  change (lumpSumDateObjOf (withExtraMonthly o e1)) with (lumpSumDateObjOf o).
  change (lumpSumDateObjOf (withExtraMonthly o e2)) with (lumpSumDateObjOf o).
  apply monthly_race; try reflexivity; try lra.
  apply monthlyRate_nonneg. assumption.
Qed.

Lemma extra_monthly_monotone_witness :
  let l := mkLoanData 300000 6 30 (mkYearMonth 2024 1) in
  let o := mkAccelerationOptions 0 false 10000 (Some (mkYearMonth 2026 1)) 0 11 in
  (0 <= annualRate l /\ biweekly o = false /\ 100 <= 200) /\
  (totalPayments (generateAcceleratedSchedule l (withExtraMonthly o 200)) <=
   totalPayments (generateAcceleratedSchedule l (withExtraMonthly o 100)))%Z.
Proof.
  intros l o.
  assert (H1 : 0 <= annualRate l) by (unfold l; cbn; lra).
  assert (H2 : biweekly o = false) by reflexivity.
  assert (H3 : 100 <= 200) by lra.
  split; [splits; assumption |].
  exact (proj1 (extra_monthly_monotone l o 100 200 H1 H2 H3)).
Defined.

(** ** The accelerated ledger, row by row *)

Lemma EveryRow_nil (P : list PaymentRecord -> PaymentRecord -> Prop) :
  EveryRow P [].
Proof. intros [| i] row H; discriminate. Qed.

Lemma EveryRow_push (P : list PaymentRecord -> PaymentRecord -> Prop)
    (sched : list PaymentRecord) (r : PaymentRecord) :
  EveryRow P sched -> P sched r -> EveryRow P (sched ++ [r]).
Proof.
  intros Hall Hr i row Hi.
  destruct (Nat.lt_ge_cases i (length sched)) as [Hlt | Hge].
  - rewrite nth_error_app1 in Hi by assumption.
    rewrite firstn_app. replace (i - length sched)%nat with 0%nat by lia.
    simpl. rewrite app_nil_r. now apply Hall.
  - rewrite nth_error_app2 in Hi by assumption.
    destruct (i - length sched)%nat as [| j] eqn:E.
    + simpl in Hi. inversion Hi; subst row.
      replace i with (length sched) by lia.
      rewrite firstn_app, Nat.sub_diag, firstn_all. simpl. now rewrite app_nil_r.
    + simpl in Hi. destruct j; discriminate.
Qed.

Section Ledger.
Variable l : LoanData.
Variable o : AccelerationOptions.

Let base := calculateMonthlyPayment (principal l) (annualRate l) (termYears l).
Let start := parseDate (startDate l).

Lemma LedgerVars_init (due : JSDate -> bool) : LedgerVars l due (accelInit l).
Proof. unfold LedgerVars, accelInit; simpl. splits; reflexivity. Qed.

Lemma opening_after_push (sched : list PaymentRecord) (row : PaymentRecord)
    (b : Q) :
  row_balance row = Math_max0 b -> epsilon < b ->
  openingBalance l (sched ++ [row]) = b.
Proof.
  intros Hrow Hb. unfold openingBalance. rewrite lastRow_push, Hrow.
  pose proof epsilon_pos.
  destruct (Math_max0_spec b) as [[? _] | [_ ->]]; [lra | reflexivity].
Qed.

Lemma MonthlyLedger_step (s : AccelVars) :
  MonthlyLedger l o s -> monthlyCond (maxPaymentsOf l) s = true ->
  MonthlyLedger l o (fst (monthlyBody base (annualRate l / 100 / 12) start o (lumpSumDateObjOf o) s)).
Proof.
  intros (Hrows & Hpn & Hflag & Hopen) Hc.
  unfold monthlyCond in Hc. apply andb_true_iff in Hc. destruct Hc as [Hgt _].
  destruct (Qgt_bool_spec (a_balance s) epsilon) as [Hgt' |]; [| discriminate].
  specialize (Hopen Hgt').
  destruct (monthlyBody_spec base (annualRate l / 100 / 12) start o (lumpSumDateObjOf o) s)
    as (row & Hs & Hk & Hd & Hfd & Hi & Hx & Hp & Hpay & Hbal & _ & Hb' & _
        & Hpn' & Hflag' & _).
  unfold MonthlyLedger, LedgerVars. rewrite Hs, Hpn', Hflag'.
  rewrite length_app, existsb_app. cbn [length existsb]. rewrite orb_false_r.
  splits.
  - apply EveryRow_push; [assumption |].
    unfold MonthlyRow. fold base start. rewrite Hopen, <- Hpn.
    unfold firstDue. rewrite <- Hflag.
    splits; try assumption. now rewrite Hbal, Hb'.
  - lia.
  - rewrite Hd, Hflag. destruct (existsb _ (a_schedule s)); reflexivity.
  - intros Hbig. now apply opening_after_push.
Qed.

Lemma BiweeklyLedger_step (s : AccelVars) :
  BiweeklyLedger l o s -> biweeklyCond (maxPaymentsOf l) s = true ->
  BiweeklyLedger l o (fst (biweeklyBody base (annualRate l) start o (lumpSumDateObjOf o) s)).
Proof.
  intros (Hrows & (Hpn & Hflag & Hopen) & Hdc) Hc.
  unfold biweeklyCond in Hc. apply andb_true_iff in Hc. destruct Hc as [Hgt _].
  destruct (Qgt_bool_spec (a_balance s) epsilon) as [Hgt' |]; [| discriminate].
  specialize (Hopen Hgt').
  destruct (biweeklyBody_spec base (annualRate l) start o (lumpSumDateObjOf o) s)
    as (row & Hs & Hk & Hd & Hfd & Hi & Hx & Hp & Hpay & Hbal & _ & Hb' & _
        & Hpn' & Hflag' & Hdc' & _).
  unfold BiweeklyLedger, LedgerVars. rewrite Hs, Hpn', Hflag', Hdc'.
  rewrite length_app, existsb_app. cbn [length existsb]. rewrite orb_false_r.
  splits.
  - apply EveryRow_push; [assumption |].
    unfold BiweeklyRow. fold base start. rewrite Hopen, <- Hpn, <- Hdc.
    unfold firstDue. rewrite <- Hflag.
    splits; try assumption. now rewrite Hbal, Hb'.
  - lia.
  - rewrite Hd, Hflag. destruct (existsb _ (a_schedule s)); reflexivity.
  - intros Hbig. now apply opening_after_push.
  - lia.
Qed.

Lemma acceleratedLoop_monthly_ledger :
  biweekly o = false -> EveryRow (MonthlyRow l o) (a_schedule (acceleratedLoop l o)).
Proof.
  intros Hbw. unfold acceleratedLoop. rewrite Hbw. fold base start.
  apply (while_loop_invariant _ _ (MonthlyLedger l o)).
  - intros s Hs Hc. now apply MonthlyLedger_step.
  - split; [apply EveryRow_nil | apply LedgerVars_init].
Qed.

Lemma acceleratedLoop_biweekly_ledger :
  biweekly o = true -> EveryRow (BiweeklyRow l o) (a_schedule (acceleratedLoop l o)).
Proof.
  intros Hbw. unfold acceleratedLoop. rewrite Hbw. fold base start.
  apply (while_loop_invariant _ _ (BiweeklyLedger l o)).
  - intros s Hs Hc. now apply BiweeklyLedger_step.
  - split; [apply EveryRow_nil | split; [apply LedgerVars_init | reflexivity]].
Qed.
End Ledger.

(** ** The calendar *)

Section Calendar.
Local Open Scope Z_scope.

(** A day number and its civil date. *)
Lemma civil_from_days_inverse (z : Z) :
  days_from_civil (getFullYear z) (getMonth z + 1) (getDate z) = z.
Proof.
  unfold getFullYear, getMonth, getDate, civil_from_days, days_from_civil.
  cbv zeta. cbn [fst snd].
  set (z' := z + 719468).
  set (era := z' / 146097).
  set (doe := z' - era * 146097).
  assert (Hdoe : 0 <= doe < 146097).
  { unfold doe, era. Z.to_euclidean_division_equations; lia. }
  set (yoe := (doe - doe / 1460 + doe / 36524 - doe / 146096) / 365).
  assert (Hyoe : 0 <= yoe <= 399).
  { unfold yoe. Z.to_euclidean_division_equations; lia. }
  set (doy := doe - (365 * yoe + yoe / 4 - yoe / 100)).
  assert (Hdoy : 0 <= doy <= 365).
  { unfold doy, yoe. Z.to_euclidean_division_equations; lia. }
  set (mp := (5 * doy + 2) / 153).
  assert (Hmp : 0 <= mp <= 11).
  { unfold mp. Z.to_euclidean_division_equations; lia. }
  destruct (mp <? 10) eqn:E; [apply Z.ltb_lt in E | apply Z.ltb_ge in E].
  - replace (mp + 3 - 1 + 1 <=? 2) with false by (symmetry; apply Z.leb_gt; lia).
    replace (mp + 3 <=? 2) with false by (symmetry; apply Z.leb_gt; lia).
    replace (2 <? mp + 3 - 1 + 1) with true by (symmetry; apply Z.ltb_lt; lia).
    replace (mp + 3 - 1 + 1 - 3) with mp by lia.
    replace ((yoe + era * 400) / 400) with era
      by (Z.to_euclidean_division_equations; lia).
    replace (yoe + era * 400 - era * 400) with yoe by lia.
    unfold doy, doe, z'. lia.
  - replace (mp - 9 - 1 + 1 <=? 2) with true by (symmetry; apply Z.leb_le; lia).
    replace (mp - 9 <=? 2) with true by (symmetry; apply Z.leb_le; lia).
    replace (2 <? mp - 9 - 1 + 1) with false by (symmetry; apply Z.ltb_ge; lia).
    replace (mp - 9 - 1 + 1 + 9) with mp by lia.
    replace (yoe + era * 400 + 1 - 1) with (yoe + era * 400) by lia.
    replace ((yoe + era * 400) / 400) with era
      by (Z.to_euclidean_division_equations; lia).
    replace (yoe + era * 400 - era * 400) with yoe by lia.
    unfold doy, doe, z'. lia.
Qed.

Lemma getMonth_range (z : Z) : 0 <= getMonth z <= 11.
Proof.
  unfold getMonth, civil_from_days. cbv zeta. cbn [fst snd].
  set (z' := z + 719468).
  set (era := z' / 146097).
  set (doe := z' - era * 146097).
  assert (Hdoe : 0 <= doe < 146097).
  { unfold doe, era. Z.to_euclidean_division_equations; lia. }
  set (yoe := (doe - doe / 1460 + doe / 36524 - doe / 146096) / 365).
  set (doy := doe - (365 * yoe + yoe / 4 - yoe / 100)).
  assert (Hdoy : 0 <= doy <= 365).
  { unfold doy, yoe. Z.to_euclidean_division_equations; lia. }
  set (mp := (5 * doy + 2) / 153).
  assert (Hmp : 0 <= mp <= 11).
  { unfold mp. Z.to_euclidean_division_equations; lia. }
  destruct (mp <? 10) eqn:E; [apply Z.ltb_lt in E | apply Z.ltb_ge in E]; lia.
Qed.

(** [setDate] moves a date by whole days. *)
Lemma setDate_getDate_plus (d k : Z) : setDate d (getDate d + k) = d + k.
Proof.
  unfold setDate, MakeDay.
  pose proof (getMonth_range d) as Hm.
  rewrite Z.div_small, Z.mod_small by lia. rewrite Z.add_0_r.
  pose proof (civil_from_days_inverse d) as H.
  unfold days_from_civil in *. cbv zeta in *. lia.
Qed.
(** The civil date of the first day of a month. *)
Lemma civil_from_days_first (y m : Z) :
  1 <= m <= 12 -> civil_from_days (days_from_civil y m 1) = (y, m, 1).
Proof.
  intros Hm. unfold civil_from_days, days_from_civil. cbv zeta.
  set (y' := if m <=? 2 then y - 1 else y).
  set (era := y' / 400).
  set (yoe := y' - era * 400).
  set (mp := if 2 <? m then m - 3 else m + 9).
  set (doy := (153 * mp + 2) / 5 + 1 - 1).
  set (doe := yoe * 365 + yoe / 4 - yoe / 100 + doy).
  assert (Hyoe : 0 <= yoe <= 399).
  { unfold yoe, era. Z.to_euclidean_division_equations; lia. }
  assert (Hmp : 0 <= mp <= 11 /\ (m <= 2 <-> 10 <= mp)).
  { unfold mp. destruct (Z.ltb_spec 2 m); lia. }
  assert (Hdoy : 0 <= doy <= 337 /\ (5 * doy + 2) / 153 = mp /\ (153 * mp + 2) / 5 = doy).
  { unfold doy. Z.to_euclidean_division_equations; lia. }
  assert (Hdoe : 0 <= doe < 146097).
  { unfold doe. Z.to_euclidean_division_equations; lia. }
  replace (era * 146097 + doe - 719468 + 719468) with (doe + era * 146097) by lia.
  rewrite Z.div_add by lia. rewrite (Z.div_small doe) by lia.
  replace (doe + era * 146097 - (0 + era) * 146097) with doe by lia.
  assert (Hy : (doe - doe / 1460 + doe / 36524 - doe / 146096) / 365 = yoe).
  { unfold doe. Z.to_euclidean_division_equations; lia. }
  rewrite Hy.
  replace (doe - (365 * yoe + yoe / 4 - yoe / 100)) with doy by (unfold doe; lia).
  destruct Hdoy as (_ & -> & ->).
  replace (doy - doy + 1) with 1 by lia.
  assert (Hera : yoe + (0 + era) * 400 = y') by (unfold yoe; lia).
  rewrite Hera.
  unfold mp, y'.
  destruct (Z.ltb_spec 2 m); destruct (Z.leb_spec m 2); try lia.
  - replace (m - 3 <? 10) with true by (symmetry; apply Z.ltb_lt; lia).
    replace (m - 3 + 3 <=? 2) with false by (symmetry; apply Z.leb_gt; lia).
    f_equal. f_equal. lia.
  - replace (m + 9 <? 10) with false by (symmetry; apply Z.ltb_ge; lia).
    replace (m + 9 - 9 <=? 2) with true by (symmetry; apply Z.leb_le; lia).
    f_equal. f_equal; lia.
Qed.

Lemma civil_of_parseDate (p : YearMonth) :
  validPeriod p ->
  getFullYear (parseDate p) = ym_year p /\
  getMonth (parseDate p) = ym_month p - 1 /\
  getDate (parseDate p) = 1.
Proof.
  intros Hp. unfold getFullYear, getMonth, getDate, parseDate.
  rewrite civil_from_days_first by exact Hp. simpl. auto.
Qed.

Lemma monthIndex_parseDate (p : YearMonth) :
  validPeriod p -> monthIndex (parseDate p) = ymIndex p.
Proof.
  intros Hp. destruct (civil_of_parseDate p Hp) as (Hy & Hm & _).
  unfold monthIndex, ymIndex. now rewrite Hy, Hm.
Qed.

(** [setMonth] on the first day of a month moves by whole months. *)
Lemma monthIndex_monthlyPaymentDate (p : YearMonth) (k : Z) :
  validPeriod p ->
  monthIndex (monthlyPaymentDate (parseDate p) k) = ymIndex p + (k - 1) /\
  getDate (monthlyPaymentDate (parseDate p) k) = 1.
Proof.
  intros Hp. destruct (civil_of_parseDate p Hp) as (Hy & Hm & Hd).
  unfold monthlyPaymentDate, setMonth, MakeDay. rewrite Hy, Hm, Hd.
  set (q := ym_month p - 1 + k - 1).
  replace (days_from_civil (ym_year p + q / 12) (q mod 12 + 1) 1 + 1 - 1)
    with (days_from_civil (ym_year p + q / 12) (q mod 12 + 1) 1) by lia.
  assert (Hq : 1 <= q mod 12 + 1 <= 12)
    by (pose proof (Z.mod_pos_bound q 12); lia).
  unfold monthIndex, getFullYear, getMonth, getDate.
  rewrite civil_from_days_first by exact Hq. cbn [fst snd].
  unfold ymIndex. pose proof (Z.div_mod q 12). split; lia.
Qed.
End Calendar.

Lemma biweeklyPaymentDate_days (start : JSDate) (k : Z) :
  biweeklyPaymentDate start k = (start + k)%Z.
Proof. apply setDate_getDate_plus. Qed.

(** ** The bi-weekly schedule *)

Lemma Math_max0_of_nonneg (x : Q) : 0 <= x -> Math_max0 x == x.
Proof. intros H. destruct (Math_max0_spec x) as [[? ->] | [_ ->]]; lra. Qed.



(** ** The lump sum *)

Lemma firstDue_once (due : JSDate -> bool) (sched : list PaymentRecord)
    (i j : nat) (ri rj : PaymentRecord) :
  nth_error sched i = Some ri -> nth_error sched j = Some rj -> (i < j)%nat ->
  firstDue due (firstn i sched) (row_dateObj ri) = true ->
  firstDue due (firstn j sched) (row_dateObj rj) = false.
Proof.
  intros Hi Hj Hlt Hfire. unfold firstDue in *.
  apply andb_true_iff in Hfire. destruct Hfire as [_ Hdue].
  apply andb_false_iff. left. apply negb_false_iff.
  apply existsb_exists. exists ri. split; [| assumption].
  apply nth_error_In with i. rewrite nth_error_firstn.
  destruct (Nat.ltb_spec i j); [assumption | lia].
Qed.




(** ** The payment of a record against its principal and interest *)

(** The standard schedule keeps the identity by construction. *)
Lemma original_rows_payment_identity (l : LoanData) :
  Forall (fun row => row_payment row = row_principal row + row_interest row)
    (schedule (generateOriginalSchedule l)).
Proof.
  cbn [generateOriginalSchedule schedule]. unfold originalLoop.
  apply while_loop_invariant with
    (P := fun s => Forall (fun row => row_payment row = row_principal row + row_interest row)
                     (o_schedule s)).
  - intros s Hs _. cbn [fst originalBody o_schedule].
    apply Forall_app. split; [assumption |]. now repeat constructor.
  - constructor.
Qed.

(** So does a monthly accelerated record that is not truncated. *)
Lemma monthly_row_payment_identity (l : LoanData) (o : AccelerationOptions)
    (before : list PaymentRecord) (row : PaymentRecord) :
  MonthlyRow l o before row ->
  0 <= row_extraPayment row ->
  let base := calculateMonthlyPayment (principal l) (annualRate l) (termYears l) in
  let b := openingBalance l before in
  base - b * (annualRate l / 100 / 12) + row_extraPayment row <= b ->
  row_payment row == row_principal row + row_interest row.
Proof.
  intros (_ & _ & _ & Hi & _ & Hp & Hpay & _) Hx base b Hfit.
  fold base b in Hi, Hp, Hpay. rewrite Hpay, Hp, Hi. unfold cappedPrincipal.
  set (x := row_extraPayment row) in *.
  set (r := annualRate l / 100 / 12) in *.
  destruct (Qgt_bool_spec (base - b * r + x) b); [lra |].
  destruct (Qgt_bool_spec (base - x) (b + b * r)); [lra | ring].
Qed.

(** C4 at a failing input.  A 1200 loan at 12% over one year with 700 extra
    a month is paid off by a truncated second record: its payment is the
    base payment (about 106.62) while its principal is about -294.62 and its
    interest about 4.05.  In bi-weekly mode with a lump sum of 2000 due at
    once, the single record has payment about 1205.52, principal -800 and
    interest about 5.52.  In both the payment is far from principal plus
    interest. *)
Lemma truncated_row_payment_mismatch :
  let l := mkLoanData 1200 12 1 (mkYearMonth 2024 1) in
  let o := mkAccelerationOptions 700 false 0 None 0 11 in
  let o' := mkAccelerationOptions 0 true 2000 (Some (mkYearMonth 2024 1)) 0 11 in
  (exists row,
     lastRow (schedule (generateAcceleratedSchedule l o)) = Some row /\
     row_paymentNumber row = 2%Z /\
     (106 < row_payment row /\ row_payment row < 107) /\
     (-295 < row_principal row /\ row_principal row < -294) /\
     (4 < row_interest row /\ row_interest row < 5) /\
     row_extraPayment row == 700 /\
     row_balance row == 0 /\
     396 < row_payment row - (row_principal row + row_interest row)) /\
  (exists row,
     lastRow (schedule (generateAcceleratedSchedule l o')) = Some row /\
     row_paymentNumber row = 1%Z /\
     (1205 < row_payment row /\ row_payment row < 1206) /\
     row_principal row == -800 /\
     (5 < row_interest row /\ row_interest row < 6) /\
     row_extraPayment row == 2000 /\
     row_balance row == 0 /\
     2000 <= row_payment row - (row_principal row + row_interest row)).
Proof.
  cbv zeta. split.
  - eexists. split; [vm_compute; reflexivity |].
    splits; vm_compute; reflexivity.
  - eexists. split; [vm_compute; reflexivity |].
    splits; vm_compute; (reflexivity || discriminate).
Qed.

(** ** calculateSavings *)

Lemma Math_round_nearest (x : Q) :
  x - (1 # 2) < inject_Z (Math_round x) /\ inject_Z (Math_round x) <= x + (1 # 2).
Proof.
  unfold Math_round.
  pose proof (Qfloor_le (x + (1 # 2))) as H1.
  pose proof (Qlt_floor (x + (1 # 2))) as H2.
  rewrite inject_Z_plus in H2. change (inject_Z 1) with 1 in H2.
  split; lra.
Qed.

Lemma Math_floor_div12 (m : Z) : Math_floor (inject_Z m / 12) = (m / 12)%Z.
Proof.
  unfold Math_floor, Qfloor, Qdiv, Qmult, inject_Z. simpl.
  now rewrite Z.mul_1_r.
Qed.


(** * Further properties *)

(** ** The payment covers the interest *)

Lemma payment_covers_interest (P R : Q) (T : Z) :
  0 < P -> 0 <= R -> (0 < T)%Z ->
  0 < calculateMonthlyPayment P R T /\
  P * (R / 100 / 12) <= calculateMonthlyPayment P R T /\
  P / inject_Z (T * 12) <= calculateMonthlyPayment P R T.
Proof.
  intros HP HR HT.
  assert (Hn : 0 < inject_Z (T * 12)).
  { change 0 with (inject_Z 0). rewrite <- Zlt_Qlt. lia. }
  destruct (Qeq_bool_spec R 0) as [H0 | H0].
  - rewrite calculateMonthlyPayment_zero_rate by assumption.
    assert (Hq : 0 < P / inject_Z (T * 12)).
    { apply Qlt_shift_div_l; [assumption | lra]. }
    rewrite monthlyRate_scale, H0.
    set (q := P / inject_Z (T * 12)) in *. clearbody q. splits; lra.
  - set (r := R / 100 / 12).
    assert (Hr : 0 < r) by (unfold r; rewrite monthlyRate_scale; lra).
    set (pay := calculateMonthlyPayment P R T).
    assert (Hx : 1 < (1 + r) ^ (T * 12)) by (apply Qpower_1_lt; [lra | lia]).
    assert (Hpay : pay * ((1 + r) ^ (T * 12) - 1) == P * r * (1 + r) ^ (T * 12)).
    { unfold pay. rewrite calculateMonthlyPayment_annuity by assumption.
      fold r. field. lra. }
    set (x := (1 + r) ^ (T * 12)) in *.
    assert (HPr : 0 < P * r) by (apply Qmult_lt_0_compat; assumption).
    assert (HPrx : 0 < P * r * x) by (apply Qmult_lt_0_compat; [assumption | lra]).
    assert (Hpos : 0 < pay).
    { destruct (Qlt_le_dec 0 pay) as [| Hneg]; [assumption |]. exfalso.
      assert (pay * (x - 1) <= 0) by nra. lra. }
    assert (Hint : P * r <= pay).
    { assert (E : (pay - P * r) * x == pay) by lra.
      destruct (Qlt_le_dec pay (P * r)) as [Hlt |]; [| assumption]. exfalso.
      assert ((pay - P * r) * x < 0) by nra. lra. }
    splits; try assumption.
    (* the straight-line share: (1+r)^n - 1 <= n r (1+r)^n *)
    assert (Hbern : x - 1 <= inject_Z (T * 12) * r * x /\ 1 <= x).
    { unfold x. replace (T * 12)%Z with (Z.of_nat (Z.to_nat (T * 12))) by lia.
      generalize (Z.to_nat (T * 12)) as k. induction k as [| k [IH1 IH2]].
      - change (1 - 1 <= 0 * r * 1 /\ 1 <= 1). split; lra.
      - rewrite Qpower_succ by lra. rewrite Nat2Z.inj_succ. unfold Z.succ.
        rewrite inject_Z_plus. change (inject_Z 1) with 1.
        assert (0 <= inject_Z (Z.of_nat k)).
        { change 0 with (inject_Z 0). rewrite <- Zle_Qle. lia. }
        set (y := (1 + r) ^ Z.of_nat k) in *.
        set (c := inject_Z (Z.of_nat k)) in *.
        assert (Hry : 0 <= r * y) by (apply Qmult_le_0_compat; lra).
        assert (Hcry : 0 <= c * (r * y)) by (apply Qmult_le_0_compat; lra).
        assert (Hrry : 0 <= r * (r * y)) by (apply Qmult_le_0_compat; lra).
        assert (Hcrry : 0 <= c * (r * (r * y))) by (apply Qmult_le_0_compat; lra).
        split; [| lra].
        assert (E1 : (c + 1) * r * (y * (1 + r))
                     == c * (r * y) + r * y + c * (r * (r * y)) + r * (r * y)) by ring.
        assert (E2 : c * r * y == c * (r * y)) by ring.
        rewrite E1. rewrite E2 in IH1. lra. }
    destruct Hbern as [Hbern _].
    apply Qle_shift_div_r; [assumption |].
    assert (E : pay * inject_Z (T * 12) * (x - 1)
                == P * (inject_Z (T * 12) * r * x))
      by (transitivity (inject_Z (T * 12) * (pay * (x - 1)));
          [ring | rewrite Hpay; ring]).
    assert (Hgoal : P * (x - 1) <= pay * inject_Z (T * 12) * (x - 1))
      by (rewrite E; nra).
    assert (0 < x - 1) by lra.
    destruct (Qlt_le_dec (pay * inject_Z (T * 12)) P) as [Hlt |]; [| assumption].
    exfalso. assert (pay * inject_Z (T * 12) * (x - 1) < P * (x - 1)) by nra. lra.
Qed.

(** ** A standard schedule that runs its whole term *)

Section FullTerm.
Variable l : LoanData.
Hypothesis Hvalid : validLoan l.

Let pay := calculateMonthlyPayment (principal l) (annualRate l) (termYears l).
Let r := annualRate l / 100 / 12.
Let n := (termYears l * 12)%Z.
Let start := parseDate (startDate l).

(** Counting back from the term: the unrolled balance is never negative,
    and before the term one more payment never overshoots it. *)
Lemma unrolledBalance_backward (m k : nat) :
  (k + m = Z.to_nat n)%nat ->
  0 <= unrolledBalance (principal l) pay r k /\
  ((1 <= m)%nat -> pay <= unrolledBalance (principal l) pay r k * (1 + r)).
Proof.
  destruct Hvalid as (HP & HR & HT).
  pose proof (monthlyRate_nonneg (annualRate l) HR) as Hr. fold r in Hr.
  destruct (payment_covers_interest _ _ _ HP HR HT) as (Hpay & _). fold pay in Hpay.
  revert k. induction m as [| m IH]; intros k Hk.
  - replace k with (Z.to_nat n) by lia.
    pose proof (unrolledBalance_end (principal l) (annualRate l) (termYears l)
                  HR HT) as Hend.
    fold pay r n in Hend. split; [rewrite Hend; lra | lia].
  - destruct (IH (Datatypes.S k)) as [Hnext _]; [lia |].
    cbn [unrolledBalance] in Hnext.
    assert (Hstep : pay <= unrolledBalance (principal l) pay r k * (1 + r)) by lra.
    split; [nra | intros _; exact Hstep].
Qed.

Hypothesis Hbig : epsilon * (1 + r) < pay.

Lemma FullTermInv_init : FullTermInv l (originalInit l).
Proof.
  unfold FullTermInv, originalInit; cbn. destruct Hvalid as (_ & _ & HT).
  splits; try lia; try reflexivity.
  - change (inject_Z 0) with 0. ring.
  - constructor.
Qed.

Lemma FullTermInv_step (s : OriginalVars) :
  FullTermInv l s -> originalCond (termYears l) s = true ->
  FullTermInv l (originalBody pay r start s).
Proof.
  destruct Hvalid as (HP & HR & HT).
  pose proof (monthlyRate_nonneg (annualRate l) HR) as Hr. fold r in Hr.
  intros (Hpn & Hb & Hpaid & Hrows) Hc. fold pay r in Hb. fold pay in Hpaid, Hrows.
  unfold originalCond in Hc. apply andb_true_iff in Hc. destruct Hc as [_ Hlt].
  apply Z.ltb_lt in Hlt. fold n in Hlt, Hpn.
  destruct (unrolledBalance_backward
              (Z.to_nat n - Z.to_nat (o_paymentNumber s))
              (Z.to_nat (o_paymentNumber s))) as [Hu0 Hu1]; [lia |].
  assert (Hfit : pay <= unrolledBalance (principal l) pay r
                          (Z.to_nat (o_paymentNumber s)) * (1 + r))
    by (apply Hu1; lia).
  unfold FullTermInv, originalBody;
    cbn [o_paymentNumber o_schedule o_balance o_cumulativeInterest].
  fold pay r n.
  replace (Z.to_nat (o_paymentNumber s + 1))
    with (Datatypes.S (Z.to_nat (o_paymentNumber s))) by lia.
  cbn [unrolledBalance].
  set (u := unrolledBalance (principal l) pay r (Z.to_nat (o_paymentNumber s))) in *.
  set (b := o_balance s) in *.
  destruct (Qgt_bool_spec (pay - b * r) b) as [Hcap | Hcap]; [nra |].
  rewrite inject_Z_plus. change (inject_Z 1) with 1.
  splits; try lia.
  - rewrite Hb. ring.
  - nra.
  - apply Forall_app. split; [assumption |].
    constructor; [| constructor]. cbn [row_payment]. ring.
Qed.

Lemma originalLoop_full_inv : FullTermInv l (originalLoop l).
Proof.
  unfold originalLoop. fold pay r start.
  apply (while_loop_invariant _ _ (FullTermInv l)).
  - intros s Hs Hc. simpl. now apply FullTermInv_step.
  - apply FullTermInv_init.
Qed.

Lemma originalLoop_full_count : o_paymentNumber (originalLoop l) = n.
Proof.
  destruct Hvalid as (HP & HR & HT).
  pose proof (monthlyRate_nonneg (annualRate l) HR) as Hr. fold r in Hr.
  destruct originalLoop_full_inv as (Hpn & Hb & _). fold pay r in Hb. fold n in Hpn.
  destruct (WhileRun_stop _ _ _ _ (originalLoop_run l)) as [Hc | (s0 & _ & Hbrk)];
    [| discriminate].
  unfold originalCond in Hc. apply andb_false_iff in Hc.
  destruct (Z.ltb_spec (o_paymentNumber (originalLoop l)) (termYears l * 12))
    as [Hlt | Hge]; [| fold n in Hge; lia].
  exfalso. fold n in Hlt.
  destruct Hc as [Hc | Hc]; [| discriminate].
  destruct (Qgt_bool_spec (o_balance (originalLoop l)) epsilon) as [| Hle];
    [discriminate |].
  destruct (unrolledBalance_backward
              (Z.to_nat n - Z.to_nat (o_paymentNumber (originalLoop l)))
              (Z.to_nat (o_paymentNumber (originalLoop l)))) as [_ Hu1]; [lia |].
  assert (Hfit : pay <= unrolledBalance (principal l) pay r
                          (Z.to_nat (o_paymentNumber (originalLoop l))) * (1 + r))
    by (apply Hu1; lia).
  rewrite <- Hb in Hfit. nra.
Qed.
End FullTerm.

(** ** Acceleration never lengthens a loan *)

Lemma extraShareMonthly_nonneg (o : AccelerationOptions) : 0 <= extraShareMonthly o.
Proof. unfold extraShareMonthly. destruct (Qgt_bool_spec (extraMonthly o) 0); lra. Qed.

Lemma extraShareBiweekly_nonneg (o : AccelerationOptions) : 0 <= extraShareBiweekly o.
Proof.
  unfold extraShareBiweekly. destruct (Qgt_bool_spec (extraMonthly o) 0); [| lra].
  assert (E : extraMonthly o / (217 # 100) == extraMonthly o * (100 # 217)) by field.
  rewrite E. lra.
Qed.

Lemma lump_part_nonneg (o : AccelerationOptions) (due : option JSDate -> bool) (b : bool) :
  due None = false ->
  0 <= (if b && due (lumpSumDateObjOf o) then lumpSum o else 0).
Proof.
  intros Hnone. unfold lumpSumDateObjOf.
  destruct (Qgt_bool_spec (lumpSum o) 0) as [Hpos | Hneg].
  - destruct (b && due _); lra.
  - rewrite Hnone, andb_false_r. lra.
Qed.

Lemma annual_part_nonneg (o : AccelerationOptions) (b : bool) :
  0 <= (if Qgt_bool (annualExtra o) 0 && b then annualExtra o else 0).
Proof.
  destruct (Qgt_bool_spec (annualExtra o) 0); cbn [andb]; [destruct b |]; lra.
Qed.

Lemma unrolledBalance_step_le (P pay r : Q) (k : nat) (b x due : Q) :
  0 <= 1 + r -> 0 <= x -> 0 <= b ->
  b <= unrolledBalance P pay r k ->
  due == pay - b * r + x ->
  let b' := b - cappedPrincipal due b in
  0 <= b' /\ (0 < b' -> b' <= unrolledBalance P pay r (Datatypes.S k)).
Proof.
  intros Hr Hx Hb Hle Hdue b'. subst b'. cbn [unrolledBalance]. unfold cappedPrincipal.
  destruct (Qgt_bool_spec due b); split; try lra.
  intros _. nra.
Qed.

Lemma two_periods_within_a_month (R : Q) :
  0 <= R -> R <= 450 ->
  0 <= R * (14 # 36500) /\
  (1 + R * (14 # 36500)) * (1 + R * (14 # 36500)) <= 1 + R * (1 # 1200).
Proof. intros H0 H1. split; [lra | nra]. Qed.

Section PaidDown.
Variable l : LoanData.
Variable o : AccelerationOptions.
Hypothesis Hvalid : validLoan l.

Let base := calculateMonthlyPayment (principal l) (annualRate l) (termYears l).
Let r := annualRate l / 100 / 12.
Let n := (termYears l * 12)%Z.
Let start := parseDate (startDate l).

Lemma monthlyBound_end : monthlyBound l (Z.to_nat n) == 0.
Proof.
  destruct Hvalid as (HP & HR & HT). unfold monthlyBound.
  apply (unrolledBalance_end (principal l) (annualRate l) (termYears l) HR HT).
Qed.

Lemma monthly_extra_nonneg (s : AccelVars) (row : PaymentRecord) :
  row_extraPayment row ==
    extraShareMonthly o
    + (if negb (a_lumpSumApplied s)
          && lumpDueMonthly (lumpSumDateObjOf o)
               (monthlyPaymentDate start (a_paymentNumber s + 1))
       then lumpSum o else 0)
    + (if annualDueMonthly o (monthlyPaymentDate start (a_paymentNumber s + 1))
       then annualExtra o else 0) ->
  0 <= row_extraPayment row.
Proof.
  intros ->.
  pose proof (extraShareMonthly_nonneg o).
  pose proof (lump_part_nonneg o
                (fun d => lumpDueMonthly d (monthlyPaymentDate start (a_paymentNumber s + 1)))
                (negb (a_lumpSumApplied s)) eq_refl) as H1. cbv beta in H1.
  pose proof (annual_part_nonneg o
                (getMonth (monthlyPaymentDate start (a_paymentNumber s + 1))
                 =? annualExtraMonth o)%Z) as H2.
  unfold annualDueMonthly. lra.
Qed.

Lemma PaidDown_monthly_step (s : AccelVars) :
  PaidDownInv n (monthlyBound l) s -> monthlyCond (maxPaymentsOf l) s = true ->
  PaidDownInv n (monthlyBound l)
    (fst (monthlyBody base r start o (lumpSumDateObjOf o) s)).
Proof.
  destruct Hvalid as (HP & HR & HT).
  pose proof (monthlyRate_nonneg (annualRate l) HR) as Hr. fold r in Hr.
  pose proof epsilon_pos as Heps.
  intros (Hpn & Hb0 & Hub) Hc.
  unfold monthlyCond in Hc. apply andb_true_iff in Hc. destruct Hc as [Hgt _].
  destruct (Qgt_bool_spec (a_balance s) epsilon) as [Hgt' |]; [| discriminate].
  specialize (Hub Hgt').
  assert (Hlt : (a_paymentNumber s < n)%Z).
  { destruct (Z.eq_dec (a_paymentNumber s) n) as [E |]; [| lia].
    rewrite E, monthlyBound_end in Hub. lra. }
  destruct (monthlyBody_spec base r start o (lumpSumDateObjOf o) s)
    as (row & _ & _ & _ & _ & _ & Hx & _ & _ & _ & _ & Hb' & _ & Hpn' & _).
  apply monthly_extra_nonneg in Hx.
  unfold PaidDownInv. rewrite Hb', Hpn'.
  replace (Z.to_nat (a_paymentNumber s + 1))
    with (Datatypes.S (Z.to_nat (a_paymentNumber s))) by lia.
  destruct (unrolledBalance_step_le (principal l) base r
              (Z.to_nat (a_paymentNumber s)) (a_balance s) (row_extraPayment row)
              (base - a_balance s * r + row_extraPayment row))
    as [H1 H2]; try assumption; try lra; try reflexivity.
  splits; [lia | lia | exact H1 |].
  intros Hbig. apply H2. lra.
Qed.

Lemma PaidDown_monthly :
  biweekly o = false -> PaidDownInv n (monthlyBound l) (acceleratedLoop l o).
Proof.
  intros Hbw. unfold acceleratedLoop. rewrite Hbw. fold base r start.
  apply (while_loop_invariant _ _ (PaidDownInv n (monthlyBound l))).
  - intros s Hs Hc. now apply PaidDown_monthly_step.
  - destruct Hvalid as (HP & HR & HT).
    unfold PaidDownInv, accelInit, monthlyBound; cbn. splits; try lia; lra.
Qed.

Hypothesis Hrate : annualRate l <= 450.

Lemma biweeklyRate_bounds :
  0 <= biweeklyRate l /\ (1 + biweeklyRate l) * (1 + biweeklyRate l) <= 1 + r.
Proof.
  destruct Hvalid as (HP & HR & HT). unfold biweeklyRate, r.
  rewrite monthlyRate_scale.
  assert (E : annualRate l / 100 / 365 * 14 == annualRate l * (14 # 36500)) by field.
  rewrite E. now apply two_periods_within_a_month.
Qed.

(** Two bi-weekly periods pay a loan down at least as far as one month. *)
Lemma biweeklyBound_even (k : nat) :
  (k <= Z.to_nat n)%nat -> biweeklyBound l (2 * k) <= monthlyBound l k.
Proof.
  destruct Hvalid as (HP & HR & HT).
  destruct biweeklyRate_bounds as [Hi Hsq].
  destruct (payment_covers_interest _ _ _ HP HR HT) as (Hbase & _). fold base in Hbase.
  induction k as [| k IH]; intros Hk.
  - unfold biweeklyBound, monthlyBound. simpl. lra.
  - specialize (IH ltac:(lia)).
    destruct (unrolledBalance_backward l Hvalid (Z.to_nat n - k) k) as [Hu0 _];
      [fold n; lia |].
    replace (2 * Datatypes.S k)%nat with (Datatypes.S (Datatypes.S (2 * k))) by lia.
    unfold biweeklyBound, monthlyBound in IH |- *. cbn [unrolledBalance].
    fold base r in Hu0, IH |- *.
    set (v := unrolledBalance (principal l) (base / 2) (biweeklyRate l) (2 * k)) in *.
    set (u := unrolledBalance (principal l) base r k) in *.
    set (i := biweeklyRate l) in *.
    assert (E : (v * (1 + i) - base / 2) * (1 + i) - base / 2
                == v * ((1 + i) * (1 + i)) - base * (i * (1 # 2)) - base) by field.
    rewrite E.
    assert (0 <= (1 + i) * (1 + i)) by nra.
    assert (v * ((1 + i) * (1 + i)) <= u * ((1 + i) * (1 + i))) by nra.
    assert (u * ((1 + i) * (1 + i)) <= u * (1 + r)) by nra.
    assert (0 <= base * (i * (1 # 2))) by nra.
    lra.
Qed.

Lemma biweeklyBound_end : biweeklyBound l (Z.to_nat (2 * n)) <= 0.
Proof.
  destruct Hvalid as (HP & HR & HT).
  replace (Z.to_nat (2 * n)) with (2 * Z.to_nat n)%nat by (unfold n; lia).
  rewrite <- monthlyBound_end. apply biweeklyBound_even. lia.
Qed.

Lemma biweekly_extra_nonneg (s : AccelVars) (row : PaymentRecord) :
  row_extraPayment row ==
    extraShareBiweekly o
    + (if negb (a_lumpSumApplied s)
          && lumpDueBiweekly (lumpSumDateObjOf o)
               (biweeklyPaymentDate start (a_dayCounter s))
       then lumpSum o else 0)
    + (if annualDueBiweekly o (lastRow (a_schedule s))
            (biweeklyPaymentDate start (a_dayCounter s))
       then annualExtra o else 0) ->
  0 <= row_extraPayment row.
Proof.
  intros ->.
  pose proof (extraShareBiweekly_nonneg o).
  pose proof (lump_part_nonneg o
                (fun d => lumpDueBiweekly d (biweeklyPaymentDate start (a_dayCounter s)))
                (negb (a_lumpSumApplied s)) eq_refl) as H1. cbv beta in H1.
  unfold annualDueBiweekly. rewrite <- andb_assoc.
  pose proof (annual_part_nonneg o
                ((getMonth (biweeklyPaymentDate start (a_dayCounter s))
                  =? annualExtraMonth o)%Z &&
                 match lastRow (a_schedule s) with
                 | Some p =>
                     negb (getMonth (row_dateObj p) =? annualExtraMonth o)%Z
                     || negb (getFullYear (row_dateObj p)
                              =? getFullYear (biweeklyPaymentDate start (a_dayCounter s)))%Z
                 | None => true
                 end)) as H2.
  lra.
Qed.

Lemma PaidDown_biweekly_step (s : AccelVars) :
  PaidDownInv (2 * n) (biweeklyBound l) s ->
  biweeklyCond (maxPaymentsOf l) s = true ->
  PaidDownInv (2 * n) (biweeklyBound l)
    (fst (biweeklyBody base (annualRate l) start o (lumpSumDateObjOf o) s)).
Proof.
  destruct Hvalid as (HP & HR & HT).
  destruct biweeklyRate_bounds as [Hi _].
  pose proof epsilon_pos as Heps.
  intros (Hpn & Hb0 & Hub) Hc.
  unfold biweeklyCond in Hc. apply andb_true_iff in Hc. destruct Hc as [Hgt _].
  destruct (Qgt_bool_spec (a_balance s) epsilon) as [Hgt' |]; [| discriminate].
  specialize (Hub Hgt').
  assert (Hlt : (a_paymentNumber s < 2 * n)%Z).
  { destruct (Z.eq_dec (a_paymentNumber s) (2 * n)) as [E |]; [| lia].
    rewrite E in Hub. pose proof biweeklyBound_end. lra. }
  destruct (biweeklyBody_spec base (annualRate l) start o (lumpSumDateObjOf o) s)
    as (row & _ & _ & _ & _ & _ & Hx & _ & _ & _ & _ & Hb' & _ & Hpn' & _).
  apply biweekly_extra_nonneg in Hx.
  unfold PaidDownInv. rewrite Hb', Hpn'.
  replace (Z.to_nat (a_paymentNumber s + 1))
    with (Datatypes.S (Z.to_nat (a_paymentNumber s))) by lia.
  destruct (unrolledBalance_step_le (principal l) (base / 2) (biweeklyRate l)
              (Z.to_nat (a_paymentNumber s)) (a_balance s) (row_extraPayment row)
              (base / 2 - a_balance s * (annualRate l / 100 / 365) * 14
               + row_extraPayment row))
    as [H1 H2]; try assumption; try lra.
  { unfold biweeklyRate. ring. }
  splits; [lia | lia | exact H1 |].
  intros Hbig. apply H2. lra.
Qed.

Lemma PaidDown_biweekly :
  biweekly o = true ->
  PaidDownInv (2 * n) (biweeklyBound l) (acceleratedLoop l o).
Proof.
  intros Hbw. unfold acceleratedLoop. rewrite Hbw. fold base r start.
  apply (while_loop_invariant _ _ (PaidDownInv (2 * n) (biweeklyBound l))).
  - intros s Hs Hc. now apply PaidDown_biweekly_step.
  - destruct Hvalid as (HP & HR & HT).
    unfold PaidDownInv, accelInit, biweeklyBound; cbn [a_paymentNumber a_balance].
    change (Z.to_nat 0) with 0%nat. cbn [unrolledBalance].
    splits; [lia | unfold n; lia | lra | intros _; lra].
Qed.
End PaidDown.

Lemma accelerated_final_paid (l : LoanData) (o : AccelerationOptions)
    (limit : Z) (bound : nat -> Q) :
  PaidDownInv limit bound (acceleratedLoop l o) ->
  (limit < accelCeiling l o)%Z ->
  a_balance (acceleratedLoop l o) <= epsilon.
Proof.
  intros (Hpn & Hb0 & Hub) Hlim.
  destruct (Qlt_le_dec epsilon (a_balance (acceleratedLoop l o))) as [Hgt |];
    [| assumption].
  exfalso. unfold accelCeiling in Hlim.
  destruct (biweekly o) eqn:Hbw.
  - destruct (WhileRun_stop _ _ _ _ (acceleratedLoop_biweekly_run l o Hbw))
      as [Hc | (s0 & _ & Hbrk)].
    + unfold biweeklyCond in Hc. apply andb_false_iff in Hc.
      destruct Hc as [Hc | Hc].
      * destruct (Qgt_bool_spec (a_balance (acceleratedLoop l o)) epsilon);
          [discriminate | lra].
      * apply Z.ltb_ge in Hc. lia.
    + destruct (biweeklyBody_shape l o s0) as (_ & _ & Hsnd).
      rewrite Hbrk in Hsnd. cbn [fst snd] in Hsnd. symmetry in Hsnd.
      apply Qle_bool_iff in Hsnd. lra.
  - destruct (WhileRun_stop _ _ _ _ (acceleratedLoop_monthly_run l o Hbw))
      as [Hc | (s0 & _ & Hbrk)].
    + unfold monthlyCond in Hc. apply andb_false_iff in Hc.
      destruct Hc as [Hc | Hc].
      * destruct (Qgt_bool_spec (a_balance (acceleratedLoop l o)) epsilon);
          [discriminate | lra].
      * apply Z.ltb_ge in Hc. lia.
    + destruct (monthlyBody_shape l o s0) as (_ & _ & Hsnd).
      rewrite Hbrk in Hsnd. cbn [fst snd] in Hsnd. symmetry in Hsnd.
      apply Qle_bool_iff in Hsnd. lra.
Qed.

Lemma accelerated_paid_result (l : LoanData) (o : AccelerationOptions) :
  0 <= a_balance (acceleratedLoop l o) <= epsilon ->
  acceleratedExhausted l o = false /\
  (forall row, lastRow (schedule (generateAcceleratedSchedule l o)) = Some row ->
     0 <= row_balance row <= epsilon).
Proof.
  intros [Hb0 Hbe]. split.
  - unfold acceleratedExhausted.
    destruct (Qgt_bool_spec (a_balance (acceleratedLoop l o)) epsilon);
      [lra | reflexivity].
  - intros row Hrow. cbn [generateAcceleratedSchedule schedule] in Hrow.
    destruct (acceleratedLoop_inv l o) as (_ & _ & Hlast).
    rewrite (Hlast row Hrow).
    destruct (Math_max0_spec (a_balance (acceleratedLoop l o))) as [[_ ->] | [_ ->]];
      pose proof epsilon_pos; lra.
Qed.

Lemma acceleratedLoop_within_term (l : LoanData) (o : AccelerationOptions) :
  validLoan l -> (biweekly o = true -> annualRate l <= 450) ->
  (a_paymentNumber (acceleratedLoop l o)
     <= termYears l * (if biweekly o then 24 else 12))%Z /\
  0 <= a_balance (acceleratedLoop l o) <= epsilon.
Proof.
  intros Hv Hrate.
  assert (HT : (0 < termYears l)%Z) by apply Hv.
  destruct (biweekly o) eqn:Hbw.
  - pose proof (PaidDown_biweekly l o Hv (Hrate eq_refl) Hbw) as Hinv.
    split; [destruct Hinv as (Hpn & _); lia |].
    split; [apply Hinv |].
    apply (accelerated_final_paid l o _ _ Hinv).
    unfold accelCeiling, maxPaymentsOf. rewrite Hbw. lia.
  - pose proof (PaidDown_monthly l o Hv Hbw) as Hinv.
    split; [destruct Hinv as (Hpn & _); lia |].
    split; [apply Hinv |].
    apply (accelerated_final_paid l o _ _ Hinv).
    unfold accelCeiling, maxPaymentsOf. rewrite Hbw. lia.
Qed.





(** ** Interest totals *)

Lemma sumInterest_push (l : list PaymentRecord) (x : PaymentRecord) :
  sumInterest (l ++ [x]) == sumInterest l + row_interest x.
Proof.
  induction l as [| a l IH]; simpl.
  - ring.
  - fold (sumInterest (l ++ [x])). fold (sumInterest l). rewrite IH. ring.
Qed.

Lemma originalLoop_interest (l : LoanData) :
  o_cumulativeInterest (originalLoop l) == sumInterest (o_schedule (originalLoop l)) /\
  EveryRow InterestRow (o_schedule (originalLoop l)).
Proof.
  unfold originalLoop.
  apply (while_loop_invariant _ _
           (fun s => o_cumulativeInterest s == sumInterest (o_schedule s) /\
                     EveryRow InterestRow (o_schedule s))).
  - intros s [Hci Hrows] _. cbn [fst]. unfold originalBody; cbv zeta.
    cbn [o_schedule o_cumulativeInterest]. split.
    + rewrite sumInterest_push. cbn [row_interest]. rewrite Hci. ring.
    + apply EveryRow_push; [assumption |].
      unfold InterestRow. cbn [row_cumulativeInterest row_interest].
      rewrite Hci. ring.
  - split; [reflexivity | apply EveryRow_nil].
Qed.

Lemma acceleratedLoop_interest (l : LoanData) (o : AccelerationOptions) :
  a_cumulativeInterest (acceleratedLoop l o)
    == sumInterest (a_schedule (acceleratedLoop l o)) /\
  EveryRow InterestRow (a_schedule (acceleratedLoop l o)).
Proof.
  unfold acceleratedLoop. cbv zeta.
  destruct (biweekly o).
  - apply (while_loop_invariant _ _
             (fun s => a_cumulativeInterest s == sumInterest (a_schedule s) /\
                       EveryRow InterestRow (a_schedule s))).
    + intros s [Hci Hrows] _.
      destruct (biweeklyBody_spec
                  (calculateMonthlyPayment (principal l) (annualRate l) (termYears l))
                  (annualRate l) (parseDate (startDate l)) o (lumpSumDateObjOf o) s)
        as (row & Hs & _ & _ & _ & Hi & _ & _ & _ & _ & Hrc & _ & Hc & _).
      rewrite Hs, Hc. split.
      * rewrite sumInterest_push, Hi, Hci. ring.
      * apply EveryRow_push; [assumption |].
        unfold InterestRow. rewrite Hrc, Hc, Hi, Hci. ring.
    + split; [reflexivity | apply EveryRow_nil].
  - apply (while_loop_invariant _ _
             (fun s => a_cumulativeInterest s == sumInterest (a_schedule s) /\
                       EveryRow InterestRow (a_schedule s))).
    + intros s [Hci Hrows] _.
      destruct (monthlyBody_spec
                  (calculateMonthlyPayment (principal l) (annualRate l) (termYears l))
                  (annualRate l / 100 / 12) (parseDate (startDate l)) o
                  (lumpSumDateObjOf o) s)
        as (row & Hs & _ & _ & _ & Hi & _ & _ & _ & _ & Hrc & _ & Hc & _).
      rewrite Hs, Hc. split.
      * rewrite sumInterest_push, Hi, Hci. ring.
      * apply EveryRow_push; [assumption |].
        unfold InterestRow. rewrite Hrc, Hc, Hi, Hci. ring.
    + split; [reflexivity | apply EveryRow_nil].
Qed.

(** X3. In every schedule, standard or accelerated, monthly or bi-weekly,
    the [cumulativeInterest] of a record is the sum of the [interest] of the
    records up to and including it, and the [totalInterest] of the result is
    the sum of the [interest] of all its records. *)
Theorem cumulative_interest_is_running_sum (l : LoanData) (o : AccelerationOptions) :
  (let res := generateOriginalSchedule l in
   totalInterest res == sumInterest (schedule res) /\
   EveryRow InterestRow (schedule res)) /\
  (let res := generateAcceleratedSchedule l o in
   totalInterest res == sumInterest (schedule res) /\
   EveryRow InterestRow (schedule res)).
Proof.
  split; cbv zeta; cbn [generateOriginalSchedule generateAcceleratedSchedule
                         totalInterest schedule].
  - apply originalLoop_interest.
  - apply acceleratedLoop_interest.
Qed.

(** ** The standard schedule over its full term *)

Lemma originalLoop_full_term (l : LoanData) :
  validLoan l ->
  epsilon * (1 + annualRate l / 100 / 12)
    < calculateMonthlyPayment (principal l) (annualRate l) (termYears l) ->
  let pay := calculateMonthlyPayment (principal l) (annualRate l) (termYears l) in
  o_paymentNumber (originalLoop l) = (termYears l * 12)%Z /\
  Forall (fun row => row_payment row == pay) (o_schedule (originalLoop l)) /\
  o_cumulativeInterest (originalLoop l)
    == inject_Z (termYears l * 12) * pay - principal l /\
  o_balance (originalLoop l) == 0.
Proof.
  intros Hv Hbig pay.
  pose proof (originalLoop_full_count l Hv Hbig) as Hn.
  destruct (originalLoop_full_inv l Hv) as (_ & Hb & Hsum & Hrows).
  cbv zeta in Hb, Hsum, Hrows. fold pay in Hb, Hsum, Hrows.
  rewrite Hn in Hb, Hsum.
  destruct Hv as (HP & HR & HT).
  unfold pay in Hb at 1.
  rewrite (unrolledBalance_end (principal l) (annualRate l) (termYears l) HR HT) in Hb.
  splits; try assumption.
  rewrite Hb in Hsum. lra.
Qed.

Lemma original_last_balance (l : LoanData) (row : PaymentRecord) :
  o_balance (originalLoop l) == 0 ->
  lastRow (o_schedule (originalLoop l)) = Some row -> row_balance row == 0.
Proof.
  intros Hb Hrow.
  destruct (generateOriginalSchedule_counts l) as (_ & _ & Hlast).
  rewrite (Hlast row Hrow).
  rewrite (Math_max0_compat _ _ Hb).
  apply Math_max0_of_nonneg. lra.
Qed.



(** ** Validation of the loan form *)

Lemma js_range_spec (x : option Q) (lo hi : Q) :
  0 < lo ->
  (js_not x || js_lt x lo = false /\ js_gt x hi = false)
  <-> exists v, x = Some v /\ lo <= v <= hi.
Proof.
  intros Hlo. destruct x as [v |]; cbn.
  - destruct (Qeq_bool_spec v 0), (Qgt_bool_spec lo v), (Qgt_bool_spec v hi); cbn;
      split;
      try (intros [? ?]; discriminate);
      try (intros (v' & Hv & Hle); inversion Hv; subst v'; lra).
    intros _. exists v. split; [reflexivity | lra].
  - split; [intros [? _]; discriminate | intros (v & Hv & _); discriminate].
Qed.

Lemma js_term_spec (t : option Z) :
  js_not (option_map inject_Z t) || js_lt (option_map inject_Z t) 1 = false
  <-> exists v, t = Some v /\ (1 <= v)%Z.
Proof.
  destruct t as [t |]; cbn.
  - destruct (Qeq_bool_spec (inject_Z t) 0) as [H0 | H0],
             (Qgt_bool_spec 1 (inject_Z t)) as [H1 | H1]; cbn;
      split; try discriminate;
      try (intros (v & Hv & Hle); inversion Hv; subst v;
           rewrite (Zle_Qle 1 t) in Hle; change (inject_Z 1) with 1 in Hle; lra).
    intros _. exists t. split; [reflexivity |].
    rewrite (Zle_Qle 1 t). exact H1.
  - split; [discriminate | intros (v & Hv & _); discriminate].
Qed.

Lemma validateLoanData_isValid_tests (data : LoanForm) :
  isValid (validateLoanData data) =
  negb (js_not (data_principal data) || js_lt (data_principal data) 1000)
  && negb (js_gt (data_principal data) 10000000)
  && negb (js_not (data_annualRate data) || js_lt (data_annualRate data) (1 # 10))
  && negb (js_gt (data_annualRate data) 25)
  && negb (js_not (option_map inject_Z (data_termYears data))
           || js_lt (option_map inject_Z (data_termYears data)) 1)
  && match data_startDate data with Some _ => true | None => false end.
Proof.
  unfold validateLoanData. cbv zeta. cbn [isValid].
  destruct (js_not (data_principal data) || js_lt (data_principal data) 1000);
  destruct (js_gt (data_principal data) 10000000);
  destruct (js_not (data_annualRate data) || js_lt (data_annualRate data) (1 # 10));
  destruct (js_gt (data_annualRate data) 25);
  destruct (js_not (option_map inject_Z (data_termYears data))
            || js_lt (option_map inject_Z (data_termYears data)) 1);
  destruct (data_startDate data); reflexivity.
Qed.

(** X5. [validateLoanData] answers [isValid] exactly when the four fields
    are present and in range: principal between 1,000 and 10,000,000, rate
    between 0.1 and 25, a term of at least 1 and a start date. *)
Theorem validateLoanData_isValid (data : LoanForm) :
  isValid (validateLoanData data) = true <->
  (exists p, data_principal data = Some p /\ 1000 <= p <= 10000000) /\
  (exists r, data_annualRate data = Some r /\ (1 # 10) <= r <= 25) /\
  (exists t, data_termYears data = Some t /\ (1 <= t)%Z) /\
  (exists s, data_startDate data = Some s).
Proof.
  rewrite validateLoanData_isValid_tests.
  rewrite !andb_true_iff, !negb_true_iff.
  rewrite <- (js_range_spec (data_principal data) 1000 10000000) by reflexivity.
  rewrite <- (js_range_spec (data_annualRate data) (1 # 10) 25) by reflexivity.
  rewrite <- js_term_spec.
  destruct (data_startDate data) as [s |].
  - intuition eauto.
  - split.
    + intros (_ & Hf). discriminate.
    + intros (_ & _ & _ & s & Hs). discriminate.
Qed.

(** X6. The message of each field is present exactly when that field fails
    its own tests: [errors.loanAmount] is absent exactly for a principal
    between 1,000 and 10,000,000, [errors.interestRate] for a rate between
    0.1 and 25, [errors.loanTerm] for a term of at least 1 and
    [errors.startDate] for a start date that is given. *)
Theorem validateLoanData_field_errors (data : LoanForm) :
  let e := errors (validateLoanData data) in
  (getProp "loanAmount" e = None <->
     exists p, data_principal data = Some p /\ 1000 <= p <= 10000000) /\
  (getProp "interestRate" e = None <->
     exists r, data_annualRate data = Some r /\ (1 # 10) <= r <= 25) /\
  (getProp "loanTerm" e = None <->
     exists t, data_termYears data = Some t /\ (1 <= t)%Z) /\
  (getProp "startDate" e = None <-> exists s, data_startDate data = Some s).
Proof.
  cbv zeta.
  rewrite <- (js_range_spec (data_principal data) 1000 10000000) by reflexivity.
  rewrite <- (js_range_spec (data_annualRate data) (1 # 10) 25) by reflexivity.
  rewrite <- js_term_spec.
  unfold validateLoanData. cbv zeta. cbn [errors].
  destruct (js_not (data_principal data) || js_lt (data_principal data) 1000);
  destruct (js_gt (data_principal data) 10000000);
  destruct (js_not (data_annualRate data) || js_lt (data_annualRate data) (1 # 10));
  destruct (js_gt (data_annualRate data) 25);
  destruct (js_not (option_map inject_Z (data_termYears data))
            || js_lt (option_map inject_Z (data_termYears data)) 1);
  destruct (data_startDate data) as [s |]; cbn;
  repeat split; try discriminate; try (intros [? ?]; discriminate);
  try (intros [? ?]; discriminate); eauto;
  try (intros [s' Hs]; discriminate).
Qed.

(** ** From the validated form to the schedules *)

Lemma validated_formOf (l : LoanData) :
  isValid (validateLoanData (formOf l)) = true ->
  1000 <= principal l <= 10000000 /\ (1 # 10) <= annualRate l <= 25 /\
  (1 <= termYears l)%Z.
Proof.
  rewrite validateLoanData_isValid_tests.
  rewrite !andb_true_iff, !negb_true_iff.
  intros (((((Hp1 & Hp2) & Hr1) & Hr2) & Ht) & _).
  destruct (proj1 (js_range_spec _ 1000 10000000 eq_refl) (conj Hp1 Hp2))
    as (p & Hp & Hp').
  destruct (proj1 (js_range_spec _ (1 # 10) 25 eq_refl) (conj Hr1 Hr2))
    as (r & Hr & Hr').
  destruct (proj1 (js_term_spec _) Ht) as (t & Ht1 & Ht').
  cbn in Hp, Hr, Ht1. inversion Hp; inversion Hr; inversion Ht1; subst.
  tauto.
Qed.

Lemma validated_loan_facts (l : LoanData) :
  isValid (validateLoanData (formOf l)) = true ->
  validLoan l /\ annualRate l <= 450 /\
  epsilon * (1 + annualRate l / 100 / 12)
    < calculateMonthlyPayment (principal l) (annualRate l) (termYears l).
Proof.
  intros H. destruct (validated_formOf l H) as ((Hp1 & Hp2) & (Hr1 & Hr2) & Ht).
  assert (Hv : validLoan l) by (unfold validLoan; splits; (lra || lia)).
  splits; [assumption | lra |].
  destruct (payment_covers_interest (principal l) (annualRate l) (termYears l))
    as (_ & Hi & _); [lra | lra | lia |].
  eapply Qlt_le_trans; [| exact Hi].
  rewrite monthlyRate_scale.
  assert (Hm : 1000 * (annualRate l * (1 # 1200))
               <= principal l * (annualRate l * (1 # 1200)))
    by (apply Qmult_le_compat_r; lra).
  unfold epsilon. lra.
Qed.



(** ** The accelerated schedule against the standard one *)

Section AgainstStandard.
Variable l : LoanData.
Variable o : AccelerationOptions.
Hypothesis Hvalid : validLoan l.

Let pay := calculateMonthlyPayment (principal l) (annualRate l) (termYears l).
Let r := annualRate l / 100 / 12.
Let n := (termYears l * 12)%Z.
Let start := parseDate (startDate l).

Let stdLoop :=
  while_loop (originalCond (termYears l))
    (fun s => (originalBody pay r start s, false)).

Let accLoop :=
  while_loop (monthlyCond (maxPaymentsOf l))
    (monthlyBody pay r start o (lumpSumDateObjOf o)).

(** Payments and interest of the standard loop only accumulate. *)
Lemma original_loop_grows (fuel : nat) (s : OriginalVars) :
  (o_paymentNumber s <= o_paymentNumber (stdLoop fuel s))%Z /\
  o_cumulativeInterest s <= o_cumulativeInterest (stdLoop fuel s).
Proof.
  destruct Hvalid as (HP & HR & HT).
  pose proof (monthlyRate_nonneg (annualRate l) HR) as Hr. fold r in Hr.
  unfold stdLoop.
  apply while_loop_invariant with
    (P := fun s' => (o_paymentNumber s <= o_paymentNumber s')%Z /\
                    o_cumulativeInterest s <= o_cumulativeInterest s').
  - intros s' [Hp Hc] Hcond.
    unfold originalCond in Hcond. apply andb_true_iff in Hcond.
    destruct Hcond as [Hgt _].
    destruct (Qgt_bool_spec (o_balance s') epsilon) as [Hgt' |]; [| discriminate].
    cbn [fst]. unfold originalBody; cbv zeta.
    cbn [o_paymentNumber o_cumulativeInterest].
    pose proof epsilon_pos. split; [lia | nra].
  - split; [lia | lra].
Qed.

(** Run side by side from the same payment number, the accelerated loop is
    never behind the standard one. *)
Lemma standard_race (fuel2 : nat) :
  forall (fuel1 : nat) (s1 : OriginalVars) (s2 : AccelVars),
  OriginalInv l s1 ->
  (Z.to_nat (n - o_paymentNumber s1) <= fuel1)%nat ->
  o_paymentNumber s1 = a_paymentNumber s2 ->
  a_balance s2 <= o_balance s1 ->
  a_cumulativeInterest s2 <= o_cumulativeInterest s1 ->
  (a_paymentNumber (accLoop fuel2 s2) <= o_paymentNumber (stdLoop fuel1 s1))%Z /\
  a_cumulativeInterest (accLoop fuel2 s2) <= o_cumulativeInterest (stdLoop fuel1 s1).
Proof.
  destruct Hvalid as (HP & HR & HT).
  pose proof (monthlyRate_nonneg (annualRate l) HR) as Hr. fold r in Hr.
  pose proof epsilon_pos as Heps.
  induction fuel2 as [| fuel2 IH]; intros fuel1 s1 s2 Hinv Hfuel Hpn Hb Hci.
  - destruct (original_loop_grows fuel1 s1) as [Hg1 Hg2].
    unfold accLoop; cbn [while_loop]. split; [lia | lra].
  - destruct (monthlyCond (maxPaymentsOf l) s2) eqn:Hc2.
    + pose proof Hc2 as Hcond2.
      unfold monthlyCond in Hc2. apply andb_true_iff in Hc2.
      destruct Hc2 as [Hgt2 Hlt2].
      destruct (Qgt_bool_spec (a_balance s2) epsilon) as [Hgt2' |]; [| discriminate].
      assert (Hlt1 : (o_paymentNumber s1 < n)%Z).
      { destruct (Z.lt_ge_cases (o_paymentNumber s1) n) as [| Hge]; [assumption |].
        pose proof (OriginalInv_at_term l Hvalid s1 Hinv Hge). lra. }
      assert (Hc1 : originalCond (termYears l) s1 = true).
      { unfold originalCond. apply andb_true_iff. split.
        - destruct (Qgt_bool_spec (o_balance s1) epsilon); [reflexivity | lra].
        - apply Z.ltb_lt. exact Hlt1. }
      destruct fuel1 as [| fuel1]; [lia |].
      pose proof (OriginalInv_step l Hvalid s1 Hinv Hc1) as Hinv'.
      fold pay r start in Hinv'.
      unfold accLoop, stdLoop. cbn [while_loop].
      rewrite Hc1, Hcond2.
      destruct (monthlyBody_spec pay r start o (lumpSumDateObjOf o) s2)
        as (row2 & _ & _ & _ & _ & _ & Hx2 & _ & _ & _ & _ & Hb2 & Hci2 & Hpn2
            & _ & _ & Hbrk2).
      apply (monthly_extra_nonneg l o s2 row2) in Hx2.
      destruct (monthlyBody pay r start o (lumpSumDateObjOf o) s2) as [s2' brk2].
      cbn [fst snd] in *.
      set (s1' := originalBody pay r start s1) in *.
      assert (Hb1 : o_balance s1' =
                    o_balance s1 - cappedPrincipal (pay - o_balance s1 * r) (o_balance s1))
        by reflexivity.
      assert (Hci1 : o_cumulativeInterest s1' = o_cumulativeInterest s1 + o_balance s1 * r)
        by reflexivity.
      assert (Hpn1 : o_paymentNumber s1' = (o_paymentNumber s1 + 1)%Z) by reflexivity.
      assert (Hb' : a_balance s2' <= o_balance s1').
      { rewrite Hb1, Hb2.
        unfold cappedPrincipal.
        destruct (Qgt_bool_spec (pay - a_balance s2 * r + row_extraPayment row2)
                    (a_balance s2));
          destruct (Qgt_bool_spec (pay - o_balance s1 * r) (o_balance s1)); nra. }
      assert (Hci' : a_cumulativeInterest s2' <= o_cumulativeInterest s1').
      { rewrite Hci1, Hci2. nra. }
      assert (Hpn' : o_paymentNumber s1' = a_paymentNumber s2') by lia.
      subst brk2.
      destruct (Qle_bool_spec (a_balance s2') epsilon) as [Hdone2 | Hmore2].
      * destruct (original_loop_grows fuel1 s1') as [Hg1 Hg2].
        unfold stdLoop in Hg1, Hg2. split; [lia | lra].
      * apply IH; try assumption. lia.
    + destruct (original_loop_grows fuel1 s1) as [Hg1 Hg2].
      unfold accLoop; cbn [while_loop]. rewrite Hc2. split; [lia | lra].
Qed.

Lemma accelerated_not_behind_standard :
  biweekly o = false ->
  (a_paymentNumber (acceleratedLoop l o) <= o_paymentNumber (originalLoop l))%Z /\
  a_cumulativeInterest (acceleratedLoop l o) <= o_cumulativeInterest (originalLoop l).
Proof.
  intros Hbw. unfold acceleratedLoop, originalLoop. rewrite Hbw.
  fold pay r start.
  apply standard_race.
  - apply OriginalInv_init. exact Hvalid.
  - cbn [originalInit o_paymentNumber]. unfold n. lia.
  - reflexivity.
  - cbn. lra.
  - cbn. lra.
Qed.
End AgainstStandard.



(** ** Periods and dates *)

Lemma validPeriod_formatDate (d : JSDate) : validPeriod (formatDate d).
Proof.
  unfold validPeriod, formatDate; cbn [ym_month].
  pose proof (getMonth_range d). lia.
Qed.

Lemma parseDate_formatDate_first (d : JSDate) :
  parseDate (formatDate d) = (d - (getDate d - 1))%Z.
Proof.
  pose proof (civil_from_days_inverse d) as H.
  unfold parseDate, formatDate; cbn [ym_year ym_month].
  unfold days_from_civil in *. cbv zeta in *. lia.
Qed.

Lemma formatDate_parseDate_id (p : YearMonth) :
  validPeriod p -> formatDate (parseDate p) = p.
Proof.
  intros Hp. destruct (civil_of_parseDate p Hp) as (Hy & Hm & _).
  unfold formatDate. rewrite Hy, Hm. destruct p as [y m]; cbn. f_equal. lia.
Qed.

(** X9. [formatDate] undoes [parseDate] on every "YYYY-MM" period with a
    month of the calendar. *)
Theorem formatDate_parseDate (p : YearMonth) :
  validPeriod p -> formatDate (parseDate p) = p.
Proof.
  intros Hp. unfold validPeriod in Hp.
  unfold formatDate, getFullYear, getMonth, parseDate.
  rewrite civil_from_days_first by exact Hp. cbn [fst snd].
  destruct p as [y m]; cbn [ym_year ym_month]. f_equal. lia.
Qed.

Lemma formatDate_parseDate_witness :
  validPeriod (mkYearMonth 2024 2) /\
  formatDate (parseDate (mkYearMonth 2024 2)) = mkYearMonth 2024 2.
Proof.
  assert (H : validPeriod (mkYearMonth 2024 2)) by (unfold validPeriod; cbn; lia).
  split; [exact H | exact (formatDate_parseDate _ H)].
Defined.


Lemma validPeriod_addMonths (p : YearMonth) (k : Z) : validPeriod (addMonths p k).
Proof.
  unfold validPeriod, addMonths; cbn [ym_month].
  pose proof (Z.mod_pos_bound (ym_month p - 1 + k) 12). lia.
Qed.

Lemma ymIndex_addMonths (p : YearMonth) (k : Z) :
  ymIndex (addMonths p k) = (ymIndex p + k)%Z.
Proof.
  unfold ymIndex, addMonths; cbn [ym_year ym_month].
  pose proof (Z.div_mod (ym_month p - 1 + k) 12). lia.
Qed.

Lemma addMonths_0 (p : YearMonth) : validPeriod p -> addMonths p 0 = p.
Proof.
  intros Hp. unfold validPeriod in Hp. unfold addMonths. destruct p as [y m]; cbn in *.
  rewrite Z.add_0_r. rewrite Z.div_small, Z.mod_small by lia. f_equal; lia.
Qed.

(** The date of monthly payment [k] is the first day of the month [k - 1]
    months after the start. *)
Lemma monthlyPaymentDate_addMonths (p : YearMonth) (k : Z) :
  validPeriod p ->
  monthlyPaymentDate (parseDate p) k = parseDate (addMonths p (k - 1)) /\
  formatDate (monthlyPaymentDate (parseDate p) k) = addMonths p (k - 1).
Proof.
  intros Hp. destruct (civil_of_parseDate p Hp) as (Hy & Hm & Hd).
  assert (H : monthlyPaymentDate (parseDate p) k = parseDate (addMonths p (k - 1))).
  { unfold monthlyPaymentDate, setMonth, MakeDay. rewrite Hy, Hm, Hd.
    unfold parseDate, addMonths; cbn [ym_year ym_month].
    replace (ym_month p - 1 + k - 1)%Z with (ym_month p - 1 + (k - 1))%Z by lia.
    lia. }
  split; [exact H |].
  rewrite H. apply formatDate_parseDate_id, validPeriod_addMonths.
Qed.

Lemma originalBody_stamp (pay r : Q) (start : JSDate) (s : OriginalVars) :
  let s' := originalBody pay r start s in
  exists row,
    o_schedule s' = o_schedule s ++ [row] /\
    o_paymentNumber s' = (o_paymentNumber s + 1)%Z /\
    row_paymentNumber row = (o_paymentNumber s + 1)%Z /\
    row_dateObj row = monthlyPaymentDate start (o_paymentNumber s + 1) /\
    row_date row = formatDate (monthlyPaymentDate start (o_paymentNumber s + 1)).
Proof.
  unfold originalBody; cbv zeta. cbn [o_schedule o_paymentNumber].
  eexists. split; [reflexivity |].
  cbn [row_paymentNumber row_date row_dateObj]. unfold monthlyPaymentDate.
  splits; reflexivity.
Qed.

Lemma originalLoop_stamped (l : LoanData) :
  validPeriod (startDate l) ->
  o_paymentNumber (originalLoop l) = Z.of_nat (length (o_schedule (originalLoop l))) /\
  EveryRow (MonthStamped (startDate l)) (o_schedule (originalLoop l)).
Proof.
  intros Hp. unfold originalLoop.
  apply (while_loop_invariant _ _
           (fun s => o_paymentNumber s = Z.of_nat (length (o_schedule s)) /\
                     EveryRow (MonthStamped (startDate l)) (o_schedule s))).
  - intros s [Hpn Hrows] _. cbn [fst].
    destruct (originalBody_stamp
                (calculateMonthlyPayment (principal l) (annualRate l) (termYears l))
                (annualRate l / 100 / 12) (parseDate (startDate l)) s)
      as (row & Hs & Hpn' & Hk & Hd & Hf).
    rewrite Hs, Hpn'. split.
    + rewrite length_app. cbn [length]. lia.
    + apply EveryRow_push; [assumption |].
      destruct (monthlyPaymentDate_addMonths (startDate l) (o_paymentNumber s + 1) Hp)
        as [H1 H2].
      replace (o_paymentNumber s + 1 - 1)%Z with (o_paymentNumber s) in H1, H2 by lia.
      unfold MonthStamped; cbv zeta. rewrite <- Hpn.
      splits; [exact Hk | rewrite Hf; exact H2 | rewrite Hd; exact H1].
  - split; [reflexivity | apply EveryRow_nil].
Qed.

Lemma monthlyRow_stamped (l : LoanData) (o : AccelerationOptions)
    (sched : list PaymentRecord) :
  validPeriod (startDate l) ->
  EveryRow (MonthlyRow l o) sched -> EveryRow (MonthStamped (startDate l)) sched.
Proof.
  intros Hp Hrows i row Hi.
  destruct (Hrows i row Hi) as (Hk & Hd & Hf & _).
  destruct (monthlyPaymentDate_addMonths (startDate l)
              (Z.of_nat (length (firstn i sched)) + 1) Hp) as [H1 H2].
  replace (Z.of_nat (length (firstn i sched)) + 1 - 1)%Z
    with (Z.of_nat (length (firstn i sched))) in H1, H2 by lia.
  unfold MonthStamped; cbv zeta.
  splits; [exact Hk | rewrite Hf; exact H2 | rewrite Hd; exact H1].
Qed.

Lemma payoffOf_stamped (start : YearMonth) (sched : list PaymentRecord) :
  validPeriod start ->
  EveryRow (MonthStamped start) sched ->
  payoffOf sched (parseDate start)
    = addMonths start (Z.max 0 (Z.of_nat (length sched) - 1)).
Proof.
  intros Hp Hrows. unfold payoffOf.
  destruct (lastRow sched) as [row |] eqn:Hlast.
  - unfold lastRow in Hlast.
    destruct (Hrows _ _ Hlast) as (_ & Hd & _).
    assert (Hlen : (length sched <> 0)%nat)
      by (intros E; destruct sched; [discriminate Hlast | discriminate E]).
    rewrite Hd, length_firstn.
    f_equal. lia.
  - apply lastRow_None in Hlast. subst sched. cbn [length].
    change (Z.max 0 (Z.of_nat 0 - 1)) with 0%Z.
    rewrite addMonths_0 by assumption. now apply formatDate_parseDate_id.
Qed.



Lemma days_from_civil_drift (y m : Z) :
  (1 <= m <= 12)%Z ->
  (-3453750000 <= 4800 * days_from_civil y m 1 - 146097 * (12 * y + m - 1)
     <= -3453722000)%Z.
Proof.
  intros Hm. unfold days_from_civil. cbv zeta.
  destruct (Z.leb_spec m 2); destruct (Z.ltb_spec 2 m); try lia;
    Z.to_euclidean_division_equations; lia.
Qed.

Lemma inject_Z_minus (a b : Z) : inject_Z (a - b) == inject_Z a - inject_Z b.
Proof. unfold Z.sub. rewrite inject_Z_plus, inject_Z_opp. ring. Qed.

Lemma Math_round_unique (x : Q) (z : Z) :
  inject_Z z - (1 # 2) <= x -> x < inject_Z z + (1 # 2) -> Math_round x = z.
Proof.
  intros H1 H2. destruct (Math_round_nearest x) as [H3 H4].
  assert (Ha : (z - 1 < Math_round x)%Z).
  { rewrite Zlt_Qlt. rewrite inject_Z_minus. change (inject_Z 1) with 1. lra. }
  assert (Hb : (Math_round x < z + 1)%Z).
  { rewrite Zlt_Qlt. rewrite inject_Z_plus. change (inject_Z 1) with 1. lra. }
  lia.
Qed.

(** Between the first days of two months at most 3000 months apart, the
    number of days divided by 30.44 rounds to the number of months. *)
Lemma months_between_periods (p q : YearMonth) :
  validPeriod p -> validPeriod q ->
  (-3000 <= ymIndex q - ymIndex p <= 3000)%Z ->
  Math_round
    (inject_Z (getTime (parseDate q) - getTime (parseDate p))
     / (1000 * 60 * 60 * 24 * (3044 # 100)))
  = (ymIndex q - ymIndex p)%Z.
Proof.
  intros Hp Hq Hd.
  pose proof (days_from_civil_drift (ym_year p) (ym_month p) Hp) as Dp.
  pose proof (days_from_civil_drift (ym_year q) (ym_month q) Hq) as Dq.
  unfold getTime, parseDate, ymIndex in *.
  set (dp := days_from_civil (ym_year p) (ym_month p) 1) in *.
  set (dq := days_from_civil (ym_year q) (ym_month q) 1) in *.
  set (delta := (ym_year q * 12 + (ym_month q - 1)
                 - (ym_year p * 12 + (ym_month p - 1)))%Z) in *.
  assert (H1 : (-1522 < 100 * (dq - dp) - 3044 * delta)%Z) by lia.
  assert (H2 : (100 * (dq - dp) - 3044 * delta < 1522)%Z) by lia.
  rewrite Zlt_Qlt in H1, H2.
  rewrite inject_Z_minus, !inject_Z_mult in H1, H2.
  change (inject_Z 100) with 100 in H1, H2.
  change (inject_Z 3044) with 3044 in H1, H2.
  change (inject_Z 1522) with 1522 in H2.
  change (inject_Z (-1522)) with (-(1522)) in H1.
  replace (dq * 86400000 - dp * 86400000)%Z with ((dq - dp) * 86400000)%Z by lia.
  rewrite inject_Z_mult. change (inject_Z 86400000) with 86400000.
  assert (Hx : inject_Z (dq - dp) * 86400000 / (1000 * 60 * 60 * 24 * (3044 # 100))
               == inject_Z (dq - dp) * (100 # 3044)) by (field).
  apply Math_round_unique; rewrite Hx; lra.
Qed.

(** ** Months saved *)

Lemma originalLoop_started (l : LoanData) :
  validLoan l -> epsilon < principal l ->
  (1 <= o_paymentNumber (originalLoop l))%Z.
Proof.
  intros Hv Hbig.
  destruct (originalLoop_paid l Hv) as [_ Hle].
  assert (H : (0 <= o_paymentNumber (originalLoop l))%Z /\
              (o_paymentNumber (originalLoop l) = 0%Z ->
               o_balance (originalLoop l) = principal l)).
  { unfold originalLoop.
    apply (while_loop_invariant _ _
             (fun s => (0 <= o_paymentNumber s)%Z /\
                       (o_paymentNumber s = 0%Z -> o_balance s = principal l))).
    - intros s [Hpn _] _. cbn [fst]. unfold originalBody; cbv zeta.
      cbn [o_paymentNumber o_balance]. split; [lia | intros; lia].
    - split; [cbn; lia | reflexivity]. }
  destruct H as [H0 H1].
  destruct (Z.eq_dec (o_paymentNumber (originalLoop l)) 0) as [E |]; [| lia].
  rewrite (H1 E) in Hle. lra.
Qed.

Lemma acceleratedLoop_started (l : LoanData) (o : AccelerationOptions) :
  a_balance (acceleratedLoop l o) <= epsilon -> epsilon < principal l ->
  (1 <= a_paymentNumber (acceleratedLoop l o))%Z.
Proof.
  intros Hle Hbig.
  assert (H : (0 <= a_paymentNumber (acceleratedLoop l o))%Z /\
              (a_paymentNumber (acceleratedLoop l o) = 0%Z ->
               a_balance (acceleratedLoop l o) = principal l)).
  { unfold acceleratedLoop. cbv zeta. destruct (biweekly o).
    - apply (while_loop_invariant _ _
               (fun s => (0 <= a_paymentNumber s)%Z /\
                         (a_paymentNumber s = 0%Z -> a_balance s = principal l))).
      + intros s [Hpn _] _.
        destruct (biweeklyBody_shape l o s) as (Hp & _). cbv zeta in Hp.
        rewrite Hp. split; [lia | intros; lia].
      + split; [cbn; lia | reflexivity].
    - apply (while_loop_invariant _ _
               (fun s => (0 <= a_paymentNumber s)%Z /\
                         (a_paymentNumber s = 0%Z -> a_balance s = principal l))).
      + intros s [Hpn _] _.
        destruct (monthlyBody_shape l o s) as (Hp & _). cbv zeta in Hp.
        rewrite Hp. split; [lia | intros; lia].
      + split; [cbn; lia | reflexivity]. }
  destruct H as [H0 H1].
  destruct (Z.eq_dec (a_paymentNumber (acceleratedLoop l o)) 0) as [E |]; [| lia].
  rewrite (H1 E) in Hle. lra.
Qed.



(** ** What the accelerated schedule pays *)

Lemma sumExtra_push (l : list PaymentRecord) (x : PaymentRecord) :
  sumExtra (l ++ [x]) == sumExtra l + row_extraPayment x.
Proof.
  induction l as [| a l IH]; simpl.
  - ring.
  - fold (sumExtra (l ++ [x])). fold (sumExtra l). rewrite IH. ring.
Qed.

Lemma acceleratedLoop_paid_sum (l : LoanData) (o : AccelerationOptions) :
  sumPrincipal (a_schedule (acceleratedLoop l o))
    + sumExtra (a_schedule (acceleratedLoop l o))
  == principal l - a_balance (acceleratedLoop l o).
Proof.
  unfold acceleratedLoop. cbv zeta.
  destruct (biweekly o).
  - apply (while_loop_invariant _ _
             (fun s => sumPrincipal (a_schedule s) + sumExtra (a_schedule s)
                       == principal l - a_balance s)).
    + intros s Hs _.
      destruct (biweeklyBody_spec
                  (calculateMonthlyPayment (principal l) (annualRate l) (termYears l))
                  (annualRate l) (parseDate (startDate l)) o (lumpSumDateObjOf o) s)
        as (row & Hsch & _ & _ & _ & _ & _ & Hp & _ & _ & _ & Hb & _).
      rewrite Hsch, Hb, sumPrincipal_push, sumExtra_push, Hp. lra.
    + cbn. lra.
  - apply (while_loop_invariant _ _
             (fun s => sumPrincipal (a_schedule s) + sumExtra (a_schedule s)
                       == principal l - a_balance s)).
    + intros s Hs _.
      destruct (monthlyBody_spec
                  (calculateMonthlyPayment (principal l) (annualRate l) (termYears l))
                  (annualRate l / 100 / 12) (parseDate (startDate l)) o
                  (lumpSumDateObjOf o) s)
        as (row & Hsch & _ & _ & _ & _ & _ & Hp & _ & _ & _ & Hb & _).
      rewrite Hsch, Hb, sumPrincipal_push, sumExtra_push, Hp. lra.
    + cbn. lra.
Qed.



(** ** Balances never grow *)

Lemma Math_max0_id (x : Q) : 0 <= x -> Math_max0 x == x.
Proof. intros H. destruct (Math_max0_spec x) as [[? ->] | [_ ->]]; lra. Qed.

Lemma openingBalance_push (l : LoanData) (sched : list PaymentRecord)
    (row : PaymentRecord) :
  openingBalance l (sched ++ [row]) = row_balance row.
Proof. unfold openingBalance. now rewrite lastRow_push. Qed.

Lemma capped_step_shrinks (due b : Q) :
  0 <= b -> 0 <= due ->
  0 <= b - cappedPrincipal due b <= b.
Proof.
  intros Hb Hd. unfold cappedPrincipal.
  destruct (Qgt_bool_spec due b); lra.
Qed.

Lemma originalBody_ledger (pay r : Q) (start : JSDate) (s : OriginalVars) :
  let s' := originalBody pay r start s in
  exists row,
    o_schedule s' = o_schedule s ++ [row] /\
    row_interest row = o_balance s * r /\
    row_balance row = Math_max0 (o_balance s') /\
    o_balance s' =
      o_balance s - cappedPrincipal (pay - o_balance s * r) (o_balance s).
Proof.
  unfold originalBody; cbv zeta. cbn [o_schedule o_balance].
  eexists. split; [reflexivity |].
  cbn [row_interest row_balance]. unfold cappedPrincipal.
  splits; reflexivity.
Qed.

Section Shrinks.
Variable l : LoanData.
Variable o : AccelerationOptions.
Hypothesis Hvalid : validLoan l.

Let base := calculateMonthlyPayment (principal l) (annualRate l) (termYears l).
Let r := annualRate l / 100 / 12.
Let start := parseDate (startDate l).

Lemma base_covers_interest (b : Q) :
  0 <= b <= principal l ->
  0 <= b * r /\ b * r <= base /\
  0 <= b * (annualRate l / 100 / 365) * 14 /\
  b * (annualRate l / 100 / 365) * 14 <= base / 2.
Proof.
  destruct Hvalid as (HP & HR & HT). intros [Hb0 HbP].
  destruct (payment_covers_interest (principal l) (annualRate l) (termYears l)
              HP HR HT) as (_ & Hi & _).
  fold base r in Hi.
  pose proof (monthlyRate_nonneg (annualRate l) HR) as Hr. fold r in Hr.
  assert (H1 : b * r <= principal l * r) by (apply Qmult_le_compat_r; lra).
  assert (H2 : 0 <= b * r) by (apply Qmult_le_0_compat; lra).
  assert (H3 : b * (annualRate l / 100 / 365) * 14 == b * r * (168 # 365))
    by (unfold r; field).
  assert (H4 : base / 2 == base * (1 # 2)) by field.
  rewrite H3, H4. splits; lra.
Qed.

Lemma originalLoop_shrinks :
  EveryRow (Shrinking l) (o_schedule (originalLoop l)).
Proof.
  assert (H : (0 <= o_balance (originalLoop l) <= principal l /\
               openingBalance l (o_schedule (originalLoop l))
                 == o_balance (originalLoop l)) /\
              EveryRow (Shrinking l) (o_schedule (originalLoop l))).
  { unfold originalLoop. fold base r start.
    apply (while_loop_invariant _ _
             (fun s => (0 <= o_balance s <= principal l /\
                        openingBalance l (o_schedule s) == o_balance s) /\
                       EveryRow (Shrinking l) (o_schedule s))).
    - intros s [[Hb Hop] Hrows] _. cbn [fst].
      destruct (base_covers_interest (o_balance s) Hb) as (Hi0 & Hi & _).
      destruct (originalBody_ledger base r start s)
        as (row & Hsch & Hint & Hrb & Hb').
      destruct (capped_step_shrinks (base - o_balance s * r) (o_balance s))
        as [Hn0 Hn1]; [lra | lra |].
      rewrite <- Hb' in Hn0, Hn1.
      rewrite Hsch, openingBalance_push, Hrb.
      rewrite (Math_max0_id _ Hn0).
      split; [split; [lra | reflexivity] |].
      apply EveryRow_push; [assumption |].
      unfold Shrinking. rewrite Hint, Hrb, (Math_max0_id _ Hn0), Hop.
      splits; lra.
    - destruct Hvalid as (HP & _).
      split; [split; [cbn; lra | reflexivity] | apply EveryRow_nil]. }
  apply H.
Qed.

Lemma acceleratedLoop_shrinks :
  EveryRow (Shrinking l) (a_schedule (acceleratedLoop l o)).
Proof.
  assert (H : (0 <= a_balance (acceleratedLoop l o) <= principal l /\
               openingBalance l (a_schedule (acceleratedLoop l o))
                 == a_balance (acceleratedLoop l o)) /\
              EveryRow (Shrinking l) (a_schedule (acceleratedLoop l o))).
  { unfold acceleratedLoop. cbv zeta. fold base r start.
    destruct (biweekly o).
    - apply (while_loop_invariant _ _
               (fun s => (0 <= a_balance s <= principal l /\
                          openingBalance l (a_schedule s) == a_balance s) /\
                         EveryRow (Shrinking l) (a_schedule s))).
      + intros s [[Hb Hop] Hrows] _.
        destruct (base_covers_interest (a_balance s) Hb) as (_ & _ & Hi0 & Hi).
        destruct (biweeklyBody_spec base (annualRate l) start o (lumpSumDateObjOf o) s)
          as (row & Hsch & _ & _ & _ & Hint & Hx & _ & _ & Hrb & _ & Hb' & _).
        apply (biweekly_extra_nonneg l o s row) in Hx.
        destruct (capped_step_shrinks
                    (base / 2 - a_balance s * (annualRate l / 100 / 365) * 14
                     + row_extraPayment row) (a_balance s))
          as [Hn0 Hn1]; [lra | lra |].
        rewrite <- Hb' in Hn0, Hn1.
        rewrite Hsch, openingBalance_push, Hrb.
        rewrite (Math_max0_id _ Hn0).
        split; [split; [lra | reflexivity] |].
        apply EveryRow_push; [assumption |].
        unfold Shrinking. rewrite Hint, Hrb, (Math_max0_id _ Hn0), Hop.
        splits; lra.
      + destruct Hvalid as (HP & _).
        split; [split; [cbn; lra | reflexivity] | apply EveryRow_nil].
    - apply (while_loop_invariant _ _
               (fun s => (0 <= a_balance s <= principal l /\
                          openingBalance l (a_schedule s) == a_balance s) /\
                         EveryRow (Shrinking l) (a_schedule s))).
      + intros s [[Hb Hop] Hrows] _.
        destruct (base_covers_interest (a_balance s) Hb) as (Hi0 & Hi & _).
        destruct (monthlyBody_spec base r start o (lumpSumDateObjOf o) s)
          as (row & Hsch & _ & _ & _ & Hint & Hx & _ & _ & Hrb & _ & Hb' & _).
        apply (monthly_extra_nonneg l o s row) in Hx.
        destruct (capped_step_shrinks
                    (base - a_balance s * r + row_extraPayment row) (a_balance s))
          as [Hn0 Hn1]; [lra | lra |].
        rewrite <- Hb' in Hn0, Hn1.
        rewrite Hsch, openingBalance_push, Hrb.
        rewrite (Math_max0_id _ Hn0).
        split; [split; [lra | reflexivity] |].
        apply EveryRow_push; [assumption |].
        unfold Shrinking. rewrite Hint, Hrb, (Math_max0_id _ Hn0), Hop.
        splits; lra.
      + destruct Hvalid as (HP & _).
        split; [split; [cbn; lra | reflexivity] | apply EveryRow_nil]. }
  apply H.
Qed.
End Shrinks.

(** X14. On a loan of the data model no schedule ever amortizes negatively:
    every record of the standard schedule and of the accelerated schedule,
    in either mode and whatever the options, charges an interest that is not
    negative and leaves a balance between 0 and the balance of the record
    before it (the loan principal for the first record). *)
Theorem balances_never_grow (l : LoanData) (o : AccelerationOptions) :
  validLoan l ->
  EveryRow (Shrinking l) (schedule (generateOriginalSchedule l)) /\
  EveryRow (Shrinking l) (schedule (generateAcceleratedSchedule l o)).
Proof.
  intros Hv. cbn [generateOriginalSchedule generateAcceleratedSchedule schedule].
  split; [now apply originalLoop_shrinks | now apply acceleratedLoop_shrinks].
Qed.

Lemma balances_never_grow_witness :
  let l := mkLoanData 300000 6 30 (mkYearMonth 2024 1) in
  let o := mkAccelerationOptions 200 true 10000 (Some (mkYearMonth 2026 1)) 5000 11 in
  validLoan l /\
  EveryRow (Shrinking l) (schedule (generateAcceleratedSchedule l o)).
Proof.
  intros l o.
  assert (Hv : validLoan l) by (unfold validLoan, l; cbn; splits; (lra || lia)).
  split; [exact Hv |].
  exact (proj2 (balances_never_grow l o Hv)).
Defined.

(** ** Bi-weekly payments against the standard schedule *)

(** Two bi-weekly periods against one month, from balances in the same
    order. *)
Lemma two_periods_step (pay half rb r b1 b2 x1 x2 : Q) (int : Q -> Q) :
  half == pay * (1 # 2) -> (forall b, int b == b * rb) ->
  0 <= rb -> (1 + rb) * (1 + rb) <= 1 + r ->
  0 <= b2 -> b2 <= b1 -> 0 <= x1 -> 0 <= x2 -> 0 <= pay ->
  int b2 <= half ->
  let c1 := b2 - cappedPrincipal (half - int b2 + x1) b2 in
  let c2 := c1 - cappedPrincipal (half - int c1 + x2) c1 in
  let d := b1 - cappedPrincipal (pay - b1 * r) b1 in
  (0 <= c1 /\ c1 <= b2) /\
  (0 <= c2 /\ c2 <= d) /\
  int b2 <= b1 * r /\
  int b2 + int c1 <= b1 * r.
Proof.
  intros Ehalf Eint Hrb Hsq Hb2 Hb Hx1 Hx2 Hpay Hcov c1 c2 d.
  pose proof (Eint b2) as E2. pose proof (Eint c1) as E1.
  assert (Hrb2 : 0 <= rb * rb) by nra.
  assert (Hr2 : 2 * rb <= r) by nra.
  assert (Hr : 0 <= r) by lra.
  assert (Hb1r : b2 * r <= b1 * r) by (apply Qmult_le_compat_r; lra).
  assert (Hb2r : b2 * (2 * rb) <= b2 * r) by nra.
  assert (Hb2rb : 0 <= b2 * rb) by (apply Qmult_le_0_compat; lra).
  assert (Hc1 : 0 <= c1 /\ c1 <= b2).
  { unfold c1, cappedPrincipal.
    destruct (Qgt_bool_spec (half - int b2 + x1) b2); lra. }
  destruct Hc1 as [Hc10 Hc1b].
  assert (Hc1rb : c1 * rb <= b2 * rb) by (apply Qmult_le_compat_r; lra).
  assert (Hc1rb0 : 0 <= c1 * rb) by (apply Qmult_le_0_compat; lra).
  assert (Hd0 : 0 <= d).
  { unfold d, cappedPrincipal.
    destruct (Qgt_bool_spec (pay - b1 * r) b1); lra. }
  assert (Hd1 : b1 + b1 * r - pay <= d).
  { unfold d, cappedPrincipal.
    destruct (Qgt_bool_spec (pay - b1 * r) b1); lra. }
  assert (Hc2 : 0 <= c2 /\ (c2 <= 0 \/ c2 <= c1 + c1 * rb - pay * (1 # 2))).
  { unfold c2, cappedPrincipal.
    destruct (Qgt_bool_spec (half - int c1 + x2) c1); split; lra. }
  destruct Hc2 as [Hc20 Hc2b].
  assert (Hc1' : c1 <= 0 \/ c1 <= b2 + b2 * rb - pay * (1 # 2)).
  { unfold c1, cappedPrincipal.
    destruct (Qgt_bool_spec (half - int b2 + x1) b2); [left | right]; lra. }
  splits; lra.
Qed.

Section BiweeklyAgainstStandard.
Variable l : LoanData.
Variable o : AccelerationOptions.
Hypothesis Hvalid : validLoan l.
Hypothesis Hrate : annualRate l <= 450.

Let pay := calculateMonthlyPayment (principal l) (annualRate l) (termYears l).
Let r := annualRate l / 100 / 12.
Let n := (termYears l * 12)%Z.
Let start := parseDate (startDate l).

Let stdLoop :=
  while_loop (originalCond (termYears l))
    (fun s => (originalBody pay r start s, false)).

Let bwLoop :=
  while_loop (biweeklyCond (maxPaymentsOf l))
    (biweeklyBody pay (annualRate l) start o (lumpSumDateObjOf o)).

(** The interest of the bi-weekly loop only accumulates. *)
Lemma biweekly_step_facts (s : AccelVars) :
  0 <= a_balance s <= principal l ->
  let s' := fst (biweeklyBody pay (annualRate l) start o (lumpSumDateObjOf o) s) in
  exists x,
    0 <= x /\
    a_balance s' =
      a_balance s
      - cappedPrincipal (pay / 2 - a_balance s * (annualRate l / 100 / 365) * 14 + x)
          (a_balance s) /\
    a_cumulativeInterest s' =
      a_cumulativeInterest s + a_balance s * (annualRate l / 100 / 365) * 14 /\
    snd (biweeklyBody pay (annualRate l) start o (lumpSumDateObjOf o) s)
      = Qle_bool (a_balance s') epsilon.
Proof.
  intros Hb.
  destruct (biweeklyBody_spec pay (annualRate l) start o (lumpSumDateObjOf o) s)
    as (row & _ & _ & _ & _ & _ & Hx & _ & _ & _ & _ & Hb' & Hci & _ & _ & _ & Hbrk).
  apply (biweekly_extra_nonneg l o s row) in Hx.
  exists (row_extraPayment row). splits; assumption.
Qed.

Lemma biweekly_race (fuel1 : nat) :
  forall (fuel2 : nat) (s1 : OriginalVars) (s2 : AccelVars),
  OriginalInv l s1 ->
  (Z.to_nat (n - o_paymentNumber s1) <= fuel1)%nat ->
  o_balance s1 <= principal l ->
  0 <= a_balance s2 -> a_balance s2 <= o_balance s1 ->
  a_cumulativeInterest s2 <= o_cumulativeInterest s1 ->
  a_cumulativeInterest (bwLoop fuel2 s2) <= o_cumulativeInterest (stdLoop fuel1 s1).
Proof.
  destruct Hvalid as (HP & HR & HT).
  pose proof (monthlyRate_nonneg (annualRate l) HR) as Hr. fold r in Hr.
  pose proof epsilon_pos as Heps.
  destruct (biweeklyRate_bounds l Hvalid Hrate) as [Hrb Hsq]. fold r in Hsq.
  destruct (payment_covers_interest _ _ _ HP HR HT) as (Hpay0 & _). fold pay in Hpay0.
  assert (Hstop : forall f1 s1 s2,
            a_cumulativeInterest s2 <= o_cumulativeInterest s1 ->
            a_cumulativeInterest s2 <= o_cumulativeInterest (stdLoop f1 s1)).
  { intros f1 s1 s2 H. destruct (original_loop_grows l Hvalid f1 s1) as [_ Hg].
    fold pay r start in Hg. unfold stdLoop. lra. }
  induction fuel1 as [| fuel1 IH]; intros fuel2 s1 s2 Hinv Hfuel HbP Hb0 Hb Hci.
  - assert (Hdone : o_balance s1 <= epsilon)
      by (apply (OriginalInv_at_term l Hvalid s1 Hinv); fold n; lia).
    assert (Hc2 : biweeklyCond (maxPaymentsOf l) s2 = false).
    { unfold biweeklyCond. apply andb_false_iff. left.
      destruct (Qgt_bool_spec (a_balance s2) epsilon); [lra | reflexivity]. }
    unfold bwLoop, stdLoop. destruct fuel2; cbn [while_loop]; [| rewrite Hc2]; exact Hci.
  - destruct fuel2 as [| fuel2]; [unfold bwLoop; cbn [while_loop]; now apply Hstop |].
    destruct (biweeklyCond (maxPaymentsOf l) s2) eqn:Hc2;
      [| unfold bwLoop; cbn [while_loop]; rewrite Hc2; now apply Hstop].
    assert (Hgt2 : epsilon < a_balance s2).
    { unfold biweeklyCond in Hc2. apply andb_true_iff in Hc2. destruct Hc2 as [Hg _].
      destruct (Qgt_bool_spec (a_balance s2) epsilon); [assumption | discriminate]. }
    assert (Hlt1 : (o_paymentNumber s1 < n)%Z).
    { destruct (Z.lt_ge_cases (o_paymentNumber s1) n) as [| Hge]; [assumption |].
      pose proof (OriginalInv_at_term l Hvalid s1 Hinv Hge). lra. }
    assert (Hc1 : originalCond (termYears l) s1 = true).
    { unfold originalCond. apply andb_true_iff. split.
      - destruct (Qgt_bool_spec (o_balance s1) epsilon); [reflexivity | lra].
      - apply Z.ltb_lt. exact Hlt1. }
    pose proof (OriginalInv_step l Hvalid s1 Hinv Hc1) as Hinv'.
    fold pay r start in Hinv'.
    destruct (base_covers_interest l Hvalid (a_balance s2)) as (_ & _ & Hi0 & Hi);
      [lra |].
    fold pay in Hi.
    destruct (biweekly_step_facts s2) as (x1 & Hx1 & Hb2' & Hci2' & Hbrk2); [lra |].
    cbv zeta in Hb2', Hci2', Hbrk2.
    set (rb := biweeklyRate l) in *.
    set (int := fun b : Q => b * (annualRate l / 100 / 365) * 14).
    assert (Erb : forall b, int b == b * rb)
      by (intros b; unfold int, rb, biweeklyRate; ring).
    assert (Ehalf : pay / 2 == pay * (1 # 2)) by field.
    set (s1' := originalBody pay r start s1) in *.
    assert (Hb1' : o_balance s1' =
                   o_balance s1 - cappedPrincipal (pay - o_balance s1 * r) (o_balance s1))
      by reflexivity.
    assert (Hci1' : o_cumulativeInterest s1'
                    = o_cumulativeInterest s1 + o_balance s1 * r) by reflexivity.
    assert (Hpn1' : o_paymentNumber s1' = (o_paymentNumber s1 + 1)%Z) by reflexivity.
    unfold bwLoop, stdLoop. cbn [while_loop]. rewrite Hc1, Hc2.
    fold stdLoop. fold bwLoop.
    destruct (biweeklyBody pay (annualRate l) start o (lumpSumDateObjOf o) s2)
      as [s2' brk2] eqn:Ebody2.
    cbn [fst snd] in Hb2', Hci2', Hbrk2.
    assert (Hfirst : forall x2, 0 <= x2 ->
      let c1 := a_balance s2' in
      let c2 := c1 - cappedPrincipal (pay / 2 - int c1 + x2) c1 in
      (0 <= c1 /\ c1 <= a_balance s2) /\
      (0 <= c2 /\ c2 <= o_balance s1') /\
      int (a_balance s2) <= o_balance s1 * r /\
      int (a_balance s2) + int c1 <= o_balance s1 * r).
    { intros x2 Hx2. cbv zeta.
      pose proof (two_periods_step pay (pay / 2) rb r (o_balance s1) (a_balance s2)
                    x1 x2 int Ehalf Erb Hrb Hsq Hb0 Hb Hx1 Hx2) as Hstep.
      cbv zeta in Hstep. rewrite Hb2', Hb1'.
      apply Hstep; [lra | exact Hi]. }
    destruct (Hfirst 0 ltac:(lra)) as ((Hc10 & Hc1b) & _ & Hint1 & _).
    assert (Hci2le : a_cumulativeInterest s2' <= o_cumulativeInterest s1').
    { rewrite Hci2', Hci1'. fold (int (a_balance s2)). lra. }
    assert (Hstop' : a_cumulativeInterest s2' <= o_cumulativeInterest (stdLoop fuel1 s1'))
      by now apply Hstop.
    destruct brk2; [exact Hstop' |].
    destruct fuel2 as [| fuel2]; [unfold bwLoop; cbn [while_loop]; exact Hstop' |].
    destruct (biweeklyCond (maxPaymentsOf l) s2') eqn:Hc2';
      [| unfold bwLoop; cbn [while_loop]; rewrite Hc2'; exact Hstop'].
    destruct (biweekly_step_facts s2') as (x2 & Hx2 & Hb2'' & Hci2'' & Hbrk2'); [lra |].
    cbv zeta in Hb2'', Hci2'', Hbrk2'.
    destruct (Hfirst x2 Hx2) as (_ & (Hc20 & Hc2d) & _ & Hint2).
    cbv zeta in Hc20, Hc2d. unfold int in Hc20, Hc2d.
    rewrite <- Hb2'' in Hc20, Hc2d.
    unfold bwLoop. cbn [while_loop]. rewrite Hc2'. fold bwLoop.
    destruct (biweeklyBody pay (annualRate l) start o (lumpSumDateObjOf o) s2')
      as [s2'' brk2'] eqn:Ebody2'.
    cbn [fst snd] in Hb2'', Hci2'', Hbrk2', Hc20, Hc2d.
    assert (Hci2le' : a_cumulativeInterest s2'' <= o_cumulativeInterest s1').
    { rewrite Hci2'', Hci2', Hci1'.
      fold (int (a_balance s2)). fold (int (a_balance s2')). lra. }
    destruct brk2'; [now apply Hstop |].
    apply (IH fuel2 s1' s2''); try assumption.
    + rewrite Hpn1'. lia.
    + destruct Hinv' as (_ & _ & Hb0' & _).
      rewrite Hb1'. pose proof (cappedPrincipal_le (pay - o_balance s1 * r) (o_balance s1)).
      destruct (capped_step_shrinks (pay - o_balance s1 * r) (o_balance s1)); try lra.
      destruct (base_covers_interest l Hvalid (o_balance s1)) as (_ & Hcov & _);
        [lra |]. fold pay r in Hcov. lra.
Qed.

Lemma biweekly_not_behind_standard :
  biweekly o = true ->
  a_cumulativeInterest (acceleratedLoop l o) <= o_cumulativeInterest (originalLoop l).
Proof.
  destruct Hvalid as (HP & HR & HT).
  intros Hbw. unfold acceleratedLoop, originalLoop. rewrite Hbw.
  fold pay r start.
  apply biweekly_race.
  - apply OriginalInv_init. exact Hvalid.
  - cbn [originalInit o_paymentNumber]. unfold n. lia.
  - cbn. lra.
  - cbn. lra.
  - cbn. lra.
  - cbn. lra.
Qed.
End BiweeklyAgainstStandard.



(** ** The annual extra payment *)

Lemma getMonth_monthlyPaymentDate (p : YearMonth) (k : Z) :
  validPeriod p ->
  getMonth (monthlyPaymentDate (parseDate p) k) = ((ym_month p - 1 + (k - 1)) mod 12)%Z.
Proof.
  intros Hp.
  destruct (monthlyPaymentDate_addMonths p k Hp) as [H _]. rewrite H.
  destruct (civil_of_parseDate (addMonths p (k - 1)) (validPeriod_addMonths p (k - 1)))
    as (_ & Hm & _).
  rewrite Hm. unfold addMonths; cbn [ym_month]. lia.
Qed.



(** ** The annual extra payment in bi-weekly mode *)

Section CalendarDays.
Local Open Scope Z_scope.

(** The civil date of one of the first 28 days of a month. *)
Lemma civil_from_days_day (y m d : Z) :
  1 <= m <= 12 -> 1 <= d <= 28 ->
  civil_from_days (days_from_civil y m d) = (y, m, d).
Proof.
  intros Hm Hd. unfold civil_from_days, days_from_civil. cbv zeta.
  set (y' := if m <=? 2 then y - 1 else y).
  set (era := y' / 400).
  set (yoe := y' - era * 400).
  set (mp := if 2 <? m then m - 3 else m + 9).
  set (doy := (153 * mp + 2) / 5 + d - 1).
  set (doe := yoe * 365 + yoe / 4 - yoe / 100 + doy).
  assert (Hyoe : 0 <= yoe <= 399).
  { unfold yoe, era. Z.to_euclidean_division_equations; lia. }
  assert (Hmp : 0 <= mp <= 11 /\ (m <= 2 <-> 10 <= mp)).
  { unfold mp. destruct (Z.ltb_spec 2 m); lia. }
  assert (Hdoy : 0 <= doy <= 364 /\ (5 * doy + 2) / 153 = mp
                 /\ doy - (153 * mp + 2) / 5 + 1 = d).
  { unfold doy. Z.to_euclidean_division_equations; lia. }
  assert (Hdoe : 0 <= doe < 146097).
  { unfold doe. Z.to_euclidean_division_equations; lia. }
  replace (era * 146097 + doe - 719468 + 719468) with (doe + era * 146097) by lia.
  rewrite Z.div_add by lia. rewrite (Z.div_small doe) by lia.
  replace (doe + era * 146097 - (0 + era) * 146097) with doe by lia.
  assert (Hy : (doe - doe / 1460 + doe / 36524 - doe / 146096) / 365 = yoe).
  { unfold doe. Z.to_euclidean_division_equations; lia. }
  rewrite Hy.
  replace (doe - (365 * yoe + yoe / 4 - yoe / 100)) with doy by (unfold doe; lia).
  destruct Hdoy as (_ & Hmp' & Hday). rewrite Hmp', Hday.
  assert (Hera : yoe + (0 + era) * 400 = y') by (unfold yoe; lia).
  rewrite Hera.
  unfold mp, y'.
  destruct (Z.ltb_spec 2 m); destruct (Z.leb_spec m 2); try lia.
  - replace (m - 3 <? 10) with true by (symmetry; apply Z.ltb_lt; lia).
    replace (m - 3 + 3 <=? 2) with false by (symmetry; apply Z.leb_gt; lia).
    f_equal. f_equal. lia.
  - replace (m + 9 <? 10) with false by (symmetry; apply Z.ltb_ge; lia).
    replace (m + 9 - 9 <=? 2) with true by (symmetry; apply Z.leb_le; lia).
    f_equal. f_equal; lia.
Qed.

Lemma getDate_range (z : Z) : 1 <= getDate z <= 31.
Proof.
  unfold getDate, civil_from_days. cbv zeta. cbn [fst snd].
  set (z' := z + 719468).
  set (era := z' / 146097).
  set (doe := z' - era * 146097).
  assert (Hdoe : 0 <= doe < 146097).
  { unfold doe, era. Z.to_euclidean_division_equations; lia. }
  set (yoe := (doe - doe / 1460 + doe / 36524 - doe / 146096) / 365).
  set (doy := doe - (365 * yoe + yoe / 4 - yoe / 100)).
  assert (Hdoy : 0 <= doy <= 365).
  { unfold doy, yoe. Z.to_euclidean_division_equations; lia. }
  set (mp := (5 * doy + 2) / 153).
  unfold mp. Z.to_euclidean_division_equations; lia.
Qed.

(** Fourteen days back is the same month exactly from the 15th on. *)
Lemma same_month_two_weeks_back (z : Z) :
  monthIndex (z - 14) = monthIndex z <-> 15 <= getDate z.
Proof.
  pose proof (civil_from_days_inverse z) as Hz.
  pose proof (civil_from_days_inverse (z - 14)) as Hz'.
  pose proof (getMonth_range z) as Hm.
  pose proof (getMonth_range (z - 14)) as Hm'.
  pose proof (getDate_range z) as Hd.
  pose proof (getDate_range (z - 14)) as Hd'.
  assert (Hlin : forall y m a b,
            days_from_civil y m a - days_from_civil y m b = a - b).
  { intros y m a b. unfold days_from_civil. cbv zeta. lia. }
  split.
  - intros E. unfold monthIndex in E.
    assert (Ey : getFullYear (z - 14) = getFullYear z) by lia.
    assert (Em : getMonth (z - 14) = getMonth z) by lia.
    rewrite Ey, Em in Hz'.
    pose proof (Hlin (getFullYear z) (getMonth z + 1) (getDate z) (getDate (z - 14))).
    lia.
  - intros H15.
    assert (E : z - 14 = days_from_civil (getFullYear z) (getMonth z + 1) (getDate z - 14)).
    { pose proof (Hlin (getFullYear z) (getMonth z + 1) (getDate z) (getDate z - 14)).
      lia. }
    assert (Hc : civil_from_days (z - 14)
                 = (getFullYear z, getMonth z + 1, getDate z - 14)).
    { rewrite E at 1. apply civil_from_days_day; lia. }
    unfold monthIndex, getFullYear, getMonth. rewrite Hc. cbn [fst snd].
    unfold getFullYear, getMonth. lia.
Qed.
End CalendarDays.

Lemma annualDueBiweekly_first_half (o : AccelerationOptions)
    (prev : option PaymentRecord) (d : JSDate) :
  match prev with
  | Some p => row_dateObj p = (d - 14)%Z
  | None => getDate d = 1%Z
  end ->
  annualDueBiweekly o prev d
  = Qgt_bool (annualExtra o) 0 && (getMonth d =? annualExtraMonth o)%Z
    && (getDate d <=? 14)%Z.
Proof.
  intros Hprev. unfold annualDueBiweekly.
  destruct (Qgt_bool (annualExtra o) 0); [| reflexivity].
  destruct (Z.eqb_spec (getMonth d) (annualExtraMonth o)) as [Em | Em];
    [| reflexivity].
  cbn [andb]. destruct prev as [p |].
  - rewrite Hprev, <- Em.
    pose proof (same_month_two_weeks_back d) as Hsame.
    pose proof (getMonth_range d). pose proof (getMonth_range (d - 14)%Z).
    unfold monthIndex in Hsame.
    destruct (Z.eqb_spec (getMonth (d - 14)%Z) (getMonth d));
      destruct (Z.eqb_spec (getFullYear (d - 14)%Z) (getFullYear d));
      destruct (Z.leb_spec (getDate d) 14); cbn; try reflexivity; lia.
  - rewrite Hprev. reflexivity.
Qed.



(** ** The text of the time saved *)

Lemma countText_head (z : Z) (unit rest : string) :
  (0 < z)%Z -> (countText z unit ++ rest)%string <> "No time saved"%string.
Proof.
  intros Hz. destruct z as [| p |]; try lia.
  unfold countText, numberText, Z.to_int, NilZero.string_of_int,
    NilZero.string_of_uint.
  destruct (Pos.to_uint p); cbn; discriminate.
Qed.

Lemma countText_not_none (z : Z) (unit : string) :
  (0 < z)%Z -> countText z unit <> "No time saved"%string.
Proof.
  intros Hz H. apply (countText_head z unit EmptyString Hz).
  assert (E : forall t : string, (t ++ EmptyString)%string = t)
    by (induction t as [| c t IH]; cbn; [reflexivity | now rewrite IH]).
  rewrite E. exact H.
Qed.

(** X18. The text [calculateSavings] gives for the time saved is
    "No time saved" exactly when [monthsSaved] is zero or negative; a
    negative difference is never worded as a duration. *)
Theorem timeSavedText_none (originalResult acceleratedResult : ScheduleResult) :
  timeSavedText originalResult acceleratedResult = "No time saved"%string <->
  (monthsSaved (calculateSavings originalResult acceleratedResult) <= 0)%Z.
Proof.
  unfold timeSavedText. cbv zeta.
  set (s := calculateSavings originalResult acceleratedResult).
  assert (Hy : yearsSaved s = (monthsSaved s / 12)%Z)
    by (subst s; unfold calculateSavings; cbv zeta; cbn [monthsSaved yearsSaved];
        apply Math_floor_div12).
  assert (Hr : remainingMonths s = Z.rem (monthsSaved s) 12)
    by (subst s; unfold calculateSavings; cbv zeta; reflexivity).
  rewrite Hy, Hr. clearbody s.
  set (m := monthsSaved s). clearbody m.
  unfold timeSavedTextOf.
  destruct (Z.ltb_spec 0 (m / 12)) as [Hq | Hq].
  - assert (Hm : (0 < m)%Z) by (Z.to_euclidean_division_equations; lia).
    split; [| lia]. intros H. exfalso. revert H.
    destruct (Z.ltb_spec 0 (Z.rem m 12)).
    + now apply countText_head.
    + now apply countText_not_none.
  - destruct (Z.ltb_spec 0 (Z.rem m 12)) as [Hrem | Hrem].
    + assert (Hm : (0 < m)%Z).
      { destruct (Z.lt_ge_cases 0 m) as [| Hle]; [assumption |].
        pose proof (Z.rem_nonpos m 12 ltac:(lia) ltac:(lia)). lia. }
      split; [| lia]. intros H. exfalso. revert H. now apply countText_not_none.
    + split; [intros _ | reflexivity].
      destruct (Z.lt_ge_cases 0 m) as [Hpos |]; [| lia].
      rewrite Z.rem_mod_nonneg in Hrem by lia.
      Z.to_euclidean_division_equations; lia.
Qed.

(** ** Bounds of the monthly payment *)

Lemma bernoulli (r : Q) (k : nat) :
  0 <= r -> 1 + inject_Z (Z.of_nat k) * r <= (1 + r) ^ Z.of_nat k.
Proof.
  intros Hr. induction k as [| k IH].
  - change (1 + 0 * r <= 1). lra.
  - rewrite Qpower_succ by lra. rewrite Nat2Z.inj_succ. unfold Z.succ.
    rewrite inject_Z_plus. change (inject_Z 1) with 1.
    assert (Hk : 0 <= inject_Z (Z.of_nat k)).
    { change 0 with (inject_Z 0). rewrite <- Zle_Qle. lia. }
    set (y := (1 + r) ^ Z.of_nat k) in *.
    set (c := inject_Z (Z.of_nat k)) in *.
    assert (Hy : (1 + c * r) * (1 + r) <= y * (1 + r))
      by (apply Qmult_le_compat_r; lra).
    assert (Hcr : 0 <= c * (r * r))
      by (apply Qmult_le_0_compat; [lra | apply Qmult_le_0_compat; lra]).
    assert (E : (1 + c * r) * (1 + r) == 1 + (c + 1) * r + c * (r * r)) by ring.
    lra.
Qed.

Lemma payment_upper_bound (P R : Q) (T : Z) :
  0 < P -> 0 <= R -> (0 < T)%Z ->
  calculateMonthlyPayment P R T
    <= P * (R / 100 / 12) + P / inject_Z (T * 12).
Proof.
  intros HP HR HT.
  assert (Hn : 0 < inject_Z (T * 12)).
  { change 0 with (inject_Z 0). rewrite <- Zlt_Qlt. lia. }
  destruct (Qeq_bool_spec R 0) as [H0 | H0].
  - rewrite calculateMonthlyPayment_zero_rate by assumption.
    rewrite monthlyRate_scale, H0.
    set (q := P / inject_Z (T * 12)). lra.
  - set (r := R / 100 / 12).
    assert (Hr : 0 < r) by (unfold r; rewrite monthlyRate_scale; lra).
    set (pay := calculateMonthlyPayment P R T).
    assert (Hx : 1 < (1 + r) ^ (T * 12)) by (apply Qpower_1_lt; [lra | lia]).
    assert (Hpay : pay * ((1 + r) ^ (T * 12) - 1) == P * r * (1 + r) ^ (T * 12)).
    { unfold pay. rewrite calculateMonthlyPayment_annuity by assumption.
      fold r. field. lra. }
    pose proof (bernoulli r (Z.to_nat (T * 12)) ltac:(lra)) as Hb.
    rewrite Z2Nat.id in Hb by lia.
    set (x := (1 + r) ^ (T * 12)) in *.
    set (n := inject_Z (T * 12)) in *.
    assert (Hq : P / n * n == P) by (field; lra).
    set (q := P / n) in *.
    assert (Hq0 : 0 < q).
    { destruct (Qlt_le_dec 0 q) as [| Hle]; [assumption |]. exfalso.
      assert (q * n <= 0) by nra. lra. }
    (* (P r + q - pay) (x - 1) = q (x - 1) - P r >= q n r - P r = 0 *)
    assert (E : (P * r + q - pay) * (x - 1) == q * (x - 1) - P * r) by lra.
    assert (Hge : q * (n * r) <= q * (x - 1)) by nra.
    assert (Hqn : q * (n * r) == P * r) by (rewrite <- Hq; ring).
    destruct (Qlt_le_dec (P * r + q) pay) as [Hlt |]; [| assumption].
    exfalso. assert ((P * r + q - pay) * (x - 1) < 0) by nra. lra.
Qed.



(** ** The live preview against the standard schedule *)

Lemma addMonths_addMonths (p : YearMonth) (a b : Z) :
  addMonths (addMonths p a) b = addMonths p (a + b).
Proof.
  unfold addMonths; cbn [ym_year ym_month]. f_equal;
    Z.to_euclidean_division_equations; lia.
Qed.

Lemma updateLivePreview_formOf (l : LoanData) :
  0 < principal l -> 0 < annualRate l -> (0 < termYears l)%Z ->
  updateLivePreview (formOf l)
  = Some {| previewPayment :=
              calculateMonthlyPayment (principal l) (annualRate l) (termYears l);
            previewInterest :=
              calculateMonthlyPayment (principal l) (annualRate l) (termYears l)
                * inject_Z (termYears l * 12) - principal l;
            previewPayoff :=
              formatDate
                (setMonth (parseDate (startDate l))
                   (getMonth (parseDate (startDate l)) + termYears l * 12)) |}.
Proof.
  intros HP HR HT. unfold updateLivePreview, formOf.
  cbn [data_principal data_annualRate data_termYears data_startDate].
  destruct (Qgt_bool_spec (principal l) 0); [| lra].
  destruct (Qgt_bool_spec (annualRate l) 0); [| lra].
  destruct (Z.ltb_spec 0 (termYears l)); [| lia].
  reflexivity.
Qed.

Lemma setMonth_shift (start : JSDate) (n : Z) :
  setMonth start (getMonth start + n) = monthlyPaymentDate start (n + 1).
Proof. unfold monthlyPaymentDate. f_equal. lia. Qed.

Lemma preview_payoff_month (p : YearMonth) (n : Z) :
  validPeriod p ->
  formatDate (setMonth (parseDate p) (getMonth (parseDate p) + n))
  = addMonths p n.
Proof.
  intros Hp.
  destruct (monthlyPaymentDate_addMonths p (n + 1) Hp) as [_ Hd].
  rewrite setMonth_shift, Hd. f_equal. lia.
Qed.



(** ** The pages of the table *)

Lemma Math_ceil_div (a b : Z) :
  (0 < b)%Z -> Math_ceil (inject_Z a / inject_Z b) = ((a + b - 1) / b)%Z.
Proof.
  intros Hb. destruct b as [| p |]; try lia.
  unfold Math_ceil, Qceiling, Qfloor, Qdiv, Qmult, Qinv, Qopp, inject_Z.
  cbn [Qnum Qden]. rewrite Z.mul_1_r. cbn [Pos.mul].
  Z.to_euclidean_division_equations; nia.
Qed.

Lemma firstn_plus {A : Type} (a b : nat) (l : list A) :
  firstn (a + b) l = firstn a l ++ firstn b (skipn a l).
Proof.
  revert l. induction a as [| a IH]; intros l; [reflexivity |].
  destruct l as [| x l]; cbn.
  - now rewrite firstn_nil.
  - now rewrite IH.
Qed.

Lemma pageData_chunk {A : Type} (schedule : list A) (k : nat) (rowsPerPage : Z) :
  (0 < rowsPerPage)%Z ->
  pageData schedule (Z.of_nat k + 1) rowsPerPage
  = firstn (Z.to_nat rowsPerPage) (skipn (k * Z.to_nat rowsPerPage) schedule).
Proof.
  intros Hr. unfold pageData, slice. cbv zeta.
  set (len := length schedule).
  replace (Z.of_nat k + 1 - 1)%Z with (Z.of_nat k) by lia.
  destruct (Z.ltb_spec (Z.of_nat k * rowsPerPage) 0) as [Hneg |]; [nia |].
  destruct (Z.ltb_spec (Z.of_nat k * rowsPerPage + rowsPerPage) 0) as [Hneg |]; [nia |].
  destruct (Nat.le_gt_cases len (k * Z.to_nat rowsPerPage)) as [Hout | Hin].
  - rewrite (skipn_all2 schedule) by (fold len; nia).
    rewrite (skipn_all2 schedule) by (fold len; nia).
    now rewrite !firstn_nil.
  - replace (Z.to_nat (Z.min (Z.of_nat k * rowsPerPage) (Z.of_nat len)))
      with (k * Z.to_nat rowsPerPage)%nat by nia.
    set (rest := skipn (k * Z.to_nat rowsPerPage) schedule).
    assert (Hrest : length rest = (len - k * Z.to_nat rowsPerPage)%nat)
      by (unfold rest; apply length_skipn).
    destruct (Z.le_gt_cases (Z.of_nat k * rowsPerPage + rowsPerPage) (Z.of_nat len)).
    + f_equal. nia.
    + rewrite (firstn_all2 (n := Z.to_nat rowsPerPage)) by nia.
      apply firstn_all2. nia.
Qed.

Lemma pages_concat {A : Type} (schedule : list A) (r m : nat) :
  concat (map (fun k => firstn r (skipn (k * r) schedule)) (seq 0 m))
  = firstn (m * r) schedule.
Proof.
  induction m as [| m IH]; [reflexivity |].
  rewrite seq_S, map_app, concat_app, IH. cbn [map concat Nat.add].
  rewrite app_nil_r.
  replace (Datatypes.S m * r)%nat with (m * r + r)%nat by lia.
  now rewrite firstn_plus.
Qed.

Lemma totalPagesOf_bounds {A : Type} (schedule : list A) (rowsPerPage : Z) :
  (0 < rowsPerPage)%Z ->
  let m := totalPagesOf schedule rowsPerPage in
  (0 <= m /\ (m - 1) * rowsPerPage < Z.of_nat (length schedule) + 0 * m
   /\ Z.of_nat (length schedule) <= m * rowsPerPage)%Z.
Proof.
  intros Hr. cbv zeta. unfold totalPagesOf.
  rewrite Math_ceil_div by assumption.
  Z.to_euclidean_division_equations; nia.
Qed.

Lemma page_lengths {A : Type} (schedule : list A) (rowsPerPage page : Z) :
  (0 < rowsPerPage)%Z ->
  (1 <= page <= totalPagesOf schedule rowsPerPage)%Z ->
  (1 <= Z.of_nat (length (pageData schedule page rowsPerPage)) <= rowsPerPage)%Z.
Proof.
  intros Hr Hp.
  pose proof (totalPagesOf_bounds schedule rowsPerPage Hr) as Hm. cbv zeta in Hm.
  set (m := totalPagesOf schedule rowsPerPage) in *.
  replace page with (Z.of_nat (Z.to_nat (page - 1)) + 1)%Z by lia.
  rewrite pageData_chunk by assumption.
  rewrite length_firstn, length_skipn. nia.
Qed.

(** X21. With a positive number of rows per page, the pages 1 to
    [totalPages] of the table, one after the other, are the schedule: no
    record is shown twice or left out; each page has at most [rowsPerPage]
    records and none of them is empty. *)
Theorem pages_partition_schedule {A : Type} (schedule : list A) (rowsPerPage : Z) :
  (0 < rowsPerPage)%Z ->
  let totalPages := totalPagesOf schedule rowsPerPage in
  concat (map (fun k => pageData schedule (Z.of_nat k + 1) rowsPerPage)
            (seq 0 (Z.to_nat totalPages)))
  = schedule /\
  (forall page, (1 <= page <= totalPages)%Z ->
     (1 <= Z.of_nat (length (pageData schedule page rowsPerPage)) <= rowsPerPage)%Z).
Proof.
  intros Hr totalPages. subst totalPages.
  pose proof (totalPagesOf_bounds schedule rowsPerPage Hr) as Hm. cbv zeta in Hm.
  set (m := totalPagesOf schedule rowsPerPage) in *.
  split.
  - rewrite (map_ext _ (fun k => firstn (Z.to_nat rowsPerPage)
                                   (skipn (k * Z.to_nat rowsPerPage) schedule)))
      by (intros k; now apply pageData_chunk).
    rewrite pages_concat. apply firstn_all2. nia.
  - intros page Hp. now apply page_lengths.
Qed.

Lemma pages_partition_schedule_witness :
  (0 < 12)%Z /\
  concat (map (fun k => pageData [1; 2; 3]%nat (Z.of_nat k + 1) 12)
            (seq 0 (Z.to_nat (totalPagesOf [1; 2; 3]%nat 12))))
  = [1; 2; 3]%nat.
Proof.
  assert (H : (0 < 12)%Z) by reflexivity.
  split; [exact H |].
  exact (proj1 (pages_partition_schedule [1; 2; 3]%nat 12 H)).
Defined.

(** X22. Whatever page the table is on and whichever way it is turned,
    [changePage] leaves it on a page from 1 to [totalPages] when the
    schedule has records, and that page shows at least one record; on an
    empty schedule it leaves it on page 1. *)
Theorem changePage_stays_on_a_page {A : Type} (schedule : list A)
    (rowsPerPage currentPage direction : Z) :
  (0 < rowsPerPage)%Z ->
  let page := changePage schedule rowsPerPage currentPage direction in
  (schedule = [] -> page = 1%Z) /\
  (schedule <> [] ->
   (1 <= page <= totalPagesOf schedule rowsPerPage)%Z /\
   pageData schedule page rowsPerPage <> []).
Proof.
  intros Hr page. subst page. unfold changePage. cbv zeta.
  pose proof (totalPagesOf_bounds schedule rowsPerPage Hr) as Hb. cbv zeta in Hb.
  set (m := totalPagesOf schedule rowsPerPage) in *.
  split.
  - intros E. rewrite E in Hb. cbn [length] in Hb.
    assert (m = 0%Z) by nia.
    lia.
  - intros Hne.
    assert (Hlen : (0 < Z.of_nat (length schedule))%Z)
      by (destruct schedule; [contradiction | cbn; lia]).
    assert (Hm : (1 <= m)%Z) by nia.
    set (page := Z.max 1 (Z.min m (currentPage + direction))).
    assert (Hp : (1 <= page <= m)%Z) by (unfold page; lia).
    split; [exact Hp |].
    destruct (page_lengths schedule rowsPerPage page Hr Hp) as [H1 _].
    intros E. rewrite E in H1. cbn in H1. lia.
Qed.

Lemma changePage_stays_on_a_page_witness :
  (0 < 12)%Z /\
  (1 <= changePage [1; 2; 3]%nat 12 1 1 <= totalPagesOf [1; 2; 3]%nat 12)%Z.
Proof.
  assert (H : (0 < 12)%Z) by reflexivity.
  split; [exact H |].
  refine (proj1 (proj2 (changePage_stays_on_a_page [1; 2; 3]%nat 12 1 1 H) _)).
  discriminate.
Defined.

(** ** Sampling for the charts *)

Lemma rowsAt_seq_from {A : Type} (l pre : list A) :
  rowsAt (pre ++ l) (seq (length pre) (length l)) = l.
Proof.
  revert pre. induction l as [| x l IH]; intros pre; [reflexivity |].
  cbn [length seq]. unfold rowsAt. cbn [flat_map].
  rewrite nth_error_app2, Nat.sub_diag by lia. cbn [nth_error app]. f_equal.
  specialize (IH (pre ++ [x])). rewrite <- app_assoc in IH. cbn [app] in IH.
  rewrite length_app in IH. cbn [length] in IH. rewrite Nat.add_1_r in IH.
  exact IH.
Qed.

Lemma rows_at_seq {A : Type} (schedule : list A) :
  rowsAt schedule (seq 0 (length schedule)) = schedule.
Proof. exact (rowsAt_seq_from schedule []). Qed.

Lemma rows_at_length {A : Type} (schedule : list A) (ps : list nat) :
  Forall (fun p => (p < length schedule)%nat) ps ->
  length (rowsAt schedule ps) = length ps.
Proof.
  unfold rowsAt.
  induction 1 as [| p ps Hp _ IH]; [reflexivity |].
  cbn [flat_map]. rewrite length_app, IH.
  destruct (nth_error schedule p) eqn:E; [reflexivity |].
  apply nth_error_None in E. lia.
Qed.

(** The loop keeps the multiples of [step] below [len]. *)
Lemma sampleLoop_multiples (len step : nat) :
  (1 <= step)%nat ->
  exists j,
    snd (sampleLoop len step) = map (fun k => k * step)%nat (seq 0 j) /\
    (len <= j * step)%nat /\
    (j = 0%nat \/ ((j - 1) * step < len)%nat).
Proof.
  intros Hstep. unfold sampleLoop.
  set (cond := fun s : nat * list nat => fst s <? len).
  set (body := fun s : nat * list nat =>
                 ((fst s + step, snd s ++ [fst s])%nat, false)).
  assert (Hrun : WhileRun cond body (0%nat, []) (while_loop cond body len (0%nat, []))).
  { apply (while_loop_runs cond body (fun s => (len - fst s)%nat)).
    - intros s Hc. unfold cond in Hc. apply Nat.ltb_lt in Hc.
      unfold body; cbn [fst]. lia.
    - cbn [fst]. lia. }
  assert (Hinv : exists j,
            fst (while_loop cond body len (0%nat, [])) = (j * step)%nat /\
            snd (while_loop cond body len (0%nat, []))
              = map (fun k => k * step)%nat (seq 0 j) /\
            (j = 0%nat \/ ((j - 1) * step < len)%nat)).
  { apply (while_loop_invariant cond body
             (fun s => exists j, fst s = (j * step)%nat /\
                                 snd s = map (fun k => k * step)%nat (seq 0 j) /\
                                 (j = 0%nat \/ ((j - 1) * step < len)%nat))).
    - intros s (j & Hi & Hs & _) Hc. unfold cond in Hc. apply Nat.ltb_lt in Hc.
      exists (Datatypes.S j). unfold body; cbn [fst snd]. splits.
      + rewrite Hi. lia.
      + rewrite seq_S, map_app, Hs, Hi. reflexivity.
      + right. replace (Datatypes.S j - 1)%nat with j by lia. lia.
    - exists 0%nat. splits; auto. }
  destruct Hinv as (j & Hi & Hs & Hj).
  exists j. splits; try assumption.
  destruct (WhileRun_stop _ _ _ _ Hrun) as [Hc | (s0 & _ & Hb)].
  - apply Nat.ltb_ge in Hc. rewrite <- Hi. exact Hc.
  - unfold body in Hb. discriminate.
Qed.

Lemma nth_error_multiples (step j a : nat) :
  nth_error (map (fun k => k * step)%nat (seq 0 j)) a
  = if a <? j then Some (a * step)%nat else None.
Proof.
  induction j as [| j IH].
  - cbn. destruct a; reflexivity.
  - rewrite seq_S, map_app. cbn [map Nat.add].
    assert (Hlen : length (map (fun k => k * step)%nat (seq 0 j)) = j)
      by now rewrite length_map, length_seq.
    destruct (Nat.ltb_spec a j) as [Hlt | Hge].
    + rewrite nth_error_app1 by lia. rewrite IH.
      destruct (Nat.ltb_spec a j); [| lia].
      destruct (Nat.ltb_spec a (Datatypes.S j)); [reflexivity | lia].
    + rewrite nth_error_app2 by lia. rewrite Hlen.
      destruct (Nat.ltb_spec a (Datatypes.S j)) as [Hlt' | Hge'].
      * replace (a - j)%nat with 0%nat by lia. cbn. f_equal. nia.
      * destruct (a - j)%nat as [| [| d]] eqn:E; try lia; reflexivity.
Qed.

Lemma rows_at_nth {A : Type} (schedule : list A) (ps : list nat) (k : nat) :
  Forall (fun p => (p < length schedule)%nat) ps ->
  nth_error (rowsAt schedule ps) k
  = match nth_error ps k with
    | Some p => nth_error schedule p
    | None => None
    end.
Proof.
  intros H. revert k. unfold rowsAt. induction H as [| p ps Hp _ IH]; intros k.
  - destruct k; reflexivity.
  - cbn [flat_map].
    destruct (nth_error schedule p) as [row |] eqn:E;
      [| apply nth_error_None in E; lia].
    destruct k as [| k]; cbn; [now rewrite E | apply IH].
Qed.

Lemma sampleStep_bounds (len maxPoints : nat) :
  (1 <= maxPoints)%nat -> (maxPoints < len)%nat ->
  let step :=
    Z.to_nat (Math_ceil (inject_Z (Z.of_nat len) / inject_Z (Z.of_nat maxPoints))) in
  (1 <= step)%nat /\ (len <= step * maxPoints)%nat.
Proof.
  intros H1 H2. cbv zeta. rewrite Math_ceil_div by lia.
  set (q := ((Z.of_nat len + Z.of_nat maxPoints - 1) / Z.of_nat maxPoints)%Z).
  assert (Hq : (1 <= q /\ Z.of_nat len <= q * Z.of_nat maxPoints)%Z)
    by (unfold q; Z.to_euclidean_division_equations; nia).
  split; nia.
Qed.

Lemma samplePositions_sampled (len maxPoints : nat) :
  (1 <= maxPoints)%nat -> (maxPoints < len)%nat ->
  exists step j,
    (1 <= step)%nat /\ (1 <= j <= maxPoints)%nat /\ ((j - 1) * step < len)%nat /\
    samplePositions len maxPoints
    = map (fun k => k * step)%nat (seq 0 j)
      ++ (if (j - 1) * step =? len - 1 then [] else [(len - 1)%nat]).
Proof.
  intros H1 H2. unfold samplePositions.
  destruct (Nat.leb_spec len maxPoints); [lia |]. cbv zeta.
  destruct (sampleStep_bounds len maxPoints H1 H2) as [Hs1 Hs2]. cbv zeta in Hs1, Hs2.
  set (step := Z.to_nat (Math_ceil (inject_Z (Z.of_nat len)
                                    / inject_Z (Z.of_nat maxPoints)))) in *.
  destruct (sampleLoop_multiples len step Hs1) as (j & Hsampled & Hend & Hj).
  assert (Hj1 : (1 <= j)%nat) by (destruct j; [cbn in Hend; lia | lia]).
  destruct Hj as [| Hj]; [lia |].
  exists step, j. splits; try assumption; try lia.
  - nia.
  - rewrite Hsampled. rewrite length_map, length_seq.
    rewrite nth_error_multiples.
    destruct (Nat.ltb_spec (j - 1) j); [| lia].
    destruct ((j - 1) * step =? len - 1)%nat; [now rewrite app_nil_r | reflexivity].
Qed.

(** X23. [sampleData] with a limit of at least one point returns the
    schedule itself when it has no more records than the limit; otherwise
    it returns records of the schedule in their order, none of them twice:
    at most one more than the limit, the first record first and the last
    record last. *)
Theorem sampleData_keeps_ends {A : Type} (schedule : list A) (maxPoints : nat) :
  (1 <= maxPoints)%nat ->
  let len := length schedule in
  let ps := samplePositions len maxPoints in
  let sampled := sampleData schedule maxPoints in
  (Increasing ps /\
   forall k, nth_error sampled k
             = match nth_error ps k with
               | Some p => nth_error schedule p
               | None => None
               end) /\
  ((len <= maxPoints)%nat -> sampled = schedule) /\
  ((maxPoints < len)%nat ->
   (length sampled <= maxPoints + 1)%nat /\
   nth_error sampled 0 = nth_error schedule 0 /\
   nth_error sampled (length sampled - 1) = nth_error schedule (len - 1)).
Proof.
  intros H1 len ps sampled.
  destruct (Nat.le_gt_cases len maxPoints) as [Hsmall | Hbig].
  - assert (Eps : ps = seq 0 len).
    { unfold ps, samplePositions. destruct (Nat.leb_spec len maxPoints); [reflexivity | lia]. }
    assert (Hall : Forall (fun p => (p < len)%nat) ps).
    { rewrite Eps. apply Forall_forall. intros p Hp. apply in_seq in Hp. lia. }
    splits.
    + rewrite Eps. intros a b pa pb Hab Ha Hb.
      assert (Ha' : (a < length (seq 0 len))%nat) by (apply nth_error_Some; congruence).
      assert (Hb' : (b < length (seq 0 len))%nat) by (apply nth_error_Some; congruence).
      rewrite length_seq in Ha', Hb'.
      rewrite (nth_error_nth' _ 0%nat) in Ha by (rewrite length_seq; lia).
      rewrite (nth_error_nth' _ 0%nat) in Hb by (rewrite length_seq; lia).
      rewrite seq_nth in Ha by lia. rewrite seq_nth in Hb by lia.
      inversion Ha; inversion Hb. lia.
    + intros k. unfold sampled, sampleData. fold len ps. now apply rows_at_nth.
    + intros _. unfold sampled, sampleData. fold len ps. rewrite Eps. apply rows_at_seq.
    + intros Hc. lia.
  - destruct (samplePositions_sampled len maxPoints H1 Hbig)
      as (step & j & Hs & Hj & Hlast & Eps).
    fold ps in Eps.
    set (tail := if ((j - 1) * step =? len - 1)%nat then [] else [(len - 1)%nat]) in *.
    assert (Hnth : forall a,
              nth_error ps a
              = if a <? j then Some (a * step)%nat
                else nth_error tail (a - j)).
    { intros a. rewrite Eps.
      assert (Hlen : length (map (fun k => k * step)%nat (seq 0 j)) = j)
        by now rewrite length_map, length_seq.
      destruct (Nat.ltb_spec a j).
      - rewrite nth_error_app1 by lia. rewrite nth_error_multiples.
        destruct (Nat.ltb_spec a j); [reflexivity | lia].
      - rewrite nth_error_app2 by lia. now rewrite Hlen. }
    assert (Htail : forall d p, nth_error tail d = Some p ->
              d = 0%nat /\ p = (len - 1)%nat /\ ((j - 1) * step < len - 1)%nat).
    { intros d p Hd. unfold tail in Hd.
      destruct (Nat.eqb_spec ((j - 1) * step) (len - 1)) as [E | E].
      - destruct d; discriminate.
      - destruct d as [| d]; [| destruct d; discriminate].
        inversion Hd. splits; auto. lia. }
    assert (Hall : Forall (fun p => (p < len)%nat) ps).
    { apply Forall_forall. intros p Hp. apply In_nth_error in Hp.
      destruct Hp as [a Ha]. rewrite Hnth in Ha.
      destruct (Nat.ltb_spec a j).
      - inversion Ha. nia.
      - apply Htail in Ha. lia. }
    assert (Hrows : forall k, nth_error sampled k
                              = match nth_error ps k with
                                | Some p => nth_error schedule p
                                | None => None
                                end).
    { intros k. unfold sampled, sampleData. fold len ps. now apply rows_at_nth. }
    assert (Hlen : length sampled = length ps).
    { unfold sampled, sampleData. fold len ps. now apply rows_at_length. }
    assert (Hlps : length ps = (j + length tail)%nat).
    { rewrite Eps, length_app, length_map, length_seq. reflexivity. }
    splits.
    + intros a b pa pb Hab Ha Hb. rewrite Hnth in Ha, Hb.
      destruct (Nat.ltb_spec a j); destruct (Nat.ltb_spec b j); try lia.
      * inversion Ha; inversion Hb. nia.
      * inversion Ha. apply Htail in Hb. nia.
      * apply Htail in Ha. apply Htail in Hb. lia.
    + exact Hrows.
    + intros Hc. lia.
    + intros _. splits.
      * rewrite Hlen, Hlps. unfold tail.
        destruct ((j - 1) * step =? len - 1)%nat; cbn [length]; lia.
      * rewrite Hrows, Hnth. destruct (Nat.ltb_spec 0 j); [reflexivity | lia].
      * rewrite Hrows, Hlen, Hlps, Hnth. unfold tail.
        destruct (Nat.eqb_spec ((j - 1) * step) (len - 1)) as [E | E]; cbn [length].
        -- destruct (Nat.ltb_spec (j + 0 - 1) j); [| lia].
           replace (j + 0 - 1)%nat with (j - 1)%nat by lia. now rewrite E.
        -- destruct (Nat.ltb_spec (j + 1 - 1) j); [lia |].
           replace (j + 1 - 1 - j)%nat with 0%nat by lia. reflexivity.
Qed.

Lemma sampleData_keeps_ends_witness :
  (1 <= 2)%nat /\
  (length (sampleData [10; 20; 30; 40; 50]%nat 2) <= 2 + 1)%nat.
Proof.
  assert (H : (1 <= 2)%nat) by lia.
  split; [exact H |].
  refine (proj1 (proj2 (proj2 (sampleData_keeps_ends [10; 20; 30; 40; 50]%nat 2 H)) _)).
  cbn. lia.
Defined.

(** ** The share link *)

Lemma Math_round_inject_Z (z : Z) (x : Q) : x == inject_Z z -> Math_round x = z.
Proof. intros H. apply Math_round_unique; lra. Qed.

Lemma inject_Z_pos (z : Z) : (0 <= z)%Z -> 0 < inject_Z z <-> (0 < z)%Z.
Proof. intros _. change 0 with (inject_Z 0). now rewrite <- Zlt_Qlt. Qed.

Lemma amount_round_trip (x : Q) (z : Z) (k : Q) :
  0 < k -> (0 <= z)%Z -> x == inject_Z z * k ->
  inject_Z (parseInt_or (if Qgt_bool x 0 then Some (Math_round (x / k)) else None) 0)
    * k == x.
Proof.
  intros Hk Hz Hx.
  assert (Hzq : 0 <= inject_Z z) by (change 0 with (inject_Z 0); now rewrite <- Zle_Qle).
  destruct (Qgt_bool_spec x 0) as [Hpos | Hle]; cbn [parseInt_or].
  - rewrite (Math_round_inject_Z z) by (rewrite Hx; field; lra).
    destruct (Z.eqb_spec z 0) as [E | E].
    + subst z. change (inject_Z 0) with 0 in Hx. lra.
    + now rewrite Hx.
  - assert (0 <= inject_Z z * k) by (apply Qmult_le_0_compat; lra).
    change (inject_Z 0) with 0. lra.
Qed.



(** X25. An annual extra payment set for January does not survive the share
    link: [annualExtraMonth] 0 is written as "0", which [parseInt(...) || 11]
    reads as 11, so the shared schedule makes the payment in December. *)
Theorem share_link_moves_january (l : LoanData) (o : AccelerationOptions) :
  0 < annualExtra o -> annualExtraMonth o = 0%Z ->
  exists d,
    parseShareUrl (generateShareUrl l o) = Some d /\
    annualExtraMonth (shared_accelerationOptions d) = 11%Z.
Proof.
  intros Hpos Hjan. eexists. split; [reflexivity |].
  cbn [shared_accelerationOptions annualExtraMonth generateShareUrl param_aem].
  destruct (Qgt_bool_spec (annualExtra o) 0) as [_ | Hle]; [| lra].
  rewrite Hjan. reflexivity.
Qed.

Lemma share_link_moves_january_witness :
  let l := mkLoanData 300000 6 30 (mkYearMonth 2024 1) in
  let o := mkAccelerationOptions 0 false 0 None 5000 0 in
  (0 < annualExtra o /\ annualExtraMonth o = 0%Z) /\
  exists d,
    parseShareUrl (generateShareUrl l o) = Some d /\
    annualExtraMonth (shared_accelerationOptions d) = 11%Z.
Proof.
  intros l o.
  assert (H1 : 0 < annualExtra o) by reflexivity.
  assert (H2 : annualExtraMonth o = 0%Z) by reflexivity.
  split; [split; assumption |].
  exact (share_link_moves_january l o H1 H2).
Defined.
